(** * Memory Scramble board (lab3-multiplayer-game/src/board.ts)

    A shallow embedding of the [Board] class and of its public operations
    [look], [flip], [map], [watch] and [parseFromFile], followed by the
    properties of the board's specification that were checked against it.

    Modelling decisions.
    - The three grids and the waiter grid are lists of lists, as in the
      class.  Coordinates, [rows] and [columns] are integers ([Z]): [flip]
      receives its coordinates from the caller and compares them with the
      dimensions itself.  Numbers that are not integers, and the rounding of
      JavaScript numbers, are not modelled.
    - A read outside a grid gives the value of an empty position and a write
      outside a grid does nothing.  Under the invariant [Inv], which every
      run keeps, the class never reads or writes outside its grids.
    - [players] is a finite map from player id to the [controlled] list of
      that player's record.
    - A [Deferred] is a natural number handed out by [makeDeferred]; resolving
      one is recorded in the world's [trace], together with the board at that
      moment, and so is every call of [notifyWatchers_locked].
    - [Math.random()] is an oracle: the world carries the sequence of draws,
      and the index chosen in a queue of length [n] is the draw modulo [n].
    - The function passed to [map] is a total function on labels.
    - Code between two [await]s runs without interruption (one event loop),
      and the bodies passed to [lock.run] contain no suspension point before
      their last statement.  Each public operation is therefore a small
      state machine whose steps are those uninterrupted segments, and the
      event loop runs the segments of the calls in flight in any order. *)

From Stdlib Require Import ZArith Lia.
From stdpp Require Import gmap strings list pretty.

(** ** Grids *)

Section Grid.
Context {A : Type}.

(** [m[r]![c]], [None] when the position is outside the grid. *)
Definition at2 (m : list (list A)) (r c : Z) : option A :=
  if bool_decide (0 ≤ r ∧ 0 ≤ c)%Z
  then m !! Z.to_nat r ≫= λ line, line !! Z.to_nat c
  else None.

(** [m[r]![c] = v]; every write of the class is at a position inside the
    grid, outside it the model leaves the grid alone. *)
Definition put2 (m : list (list A)) (r c : Z) (v : A) : list (list A) :=
  if bool_decide (0 ≤ r ∧ 0 ≤ c)%Z
  then alter (λ line, <[Z.to_nat c := v]> line) (Z.to_nat r) m
  else m.

(** Both dimensions of a grid are as announced. *)
Definition shaped (rows columns : Z) (m : list (list A)) : Prop :=
  Z.of_nat (length m) = rows ∧
  Forall (λ line, Z.of_nat (length line) = columns) m.
End Grid.

(** ** The representation *)

Record Waiter := mkWaiter { deferred : nat; pid : string }.

Record Board := mkBoard {
  rows : Z;
  columns : Z;
  cards : list (list (option string));
  faceUp : list (list bool);
  controlledBy : list (list (option string));
  players : gmap string (list (Z * Z));
  waiters : list (list (list Waiter));
  watchers : list nat
}.

Definition with_cards (v : list (list (option string))) (b : Board) : Board :=
  mkBoard (rows b) (columns b) v (faceUp b) (controlledBy b) (players b)
          (waiters b) (watchers b).
Definition with_faceUp (v : list (list bool)) (b : Board) : Board :=
  mkBoard (rows b) (columns b) (cards b) v (controlledBy b) (players b)
          (waiters b) (watchers b).
Definition with_controlledBy (v : list (list (option string))) (b : Board) : Board :=
  mkBoard (rows b) (columns b) (cards b) (faceUp b) v (players b)
          (waiters b) (watchers b).
Definition with_players (v : gmap string (list (Z * Z))) (b : Board) : Board :=
  mkBoard (rows b) (columns b) (cards b) (faceUp b) (controlledBy b) v
          (waiters b) (watchers b).
Definition with_waiters (v : list (list (list Waiter))) (b : Board) : Board :=
  mkBoard (rows b) (columns b) (cards b) (faceUp b) (controlledBy b) (players b)
          v (watchers b).
Definition with_watchers (v : list nat) (b : Board) : Board :=
  mkBoard (rows b) (columns b) (cards b) (faceUp b) (controlledBy b) (players b)
          (waiters b) v.

(** Reads.  [null] is [None]; outside the grid the reads give the value of an
    empty position. *)
Definition cardAt (b : Board) (r c : Z) : option string :=
  default None (at2 (cards b) r c).
Definition faceUpAt (b : Board) (r c : Z) : bool :=
  default false (at2 (faceUp b) r c).
Definition controllerAt (b : Board) (r c : Z) : option string :=
  default None (at2 (controlledBy b) r c).
Definition waitersAt (b : Board) (r c : Z) : list Waiter :=
  default [] (at2 (waiters b) r c).

(** Writes. *)
Definition setCard (r c : Z) (v : option string) (b : Board) : Board :=
  with_cards (put2 (cards b) r c v) b.
Definition setFaceUp (r c : Z) (v : bool) (b : Board) : Board :=
  with_faceUp (put2 (faceUp b) r c v) b.
Definition setController (r c : Z) (v : option string) (b : Board) : Board :=
  with_controlledBy (put2 (controlledBy b) r c v) b.
Definition setWaiters (r c : Z) (v : list Waiter) (b : Board) : Board :=
  with_waiters (put2 (waiters b) r c v) b.
Definition setControlled (p : string) (v : list (Z * Z)) (b : Board) : Board :=
  with_players (<[p := v]> (players b)) b.

(** JavaScript truthiness of a [string | null]. *)
Definition truthy (o : option string) : bool :=
  match o with
  | Some s => negb (bool_decide (s = ""))
  | None => false
  end.

(** ** The world: the board and what surrounds it *)

Inductive Effect :=
  | Change (woken : list nat)   (* notifyWatchers_locked ran, resolving these *)
  | Fulfil (d : nat).           (* a waiter's deferred was resolved *)

Record World := mkWorld {
  board : Board;
  fresh : nat;                      (* next deferred of makeDeferred *)
  rng : nat → nat;                  (* the draws of Math.random *)
  draws : nat;                      (* how many were taken *)
  trace : list (Effect * Board)     (* effects so far, oldest first *)
}.

Definition on_board (f : Board → Board) (w : World) : World :=
  mkWorld (f (board w)) (fresh w) (rng w) (draws w) (trace w).

Definition emit (e : Effect) (w : World) : World :=
  mkWorld (board w) (fresh w) (rng w) (draws w) (trace w ++ [(e, board w)]).

Definition makeDeferred (w : World) : nat * World :=
  (fresh w, mkWorld (board w) (S (fresh w)) (rng w) (draws w) (trace w)).

(** [Math.floor(Math.random() * n)] for [n > 0]: some index below [n]. *)
Definition randomIndex (n : nat) (w : World) : nat * World :=
  (rng w (draws w) `mod` n,
   mkWorld (board w) (fresh w) (rng w) (S (draws w)) (trace w)).

(** Has this deferred been resolved? *)
Definition resolves (d : nat) (e : Effect) : bool :=
  match e with
  | Change ws => bool_decide (d ∈ ws)
  | Fulfil d' => bool_decide (d = d')
  end.
Definition resolved (d : nat) (w : World) : bool :=
  existsb (λ e, resolves d e.1) (trace w).

(** ** Private methods *)

Definition notifyWatchers_locked (w : World) : World :=
  on_board (with_watchers []) (emit (Change (watchers (board w))) w).

Definition removePositionFromAllPlayers_locked (r c : Z) (b : Board) : Board :=
  with_players
    (filter (λ pp : Z * Z, ¬ (pp.1 = r ∧ pp.2 = c)) <$> players b) b.

Definition wakeNextWaiter_locked (r c : Z) (w : World) : World :=
  let q := waitersAt (board w) r c in
  if bool_decide (0 < length q) then
    let '(idx, w) := randomIndex (length q) w in
    match q !! idx with
    | None => w
    | Some item =>
        let w := on_board (setWaiters r c (delete idx q)) w in
        match cardAt (board w) r c with
        | None => emit (Fulfil (deferred item)) w
        | Some _ =>
            let w := on_board (setFaceUp r c true) w in
            let w := on_board (setController r c (Some (pid item))) w in
            let w := notifyWatchers_locked w in
            emit (Fulfil (deferred item)) w
        end
    end
  else w.

(** The first loop of the mismatch branch: give up what is still owned. *)
Definition relinquishOwned (playerId : string) (b : Board) (p : Z * Z) : Board :=
  let '(r, c) := p in
  if bool_decide (cardAt b r c ≠ None)
     && bool_decide (controllerAt b r c = Some playerId)
  then setController r c None b
  else b.

(** The second loop of the mismatch branch, threading [changed]. *)
Definition turnDown (acc : bool * Board) (p : Z * Z) : bool * Board :=
  let '(changed, b) := acc in
  let '(r, c) := p in
  if bool_decide (cardAt b r c ≠ None) && faceUpAt b r c
     && bool_decide (controllerAt b r c = None)
  then (true, removePositionFromAllPlayers_locked r c (setFaceUp r c false b))
  else (changed, b).

Definition finishPreviousForPlayer_locked (playerId : string) (w : World) : World :=
  match players (board w) !! playerId with
  | None => w
  | Some [(r1, c1); (r2, c2)] =>
      let lab1 := cardAt (board w) r1 c1 in
      let lab2 := cardAt (board w) r2 c2 in
      if bool_decide (lab1 ≠ None) && bool_decide (lab2 ≠ None)
         && bool_decide (lab1 = lab2)
      then
        let w := on_board (setCard r1 c1 None) w in
        let w := on_board (setCard r2 c2 None) w in
        let w := on_board (setFaceUp r1 c1 false) w in
        let w := on_board (setFaceUp r2 c2 false) w in
        let w := on_board (setController r1 c1 None) w in
        let w := on_board (setController r2 c2 None) w in
        let w := on_board (setControlled playerId []) w in
        let w := on_board (removePositionFromAllPlayers_locked r1 c1) w in
        let w := on_board (removePositionFromAllPlayers_locked r2 c2) w in
        let w := notifyWatchers_locked w in
        let w := wakeNextWaiter_locked r1 c1 w in
        wakeNextWaiter_locked r2 c2 w
      else
        let w := on_board
                   (λ b, foldl (relinquishOwned playerId) b [(r1, c1); (r2, c2)]) w in
        let w := on_board (setControlled playerId []) w in
        let '(changed, b) := foldl turnDown (false, board w) [(r1, c1); (r2, c2)] in
        let w := on_board (λ _, b) w in
        let w := if changed then notifyWatchers_locked w else w in
        let w := wakeNextWaiter_locked r1 c1 w in
        wakeNextWaiter_locked r2 c2 w
  | Some [(r, c)] =>
      if bool_decide (cardAt (board w) r c ≠ None)
         && bool_decide (controllerAt (board w) r c = None)
      then
        let w := on_board (setControlled playerId []) w in
        let w :=
          if faceUpAt (board w) r c then
            let w := on_board (setFaceUp r c false) w in
            let w := on_board (removePositionFromAllPlayers_locked r c) w in
            notifyWatchers_locked w
          else w in
        wakeNextWaiter_locked r c w
      else w
  | Some _ => w
  end.

(** ** checkRep *)

Definition nonemptyOrNull (o : option string) : bool :=
  match o with
  | Some s => negb (bool_decide (s = ""))
  | None => true
  end.

Definition lineLength {A} (m : list (list A)) (r : Z) : option Z :=
  (λ line, Z.of_nat (length line)) <$> m !! Z.to_nat r.

Definition checkCell (b : Board) (r c : Z) : bool :=
  nonemptyOrNull (cardAt b r c)
  && nonemptyOrNull (controllerAt b r c)
  && match cardAt b r c with
     | None => negb (faceUpAt b r c) && bool_decide (controllerAt b r c = None)
     | Some _ => true
     end.

Definition checkLine (b : Board) (r : Z) : bool :=
  bool_decide (lineLength (cards b) r = Some (columns b))
  && bool_decide (lineLength (faceUp b) r = Some (columns b))
  && bool_decide (lineLength (controlledBy b) r = Some (columns b))
  && bool_decide (lineLength (waiters b) r = Some (columns b))
  && forallb (checkCell b r) (seqZ 0 (columns b)).

Definition checkPosition (b : Board) (playerId : string) (p : Z * Z) : bool :=
  let '(r, c) := p in
  bool_decide (0 ≤ r ∧ r < rows b ∧ 0 ≤ c ∧ c < columns b)%Z
  && (bool_decide (controllerAt b r c = Some playerId)
      || bool_decide (cardAt b r c ≠ None) && faceUpAt b r c).

Definition checkPlayer (b : Board) (entry : string * list (Z * Z)) : bool :=
  let '(playerId, controlled) := entry in
  negb (bool_decide (playerId = ""))
  && bool_decide (length controlled ≤ 2)
  && forallb (checkPosition b playerId) controlled.

Definition checkRep (b : Board) : bool :=
  bool_decide (0 ≤ rows b)%Z
  && bool_decide (0 ≤ columns b)%Z
  && bool_decide (Z.of_nat (length (cards b)) = rows b)
  && bool_decide (Z.of_nat (length (faceUp b)) = rows b)
  && bool_decide (Z.of_nat (length (controlledBy b)) = rows b)
  && bool_decide (Z.of_nat (length (waiters b)) = rows b)
  && forallb (checkLine b) (seqZ 0 (rows b))
  && forallb (checkPlayer b) (map_to_list (players b)).

(** ** look *)

Definition LF : string := String (Ascii.ascii_of_nat 10) "".

Definition cellLine (b : Board) (playerId : string) (r c : Z) : string :=
  match cardAt b r c with
  | None => "none"
  | Some card =>
      if negb (faceUpAt b r c) then "down"
      else if bool_decide (controllerAt b r c = Some playerId)
           then "my " +:+ card
           else "up " +:+ card
  end.

(** The [lines] array of [look], as the two loops fill it. *)
Definition lookLines (b : Board) (playerId : string) : list string :=
  (pretty (rows b) +:+ "x" +:+ pretty (columns b))
  :: (r ← seqZ 0 (rows b); c ← seqZ 0 (columns b); [cellLine b playerId r c]).

Definition snapshot (b : Board) (playerId : string) : string :=
  String.concat LF (lookLines b playerId) +:+ LF.

(** How a promise returned by a public operation settles. *)
Inductive Settled :=
  | Fulfilled (value : string)
  | Rejected (message : string)     (* [throw new Error(message)] *)
  | AssertionError                  (* a failed [assert] of checkRep *)
  | TypeError.                      (* a property read on [undefined] *)

(** The body that [look] runs under the lock. *)
Definition look_locked (playerId : string) (w : World) : Settled :=
  if checkRep (board w) then Fulfilled (snapshot (board w) playerId)
  else AssertionError.

(** ** flip *)

Definition InvalidCoordinates : string := "invalid coordinates".
Definition NoCardHere : string := "no card at location".
Definition TargetControlled : string := "target controlled by a player".

(** What the critical section of [flip]'s loop returns. *)
Inductive Attempt :=
  | Ok
  | Fail (reason : string)
  | Wait (d : nat)
  | Retry
  | Throw (e : Settled).

Definition flip_locked (playerId : string) (row column : Z) (w : World)
  : Attempt * World :=
  if negb (checkRep (board w)) then (Throw AssertionError, w) else
  let card := cardAt (board w) row column in
  let owner := controllerAt (board w) row column in
  match players (board w) !! playerId with
  | None => (Throw TypeError, w)
  | Some [] =>
      match card with
      | None => (Fail NoCardHere, w)
      | Some _ =>
          if truthy owner && negb (bool_decide (owner = Some playerId)) then
            let '(d, w) := makeDeferred w in
            let q := waitersAt (board w) row column in
            (Wait d, on_board (setWaiters row column (q ++ [mkWaiter d playerId])) w)
          else
            let w := on_board (setFaceUp row column true) w in
            let w := on_board (setController row column (Some playerId)) w in
            let w := on_board (setControlled playerId ([] ++ [(row, column)])) w in
            (Ok, notifyWatchers_locked w)
      end
  | Some [(r0, c0)] =>
      match card with
      | None =>
          let w := on_board (setController r0 c0 None) w in
          let w := on_board (setControlled playerId [(r0, c0)]) w in
          (Fail NoCardHere, w)
      | Some _ =>
          if faceUpAt (board w) row column
             && truthy (controllerAt (board w) row column) then
            let w := on_board (setController r0 c0 None) w in
            let w := on_board (setControlled playerId [(r0, c0)]) w in
            (Fail TargetControlled, w)
          else
            let w := if negb (faceUpAt (board w) row column)
                     then on_board (setFaceUp row column true) w else w in
            let w := on_board (setController row column (Some playerId)) w in
            let label0 := cardAt (board w) r0 c0 in
            let label1 := cardAt (board w) row column in
            if bool_decide (label0 ≠ None) && bool_decide (label1 ≠ None)
               && bool_decide (label0 = label1)
            then
              let w := on_board (setControlled playerId ([(r0, c0)] ++ [(row, column)])) w in
              (Ok, notifyWatchers_locked w)
            else
              let w := on_board (setController r0 c0 None) w in
              let w := on_board (setController row column None) w in
              let w := on_board (setControlled playerId [(r0, c0); (row, column)]) w in
              let w := notifyWatchers_locked w in
              (Ok, wakeNextWaiter_locked r0 c0 w)
      end
  | Some _ => (Retry, w)
  end.

(** The statements of [flip] before its first [await]. *)
Definition flip_entry (playerId : string) (row column : Z) (w : World)
  : option string * World :=
  let w := match players (board w) !! playerId with
           | None => on_board (setControlled playerId []) w
           | Some _ => w
           end in
  if bool_decide (row < 0 ∨ rows (board w) ≤ row
                  ∨ column < 0 ∨ columns (board w) ≤ column)%Z
  then (Some InvalidCoordinates, w)
  else (None, w).

(** Where a call of [flip] stands between two of its segments. *)
Inductive FlipPc :=
  | FlipEntry                 (* called, nothing run yet *)
  | FlipFinish                (* about to finish the previous play *)
  | FlipTry                   (* about to run the loop's critical section *)
  | FlipAwait (d : nat)       (* suspended on a waiter's deferred *)
  | FlipLook                  (* about to take the final snapshot *)
  | FlipDone (s : Settled).

Definition flip_step (playerId : string) (row column : Z) (pc : FlipPc) (w : World)
  : FlipPc * World :=
  match pc with
  | FlipEntry =>
      match flip_entry playerId row column w with
      | (Some message, w) => (FlipDone (Rejected message), w)
      | (None, w) => (FlipFinish, w)
      end
  | FlipFinish => (FlipTry, finishPreviousForPlayer_locked playerId w)
  | FlipTry =>
      match flip_locked playerId row column w with
      | (Ok, w) => (FlipLook, w)
      | (Fail reason, w) => (FlipDone (Rejected reason), w)
      | (Wait d, w) => (FlipAwait d, w)
      | (Retry, w) => (FlipTry, w)
      | (Throw e, w) => (FlipDone e, w)
      end
  | FlipAwait d => if resolved d w then (FlipTry, w) else (FlipAwait d, w)
  | FlipLook => (FlipDone (look_locked playerId w), w)
  | FlipDone s => (FlipDone s, w)
  end.

(** A call of [flip] scheduled with nothing else in between. *)
Fixpoint flip_run (fuel : nat) (playerId : string) (row column : Z)
    (pc : FlipPc) (w : World) : FlipPc * World :=
  match fuel with
  | O => (pc, w)
  | S fuel =>
      let '(pc, w) := flip_step playerId row column pc w in
      flip_run fuel playerId row column pc w
  end.

Definition flip (playerId : string) (row column : Z) (w : World) : FlipPc * World :=
  flip_run 4 playerId row column FlipEntry w.

(** ** map *)

Record Replacement := mkReplacement { rep_r : Z; rep_c : Z; newCard : string }.

Inductive MapPc :=
  | MapScan (r c : Z) (replacements : list Replacement)   (* loop counters *)
  | MapApply (replacements : list Replacement)
  | MapLook
  | MapDone (s : Settled).

(** The body that [map] runs under the lock. *)
Definition map_locked (replacements : list Replacement) (w : World) : World :=
  let w := on_board
             (λ b, foldl (λ b rep, setCard (rep_r rep) (rep_c rep) (Some (newCard rep)) b)
                         b replacements) w in
  notifyWatchers_locked w.

Definition map_step (playerId : string) (f : string → string) (pc : MapPc) (w : World)
  : MapPc * World :=
  match pc with
  | MapScan r c replacements =>
      if bool_decide (r < rows (board w))%Z then
        if bool_decide (c < columns (board w))%Z then
          match cardAt (board w) r c with
          | Some card =>
              (MapScan r (c + 1) (replacements ++ [mkReplacement r c (f card)]), w)
          | None => (MapScan r (c + 1) replacements, w)
          end
        else (MapScan (r + 1) 0 replacements, w)
      else (MapApply replacements, w)
  | MapApply replacements => (MapLook, map_locked replacements w)
  | MapLook => (MapDone (look_locked playerId w), w)
  | MapDone s => (MapDone s, w)
  end.

(** ** watch *)

Inductive WatchPc :=
  | WatchEntry
  | WatchPush (d : nat)
  | WatchAwait (d : nat)
  | WatchLook
  | WatchDone (s : Settled).

Definition watch_step (playerId : string) (pc : WatchPc) (w : World)
  : WatchPc * World :=
  match pc with
  | WatchEntry => let '(d, w) := makeDeferred w in (WatchPush d, w)
  | WatchPush d =>
      (WatchAwait d, on_board (λ b, with_watchers (watchers b ++ [d]) b) w)
  | WatchAwait d => if resolved d w then (WatchLook, w) else (WatchAwait d, w)
  | WatchLook => (WatchDone (look_locked playerId w), w)
  | WatchDone s => (WatchDone s, w)
  end.

(** ** Calls in flight *)

Inductive Task :=
  | TLook (playerId : string) (result : option Settled)
  | TFlip (playerId : string) (row column : Z) (pc : FlipPc)
  | TMap (playerId : string) (f : string → string) (pc : MapPc)
  | TWatch (playerId : string) (pc : WatchPc).

(** A call as it is made. *)
Definition starting (t : Task) : bool :=
  match t with
  | TLook _ None => true
  | TFlip _ _ _ FlipEntry => true
  | TMap _ _ (MapScan 0 0 []) => true
  | TWatch _ WatchEntry => true
  | _ => false
  end.

(** A call whose promise has settled. *)
Definition completed (t : Task) : option Settled :=
  match t with
  | TLook _ result => result
  | TFlip _ _ _ (FlipDone s) => Some s
  | TMap _ _ (MapDone s) => Some s
  | TWatch _ (WatchDone s) => Some s
  | _ => None
  end.

Definition task_step (t : Task) (w : World) : Task * World :=
  match t with
  | TLook p None => (TLook p (Some (look_locked p w)), w)
  | TLook p (Some s) => (t, w)
  | TFlip p r c pc => let '(pc, w) := flip_step p r c pc w in (TFlip p r c pc, w)
  | TMap p f pc => let '(pc, w) := map_step p f pc w in (TMap p f pc, w)
  | TWatch p pc => let '(pc, w) := watch_step p pc w in (TWatch p pc, w)
  end.

(** The event loop: at any time a new call may be made, or one call in
    flight runs its next segment. *)
Inductive sys_step : World * list Task → World * list Task → Prop :=
  | sys_call w ts t :
      starting t = true →
      sys_step (w, ts) (w, ts ++ [t])
  | sys_run w ts i t :
      ts !! i = Some t →
      sys_step (w, ts) ((task_step t w).2, <[i := (task_step t w).1]> ts).

(** ** The constructor *)

Definition emptyGrid {A} (rows columns : Z) (v : A) : list (list A) :=
  replicate (Z.to_nat rows) (replicate (Z.to_nat columns) v).

(** [initialCards[r * columns + c]] for every position, row by row. *)
Definition fillCards (rows columns : Z) (initialCards : list string)
  : list (list (option string)) :=
  (λ r, (λ c, initialCards !! Z.to_nat (r * columns + c)) <$> seqZ 0 columns)
    <$> seqZ 0 rows.

Definition LengthMismatch : string := "initialCards length does not match dimensions".

Definition newBoard (rows columns : Z) (initialCards : option (list string))
  : Settled + Board :=
  let blank :=
    mkBoard rows columns (emptyGrid rows columns None) (emptyGrid rows columns false)
            (emptyGrid rows columns None) ∅ (emptyGrid rows columns []) [] in
  match initialCards with
  | None => if checkRep blank then inr blank else inl AssertionError
  | Some l =>
      if bool_decide (Z.of_nat (length l) ≠ rows * columns)%Z
      then inl (Rejected LengthMismatch)
      else
        let b := with_cards (fillCards rows columns l) blank in
        if checkRep b then inr b else inl AssertionError
  end.

Definition initial (b : Board) (rng : nat → nat) : World := mkWorld b 0 rng 0 [].

(** ** Invariants of the representation *)

Definition inGrid (b : Board) (r c : Z) : Prop :=
  (0 ≤ r ∧ r < rows b ∧ 0 ≤ c ∧ c < columns b)%Z.

(** The four grids have the dimensions [rows] and [columns]. *)
Record Shape (b : Board) : Prop := mkShape {
  shape_cards : shaped (rows b) (columns b) (cards b);
  shape_faceUp : shaped (rows b) (columns b) (faceUp b);
  shape_controlledBy : shaped (rows b) (columns b) (controlledBy b);
  shape_waiters : shaped (rows b) (columns b) (waiters b)
}.

(** An empty position is face down and nobody controls it. *)
Definition emptyIsBare (b : Board) : Prop :=
  ∀ r c, cardAt b r c = None → faceUpAt b r c = false ∧ controllerAt b r c = None.

(** A controlled position is face up. *)
Definition heldIsUp (b : Board) : Prop :=
  ∀ r c, controllerAt b r c ≠ None → faceUpAt b r c = true.

(** Every position in a player's record is a position of the board. *)
Definition recordsInGrid (b : Board) : Prop :=
  map_Forall (λ _ controlled, Forall (λ p : Z * Z, inGrid b p.1 p.2) controlled)
             (players b).

Record Inv (b : Board) : Prop := mkInv {
  inv_shape : Shape b;
  inv_bare : emptyIsBare b;
  inv_held : heldIsUp b;
  inv_records : recordsInGrid b
}.

(** What [checkRep] asserts, as a proposition. *)
Record RepOk (b : Board) : Prop := mkRepOk {
  rep_rows : (0 ≤ rows b)%Z;
  rep_columns : (0 ≤ columns b)%Z;
  rep_shape : Shape b;
  rep_cells : ∀ r c, inGrid b r c → checkCell b r c = true;
  rep_players : ∀ p l, players b !! p = Some l → checkPlayer b (p, l) = true
}.

(** ** Schedules *)

(** One move of the event loop: a call is made, or the call in flight at an
    index runs its next segment. *)
Inductive Move :=
  | Call (t : Task)
  | Run (i : nat).

Definition move (s : World * list Task) (m : Move) : World * list Task :=
  match m with
  | Call t => if starting t then (s.1, s.2 ++ [t]) else s
  | Run i =>
      match s.2 !! i with
      | Some t => ((task_step t s.1).2, <[i := (task_step t s.1).1]> s.2)
      | None => s
      end
  end.

Definition schedule (ms : list Move) (s : World * list Task) : World * list Task :=
  foldl move s ms.

(** ** Boards and runs used as examples *)

Module Examples.
Definition rng0 : nat → nat := λ _, 0.

(** One row, three cards: A A B. *)
Definition rowAAB : Board :=
  mkBoard 1 3 [[Some "A"; Some "A"; Some "B"]] [[false; false; false]]
          [[None; None; None]] ∅ [[[]; []; []]] [].

Definition flipOf (p : string) (r c : Z) : Task := TFlip p r c FlipEntry.

(** alice turns over the two A cards, then starts a third flip on the B
    card and runs it up to its final snapshot. *)
Definition aliceMatches : World * list Task :=
  schedule [Call (flipOf "alice" 0 0); Run 0; Run 0; Run 0; Run 0;
            Call (flipOf "alice" 0 1); Run 1; Run 1; Run 1; Run 1;
            Call (flipOf "alice" 0 2); Run 2; Run 2; Run 2]
           (initial rowAAB rng0, []).
End Examples.

(** The world after one draw of [Math.random]. *)
Definition drawn (w : World) : World := (randomIndex 1 w).2.

(** The position [wakeNextWaiter_locked] picks in a queue. *)
Definition picked (q : list Waiter) (w : World) : nat := (randomIndex (length q) w).1.

Module Waiting.
Import Examples.

(** One row, three cards: A B A. *)
Definition rowABA : Board :=
  mkBoard 1 3 [[Some "A"; Some "B"; Some "A"]] [[false; false; false]]
          [[None; None; None]] ∅ [[[]; []; []]] [].

(** alice holds (0,0); bob and carol both asked for it and wait. *)
Definition twoWaiters : World * list Task :=
  schedule [Call (flipOf "alice" 0 0); Run 0; Run 0; Run 0; Run 0;
            Call (flipOf "bob" 0 0); Run 1; Run 1; Run 1;
            Call (flipOf "carol" 0 0); Run 2; Run 2; Run 2]
           (initial rowABA rng0, []).
End Waiting.

Module Holding.
Import Examples.

(** alice has turned over (0,0) of A B A and holds it. *)
Definition aliceHolds : World * list Task :=
  schedule [Call (flipOf "alice" 0 0); Run 0; Run 0; Run 0; Run 0]
           (initial Waiting.rowABA rng0, []).
End Holding.

(** The trace only grows. *)
Definition extends (w w' : World) : Prop := ∃ events, trace w' = trace w ++ events.

Module Pending.
Import Examples.

(** alice turned over A at (0,0) and B at (0,1): a mismatch, both positions
    are left face up until her next flip. *)
Definition aliceMismatched : World * list Task :=
  schedule [Call (flipOf "alice" 0 0); Run 0; Run 0; Run 0; Run 0;
            Call (flipOf "alice" 0 1); Run 1; Run 1; Run 1; Run 1]
           (initial Waiting.rowABA rng0, []).
End Pending.

Module Stale.
Import Examples.

(** alice holds (0,0), bob holds (0,1); alice's second flip on bob's card is
    rejected and she gives up (0,0), which stays in her record; carol then
    takes (0,0) as her first card. *)
Definition carolTookOver : World * list Task :=
  schedule [Call (flipOf "alice" 0 0); Run 0; Run 0; Run 0; Run 0;
            Call (flipOf "bob" 0 1); Run 1; Run 1; Run 1; Run 1;
            Call (flipOf "alice" 0 1); Run 2; Run 2; Run 2;
            Call (flipOf "carol" 0 0); Run 3; Run 3; Run 3; Run 3]
           (initial Waiting.rowABA rng0, []).
End Stale.

Module Rewrite.
Import Examples.

(** The function the /replace route would pass to [map]: A becomes Z. *)
Definition aToZ (card : string) : string :=
  if bool_decide (card = "A") then "Z" else card.

Definition mapOf (p : string) (f : string → string) : Task := TMap p f (MapScan 0 0 []).

(** On A A B: alice matches the two A cards.  A [map] starts and computes the
    replacements of (0,0) and (0,1); while it awaits [f], alice's next flip
    runs and its finalization removes the matched pair.  The [map] then
    computes (0,2), leaves its loops and stands before its critical
    section. *)
Definition beforeApply : World * list Task :=
  schedule [Call (flipOf "alice" 0 0); Run 0; Run 0; Run 0; Run 0;
            Call (flipOf "alice" 0 1); Run 1; Run 1; Run 1; Run 1;
            Call (mapOf "admin" aToZ); Run 2; Run 2;
            Call (flipOf "alice" 0 2); Run 3; Run 3; Run 3; Run 3;
            Run 2; Run 2; Run 2]
           (initial rowAAB rng0, []).

Definition afterApply : World * list Task := schedule [Run 2] beforeApply.
End Rewrite.

(** ** The snapshot as the specification words it *)

(** "none" if the label is absent, "down" if present and not face up,
    "my <label>" if face up and controlled by [p], "up <label>" if face up
    and controlled by someone else or by nobody. *)
Definition specCellLine (label : option string) (face_up : bool)
    (controller : option string) (p : string) : string :=
  match label with
  | None => "none"
  | Some l =>
      if face_up
      then if decide (controller = Some p) then "my " +:+ l else "up " +:+ l
      else "down"
  end.

(** Line 1 is "<rows>x<cols>", then one line per cell in row-major order;
    every line, the last one too, ends with a newline. *)
Definition specSnapshot (b : Board) (p : string) : string :=
  let header := pretty (rows b) +:+ "x" +:+ pretty (columns b) in
  let cell (k : Z) :=
    let r := (k `div` columns b)%Z in
    let c := (k `mod` columns b)%Z in
    specCellLine (cardAt b r c) (faceUpAt b r c) (controllerAt b r c) p in
  String.concat ""
    ((λ line, line +:+ LF) <$> header :: (cell <$> seqZ 0 (rows b * columns b))).

(** ** parseFromFile

    The text of the file, once read and decoded, is a string of code units;
    the model covers the code units below 256. *)

Module Parse.

(** What [trim] strips: the white space and line terminators of JavaScript
    among the code units below 256. *)
Definition isWhite (a : Ascii.ascii) : bool :=
  let n := Ascii.nat_of_ascii a in
  bool_decide (n = 9 ∨ n = 10 ∨ n = 11 ∨ n = 12 ∨ n = 13 ∨ n = 32 ∨ n = 160).

(** [\d] *)
Definition isDigit (a : Ascii.ascii) : bool :=
  let n := Ascii.nat_of_ascii a in bool_decide (48 ≤ n ∧ n ≤ 57).

Fixpoint trimStart (s : string) : string :=
  match s with
  | String a rest => if isWhite a then trimStart rest else s
  | EmptyString => EmptyString
  end.

Fixpoint trimEnd (s : string) : string :=
  match s with
  | String a rest =>
      match trimEnd rest with
      | EmptyString => if isWhite a then EmptyString else String a EmptyString
      | kept => String a kept
      end
  | EmptyString => EmptyString
  end.

Definition trim (s : string) : string := trimEnd (trimStart s).

Definition NL : Ascii.ascii := Ascii.ascii_of_nat 10.
Definition CR : Ascii.ascii := Ascii.ascii_of_nat 13.
Definition letter_x : Ascii.ascii := Ascii.ascii_of_nat 120.

(** Put a code unit in front of the first piece. *)
Definition consHead (a : Ascii.ascii) (pieces : list string) : list string :=
  match pieces with
  | piece :: pieces => String a piece :: pieces
  | [] => [String a EmptyString]
  end.

(** [text.split(/\r?\n/)] *)
Fixpoint splitLines (s : string) : list string :=
  match s with
  | EmptyString => [EmptyString]
  | String a rest =>
      if bool_decide (a = NL) then EmptyString :: splitLines rest
      else
        match rest with
        | String b rest' =>
            if bool_decide (a = CR) && bool_decide (b = NL)
            then EmptyString :: splitLines rest'
            else consHead a (splitLines rest)
        | EmptyString => consHead a (splitLines rest)
        end
  end.

(** [l.trim().length > 0] *)
Definition nonBlank (l : string) : Prop := trim l ≠ EmptyString.

(** The longest prefix of digits, and what follows it. *)
Fixpoint digitsPrefix (s : string) : string * string :=
  match s with
  | String a rest =>
      if isDigit a
      then let '(ds, tl) := digitsPrefix rest in (String a ds, tl)
      else (EmptyString, s)
  | EmptyString => (EmptyString, EmptyString)
  end.

(** [first.match(/^(\d+)x(\d+)$/)]: the two groups. *)
Definition matchHeader (s : string) : option (string * string) :=
  let '(d1, rest) := digitsPrefix s in
  if bool_decide (d1 = EmptyString) then None
  else
    match rest with
    | String a rest' =>
        if bool_decide (a = letter_x) then
          let '(d2, tl) := digitsPrefix rest' in
          if bool_decide (d2 = EmptyString) then None
          else if bool_decide (tl = EmptyString) then Some (d1, d2)
          else None
        else None
    | EmptyString => None
    end.

Definition digitValue (a : Ascii.ascii) : Z := (Z.of_nat (Ascii.nat_of_ascii a) - 48)%Z.

(** [parseInt(ds, 10)] on a string of digits, without the rounding of
    JavaScript numbers. *)
Fixpoint parseIntFrom (acc : Z) (ds : string) : Z :=
  match ds with
  | String a rest => parseIntFrom (10 * acc + digitValue a)%Z rest
  | EmptyString => acc
  end.
Definition parseInt (ds : string) : Z := parseIntFrom 0 ds.

Definition EmptyFile : string := "empty board file".
Definition InvalidHeader : string := "invalid board header".
Definition WrongCount : string := "wrong number of card lines".

Definition parseFromFile (text : string) : Settled + Board :=
  let lines := filter nonBlank (splitLines text) in
  match lines with
  | [] => inl (Rejected EmptyFile)
  | first :: cardLines =>
      match matchHeader (trim first) with
      | None => inl (Rejected InvalidHeader)
      | Some (d1, d2) =>
          let rows := parseInt d1 in
          let cols := parseInt d2 in
          if bool_decide (Z.of_nat (length cardLines) ≠ rows * cols)%Z
          then inl (Rejected WrongCount)
          else newBoard rows cols (Some (trim <$> cardLines))
      end
  end.

(** *** The file format as the specification words it *)

(** A non-empty string of decimal digits. *)
Definition isDecimal (ds : string) : Prop :=
  ds ≠ EmptyString ∧ Forall (λ a, isDigit a = true) (String.list_ascii_of_string ds).

(** The number a string of decimal digits denotes. *)
Fixpoint decimalValue (ds : string) : Z :=
  match ds with
  | String a rest => (digitValue a * 10 ^ Z.of_nat (String.length rest) + decimalValue rest)%Z
  | EmptyString => 0%Z
  end.



End Parse.

(** ** The whole representation invariant

    What [checkRep] asserts when the callers keep to the preconditions:
    the invariant above, non-empty labels and player ids, and every recorded
    position either still controlled by the player or present and face up. *)

Definition recordOk (b : Board) (p : string) (controlled : list (Z * Z)) : Prop :=
  p ≠ ""
  ∧ length controlled ≤ 2
  ∧ ∀ r c, (r, c) ∈ controlled →
      controllerAt b r c = Some p
      ∨ cardAt b r c ≠ None ∧ faceUpAt b r c = true.

Record Tidy (b : Board) : Prop := mkTidy {
  tidy_inv : Inv b;
  tidy_columns : (0 ≤ columns b)%Z;
  tidy_labels : ∀ r c label, cardAt b r c = Some label → label ≠ "";
  tidy_owners : ∀ r c q, controllerAt b r c = Some q → q ≠ "";
  tidy_waiters : ∀ r c item, item ∈ waitersAt b r c → pid item ≠ "";
  tidy_records : ∀ p l, players b !! p = Some l → recordOk b p l
}.

(** A map function that keeps to the data model: labels stay non-empty. *)
Definition keepsLabels (f : string → string) : Prop := ∀ l, l ≠ "" → f l ≠ "".

Definition labelled (replacements : list Replacement) : Prop :=
  Forall (λ rep, newCard rep ≠ "") replacements.

(** A call made with a non-empty player id and, for [map], such a function;
    the replacements it has computed so far are then non-empty too. *)
Definition polite (t : Task) : Prop :=
  match t with
  | TFlip p _ _ _ => p ≠ ""
  | TMap _ f (MapScan _ _ replacements) => keepsLabels f ∧ labelled replacements
  | TMap _ f (MapApply replacements) => keepsLabels f ∧ labelled replacements
  | _ => True
  end.

Definition politeMove (m : Move) : Prop :=
  match m with
  | Call t => polite t
  | Run _ => True
  end.

(** ** What every segment keeps

    The dimensions are fixed and no player record is ever dropped. *)
Definition sameTable (b b' : Board) : Prop :=
  rows b' = rows b ∧ columns b' = columns b
  ∧ ∀ p, is_Some (players b !! p) → is_Some (players b' !! p).

(** How the calls of a run may settle. *)
Definition regular (s : Settled) : Prop :=
  match s with
  | Fulfilled _ => True
  | Rejected message => message ∈ [InvalidCoordinates; NoCardHere; TargetControlled]
  | _ => False
  end.

Definition settlesWell (t : Task) (s : Settled) : Prop :=
  match t with
  | TFlip _ _ _ _ => regular s
  | _ => ∃ value, s = Fulfilled value
  end.

Definition sound (b : Board) (t : Task) : Prop :=
  (∀ s, completed t = Some s → settlesWell t s)
  ∧ match t with
    | TFlip p _ _ (FlipFinish | FlipTry | FlipAwait _ | FlipLook) =>
        is_Some (players b !! p)
    | _ => True
    end.

(** What a segment owes to the calls that wait: the trace only grows, and a
    waiter or watcher that leaves its queue has been resolved. *)
Definition carriesOver (w w' : World) : Prop :=
  extends w w'
  ∧ (∀ r c x, x ∈ waitersAt (board w) r c →
       x ∈ waitersAt (board w') r c ∨ resolved (deferred x) w' = true)
  ∧ (∀ d, d ∈ watchers (board w) → d ∈ watchers (board w') ∨ resolved d w' = true).

Definition awaited (w : World) (t : Task) : Prop :=
  match t with
  | TFlip p r c (FlipAwait d) =>
      mkWaiter d p ∈ waitersAt (board w) r c ∨ resolved d w = true
  | TWatch _ (WatchAwait d) => d ∈ watchers (board w) ∨ resolved d w = true
  | _ => True
  end.

Module Watching.
Import Examples.

(** dana watches the board A B A; alice then turns over (0,0). *)
Definition danaWatches : World * list Task :=
  schedule [Call (TWatch "dana" WatchEntry); Run 0; Run 0]
           (initial Waiting.rowABA rng0, []).

Definition danaNotified : World * list Task :=
  schedule [Call (flipOf "alice" 0 0); Run 1; Run 1; Run 1] danaWatches.
End Watching.

(** The world after the first statement of [flip]: a player seen for the
    first time gets an empty record. *)
Definition enrolled (playerId : string) (w : World) : World :=
  match players (board w) !! playerId with
  | None => on_board (setControlled playerId []) w
  | Some _ => w
  end.

(** The positions a player has on record, none for a player never seen. *)
Definition recorded (w : World) (playerId : string) : list (Z * Z) :=
  default [] (players (board w) !! playerId).

Module Matching.
Import Examples.

(** alice has turned over the first A of A A B and holds it. *)
Definition aliceHoldsA : World * list Task :=
  schedule [Call (flipOf "alice" 0 0); Run 0; Run 0; Run 0; Run 0]
           (initial rowAAB rng0, []).

(** alice has turned over both A cards and holds the pair. *)
Definition aliceMatched : World * list Task :=
  schedule [Call (flipOf "alice" 0 1); Run 1; Run 1; Run 1; Run 1] aliceHoldsA.
End Matching.

(** ** A call of map scheduled with nothing else in between *)

Fixpoint map_run (fuel : nat) (playerId : string) (f : string → string)
    (pc : MapPc) (w : World) : MapPc * World :=
  match fuel with
  | O => (pc, w)
  | S fuel =>
      let '(pc, w) := map_step playerId f pc w in
      map_run fuel playerId f pc w
  end.

(** The function that the route /replace/:playerId/:fromCard/:toCard of the
    server passes to [map]: [card === fromCard ? toCard : card]. *)
Definition replaceCard (fromCard toCard card : string) : string :=
  if bool_decide (card = fromCard) then toCard else card.

(** What the loops of [map] have collected when they stand at [(r, c)]: one
    replacement, computed with [f], for every card of a position that comes
    before [(r, c)] in row-major order, and nothing else. *)
Definition scanned (b : Board) (f : string → string) (r c : Z)
    (replacements : list Replacement) : Prop :=
  Forall (λ rep,
            inGrid b (rep_r rep) (rep_c rep)
            ∧ (rep_r rep < r ∨ rep_r rep = r ∧ rep_c rep < c)%Z
            ∧ ∃ label, cardAt b (rep_r rep) (rep_c rep) = Some label
                       ∧ newCard rep = f label)
         replacements
  ∧ ∀ r' c' label,
      inGrid b r' c' → (r' < r ∨ r' = r ∧ c' < c)%Z →
      cardAt b r' c' = Some label →
      ∃ rep, rep ∈ replacements ∧ rep_r rep = r' ∧ rep_c rep = c'.

(** ** The simulation's view of a snapshot (simulation.ts)

    In compact mode the simulation looks up the line of the position it has
    just flipped at [1 + r1 * cols + c1] of the snapshot's lines. *)
Definition compactIndex (cols r1 c1 : Z) : Z := (1 + r1 * cols + c1)%Z.

(** What compact mode prints for the position it has flipped, given the
    snapshot that [flip] returned: the lines of the trimmed snapshot are
    split, the number of columns is read from the header (the simulation's
    own [size] if the header does not parse), and the line at the index
    above is taken, "(unknown)" if there is none. *)
Definition posLine (snap : string) (size r1 c1 : Z) : string :=
  let lines := Parse.splitLines (Parse.trim snap) in
  let header := default "" (lines !! 0) in
  let cols := match Parse.matchHeader header with
              | Some (_, d2) => Parse.parseInt d2
              | None => size
              end in
  let idx := compactIndex cols r1 c1 in
  if bool_decide (0 ≤ idx)%Z
  then default "(unknown)" (lines !! Z.to_nat idx)
  else "(unknown)".

(** A string without a line feed in it. *)
Fixpoint oneLine (s : string) : Prop :=
  match s with
  | EmptyString => True
  | String a rest => a ≠ Parse.NL ∧ oneLine rest
  end.

(** A label as [parseFromFile] produces them: not empty, on one line, and
    with no white space at its end. *)
Definition plain (s : string) : Prop :=
  s ≠ EmptyString ∧ oneLine s ∧ Parse.trimEnd s = s.

(** The same text with Windows line ends: a carriage return in front of
    every line feed. *)
Fixpoint withCarriageReturns (s : string) : string :=
  match s with
  | EmptyString => EmptyString
  | String a rest =>
      if bool_decide (a = Parse.NL)
      then String Parse.CR (String Parse.NL (withCarriageReturns rest))
      else String a (withCarriageReturns rest)
  end.

(** Two lines that differ at most by one carriage return at the end. *)
Definition sameLine (l' l : string) : Prop :=
  l' = l ∨ l' = l +:+ String Parse.CR EmptyString.

(** ** AsyncLock

    The lock that serializes the critical sections of the board.  A callback
    [() => d.resolve()] in the queue stands for the call of [run] that awaits
    the promise of [d]: the deferred is created in [acquire] for that call
    and nobody else sees it, so the model names it by the number of the
    call.  The body [f] passed to [run] is any asynchronous function; of it
    only the number of segments it still has to run is kept. *)

Module Lock.

Record AsyncLock := mkLock { queue : list nat; locked : bool }.

(** [acquire()]: whether the promise returned is already resolved, and the
    lock afterwards. *)
Definition acquire (caller : nat) (l : AsyncLock) : bool * AsyncLock :=
  if negb (locked l) then (true, mkLock (queue l) true)
  else (false, mkLock (queue l ++ [caller]) (locked l)).

(** [release()]: the call whose callback was run, if any, and the lock
    afterwards. *)
Definition release (l : AsyncLock) : option nat * AsyncLock :=
  match queue l with
  | next :: rest => (Some next, mkLock rest (locked l))
  | [] => (None, mkLock [] false)
  end.

(** Where a call of [run] stands. *)
Inductive RunPc :=
  | Queued (body : nat)     (* awaits the promise of its deferred *)
  | Granted (body : nat)    (* the promise of [acquire] is resolved *)
  | Inside (body : nat)     (* [f] runs and has [body] segments to go *)
  | Finished.               (* [release] has run in the [finally] *)

Definition grant (pc : RunPc) : RunPc :=
  match pc with
  | Queued body => Granted body
  | _ => pc
  end.

Record State := mkState { lock : AsyncLock; calls : list RunPc }.

Definition start : State := mkState (mkLock [] false) [].

(** The event loop: [run] is called with a body of so many segments, which
    runs [acquire] at once; or a call that is not blocked runs its next
    segment, the last of which is the [release] of the [finally]. *)
Inductive Step :=
  | Enter (body : nat)
  | Resume (i : nat).

Definition step (s : State) (m : Step) : State :=
  match m with
  | Enter body =>
      let '(now, l) := acquire (length (calls s)) (lock s) in
      mkState l (calls s ++ [if now then Granted body else Queued body])
  | Resume i =>
      match calls s !! i with
      | Some (Granted body) => mkState (lock s) (<[i := Inside body]> (calls s))
      | Some (Inside (S body)) => mkState (lock s) (<[i := Inside body]> (calls s))
      | Some (Inside O) =>
          let '(next, l) := release (lock s) in
          let cs := <[i := Finished]> (calls s) in
          mkState l (match next with
                     | Some j => alter grant j cs
                     | None => cs
                     end)
      | _ => s
      end
  end.

Definition steps (ms : list Step) (s : State) : State := foldl step s ms.

(** A call that has the lock: it was granted it, or it is running [f]. *)
Definition holds (pc : RunPc) : Prop :=
  match pc with
  | Granted _ | Inside _ => True
  | _ => False
  end.

Record Fair (s : State) : Prop := mkFair {
  fair_one : ∀ i j pi pj,
    calls s !! i = Some pi → calls s !! j = Some pj → holds pi → holds pj → i = j;
  fair_locked : locked (lock s) = true ↔ ∃ i pc, calls s !! i = Some pc ∧ holds pc;
  fair_queue : ∀ j, j ∈ queue (lock s) ↔ ∃ body, calls s !! j = Some (Queued body);
  fair_order : ∀ i j a b,
    queue (lock s) !! i = Some a → queue (lock s) !! j = Some b → i < j → a < b;
  fair_empty : locked (lock s) = false → queue (lock s) = []
}.

End Lock.

(** * Properties *)

(** ** Reading and writing a grid *)

Section GridFacts.
Context {A : Type}.
Implicit Types (m : list (list A)) (r c : Z) (v : A).

Lemma shaped_put2 R C m r c v : shaped R C m → shaped R C (put2 m r c v).
Proof.
  intros [Hlen Hall]. unfold put2. case_bool_decide; [|done].
  split; [by rewrite length_alter|].
  apply Forall_lookup. intros i line Hi.
  destruct (decide (i = Z.to_nat r)) as [->|Hne].
  - rewrite list_lookup_alter_eq in Hi.
    destruct (m !! Z.to_nat r) as [old|] eqn:Hold; simplify_eq/=.
    rewrite length_insert. by eapply (Forall_lookup_1 _ _ _ _ Hall).
  - rewrite list_lookup_alter_ne in Hi by done.
    by eapply (Forall_lookup_1 _ _ _ _ Hall).
Qed.

Lemma at2_is_Some R C m r c :
  shaped R C m → is_Some (at2 m r c) ↔ (0 ≤ r ∧ r < R ∧ 0 ≤ c ∧ c < C)%Z.
Proof.
  intros [Hlen Hall]. unfold at2. case_bool_decide as Hnn.
  - destruct (m !! Z.to_nat r) as [line|] eqn:Hline; simpl.
    + pose proof (Forall_lookup_1 _ _ _ _ Hall Hline) as Hcol; simpl in Hcol.
      apply lookup_lt_Some in Hline. rewrite lookup_lt_is_Some. lia.
    + apply lookup_ge_None in Hline. split; [by intros [? ?]|lia].
  - split; [by intros [? ?]|lia].
Qed.

Lemma at2_put2 m r c v r' c' :
  at2 (put2 m r c v) r' c'
  = if decide (r = r' ∧ c = c' ∧ is_Some (at2 m r c)) then Some v else at2 m r' c'.
Proof.
  unfold at2, put2.
  destruct (bool_decide_reflect (0 ≤ r ∧ 0 ≤ c)%Z) as [Hrc|Hrc];
    destruct (bool_decide_reflect (0 ≤ r' ∧ 0 ≤ c')%Z) as [Hrc'|Hrc'];
    case_decide as Heq; try done;
    try (destruct Heq as (-> & -> & Hs); first [done|by destruct Hs]).
  - destruct Heq as (-> & -> & [x Hx]).
    rewrite list_lookup_alter_eq.
    destruct (m !! Z.to_nat r') as [line|] eqn:Hline; [|done]. simpl in *.
    apply list_lookup_insert_eq. by eapply lookup_lt_Some.
  - destruct (decide (Z.to_nat r = Z.to_nat r')) as [Hr|Hr].
    + rewrite Hr, list_lookup_alter_eq.
      destruct (m !! Z.to_nat r') as [line|] eqn:Hline; [|done]. simpl.
      destruct (decide (Z.to_nat c = Z.to_nat c')) as [Hc|Hc].
      * assert (r = r') by lia. assert (c = c') by lia. subst.
        destruct (line !! Z.to_nat c') as [x|] eqn:Hx.
        -- exfalso. apply Heq. rewrite Hline. simpl. rewrite Hx. eauto.
        -- rewrite list_insert_ge; [done|]. by apply lookup_ge_None.
      * by rewrite list_lookup_insert_ne.
    + by rewrite list_lookup_alter_ne.
Qed.
End GridFacts.

(** ** Reading after writing *)

Lemma default_at2_put2 {A} (d : A) (m : list (list A)) r c v r' c'
    (P : Prop) `{!Decision P} :
  (is_Some (at2 m r c) ↔ P) →
  default d (at2 (put2 m r c v) r' c')
  = if decide (r = r' ∧ c = c' ∧ P) then v else default d (at2 m r' c').
Proof.
  intros HP. rewrite at2_put2.
  destruct (decide (r = r' ∧ c = c' ∧ is_Some (at2 m r c))) as [Hl|Hl];
    destruct (decide (r = r' ∧ c = c' ∧ P)) as [Hr|Hr];
    first [done | exfalso; tauto].
Qed.

Create HintDb board.

Section Accessors.
Implicit Types (b : Board) (r c : Z).

Lemma inGrid_cards b r c : Shape b → is_Some (at2 (cards b) r c) ↔ inGrid b r c.
Proof. intros [H _ _ _]. by apply at2_is_Some. Qed.
Lemma inGrid_faceUp b r c : Shape b → is_Some (at2 (faceUp b) r c) ↔ inGrid b r c.
Proof. intros [_ H _ _]. by apply at2_is_Some. Qed.
Lemma inGrid_controlledBy b r c :
  Shape b → is_Some (at2 (controlledBy b) r c) ↔ inGrid b r c.
Proof. intros [_ _ H _]. by apply at2_is_Some. Qed.
Lemma inGrid_waiters b r c : Shape b → is_Some (at2 (waiters b) r c) ↔ inGrid b r c.
Proof. intros [_ _ _ H]. by apply at2_is_Some. Qed.

Lemma card_inGrid b r c : Shape b → cardAt b r c ≠ None → inGrid b r c.
Proof.
  intros Hs Hc. apply (inGrid_cards _ _ _ Hs). unfold cardAt in Hc.
  destruct (at2 (cards b) r c); [eauto|done].
Qed.

Lemma cardAt_setCard b r c v r' c' :
  Shape b →
  cardAt (setCard r c v b) r' c'
  = if decide (r = r' ∧ c = c' ∧ inGrid b r c) then v else cardAt b r' c'.
Proof.
  intros Hs. unfold cardAt, setCard. simpl.
  by apply default_at2_put2, inGrid_cards.
Qed.

Lemma faceUpAt_setFaceUp b r c v r' c' :
  Shape b →
  faceUpAt (setFaceUp r c v b) r' c'
  = if decide (r = r' ∧ c = c' ∧ inGrid b r c) then v else faceUpAt b r' c'.
Proof.
  intros Hs. unfold faceUpAt, setFaceUp. simpl.
  by apply default_at2_put2, inGrid_faceUp.
Qed.

Lemma controllerAt_setController b r c v r' c' :
  Shape b →
  controllerAt (setController r c v b) r' c'
  = if decide (r = r' ∧ c = c' ∧ inGrid b r c) then v else controllerAt b r' c'.
Proof.
  intros Hs. unfold controllerAt, setController. simpl.
  by apply default_at2_put2, inGrid_controlledBy.
Qed.

Lemma waitersAt_setWaiters b r c v r' c' :
  Shape b →
  waitersAt (setWaiters r c v b) r' c'
  = if decide (r = r' ∧ c = c' ∧ inGrid b r c) then v else waitersAt b r' c'.
Proof.
  intros Hs. unfold waitersAt, setWaiters. simpl.
  by apply default_at2_put2, inGrid_waiters.
Qed.

Lemma Shape_setCard b r c v : Shape b → Shape (setCard r c v b).
Proof. intros [? ? ? ?]. split; simpl; auto using shaped_put2. Qed.
Lemma Shape_setFaceUp b r c v : Shape b → Shape (setFaceUp r c v b).
Proof. intros [? ? ? ?]. split; simpl; auto using shaped_put2. Qed.
Lemma Shape_setController b r c v : Shape b → Shape (setController r c v b).
Proof. intros [? ? ? ?]. split; simpl; auto using shaped_put2. Qed.
Lemma Shape_setWaiters b r c v : Shape b → Shape (setWaiters r c v b).
Proof. intros [? ? ? ?]. split; simpl; auto using shaped_put2. Qed.
Lemma Shape_setControlled b p v : Shape b → Shape (setControlled p v b).
Proof. by intros [? ? ? ?]. Qed.
Lemma Shape_removePosition b r c :
  Shape b → Shape (removePositionFromAllPlayers_locked r c b).
Proof. by intros [? ? ? ?]. Qed.
Lemma Shape_with_watchers b v : Shape b → Shape (with_watchers v b).
Proof. by intros [? ? ? ?]. Qed.
End Accessors.

#[local] Hint Resolve Shape_setCard Shape_setFaceUp Shape_setController
  Shape_setWaiters Shape_setControlled Shape_removePosition
  Shape_with_watchers : board.

(** Writes to one field leave the reads of the others alone. *)

Section Frame.
Context (b : Board) (r c r' c' : Z).

Lemma cardAt_setFaceUp v : cardAt (setFaceUp r c v b) r' c' = cardAt b r' c'.
Proof. reflexivity. Qed.
Lemma cardAt_setController v : cardAt (setController r c v b) r' c' = cardAt b r' c'.
Proof. reflexivity. Qed.
Lemma cardAt_setWaiters v : cardAt (setWaiters r c v b) r' c' = cardAt b r' c'.
Proof. reflexivity. Qed.
Lemma cardAt_setControlled p l : cardAt (setControlled p l b) r' c' = cardAt b r' c'.
Proof. reflexivity. Qed.
Lemma cardAt_removePosition  : cardAt (removePositionFromAllPlayers_locked r c b) r' c' = cardAt b r' c'.
Proof. reflexivity. Qed.
Lemma cardAt_with_watchers ws : cardAt (with_watchers ws b) r' c' = cardAt b r' c'.
Proof. reflexivity. Qed.
Lemma faceUpAt_setCard v : faceUpAt (setCard r c v b) r' c' = faceUpAt b r' c'.
Proof. reflexivity. Qed.
Lemma faceUpAt_setController v : faceUpAt (setController r c v b) r' c' = faceUpAt b r' c'.
Proof. reflexivity. Qed.
Lemma faceUpAt_setWaiters v : faceUpAt (setWaiters r c v b) r' c' = faceUpAt b r' c'.
Proof. reflexivity. Qed.
Lemma faceUpAt_setControlled p l : faceUpAt (setControlled p l b) r' c' = faceUpAt b r' c'.
Proof. reflexivity. Qed.
Lemma faceUpAt_removePosition  : faceUpAt (removePositionFromAllPlayers_locked r c b) r' c' = faceUpAt b r' c'.
Proof. reflexivity. Qed.
Lemma faceUpAt_with_watchers ws : faceUpAt (with_watchers ws b) r' c' = faceUpAt b r' c'.
Proof. reflexivity. Qed.
Lemma controllerAt_setCard v : controllerAt (setCard r c v b) r' c' = controllerAt b r' c'.
Proof. reflexivity. Qed.
Lemma controllerAt_setFaceUp v : controllerAt (setFaceUp r c v b) r' c' = controllerAt b r' c'.
Proof. reflexivity. Qed.
Lemma controllerAt_setWaiters v : controllerAt (setWaiters r c v b) r' c' = controllerAt b r' c'.
Proof. reflexivity. Qed.
Lemma controllerAt_setControlled p l : controllerAt (setControlled p l b) r' c' = controllerAt b r' c'.
Proof. reflexivity. Qed.
Lemma controllerAt_removePosition  : controllerAt (removePositionFromAllPlayers_locked r c b) r' c' = controllerAt b r' c'.
Proof. reflexivity. Qed.
Lemma controllerAt_with_watchers ws : controllerAt (with_watchers ws b) r' c' = controllerAt b r' c'.
Proof. reflexivity. Qed.
Lemma waitersAt_setCard v : waitersAt (setCard r c v b) r' c' = waitersAt b r' c'.
Proof. reflexivity. Qed.
Lemma waitersAt_setFaceUp v : waitersAt (setFaceUp r c v b) r' c' = waitersAt b r' c'.
Proof. reflexivity. Qed.
Lemma waitersAt_setController v : waitersAt (setController r c v b) r' c' = waitersAt b r' c'.
Proof. reflexivity. Qed.
Lemma waitersAt_setControlled p l : waitersAt (setControlled p l b) r' c' = waitersAt b r' c'.
Proof. reflexivity. Qed.
Lemma waitersAt_removePosition  : waitersAt (removePositionFromAllPlayers_locked r c b) r' c' = waitersAt b r' c'.
Proof. reflexivity. Qed.
Lemma waitersAt_with_watchers ws : waitersAt (with_watchers ws b) r' c' = waitersAt b r' c'.
Proof. reflexivity. Qed.
End Frame.

Create Rewrite HintDb board.
#[local] Hint Rewrite cardAt_setFaceUp
  cardAt_setController
  cardAt_setWaiters
  cardAt_setControlled
  cardAt_removePosition
  cardAt_with_watchers
  faceUpAt_setCard
  faceUpAt_setController
  faceUpAt_setWaiters
  faceUpAt_setControlled
  faceUpAt_removePosition
  faceUpAt_with_watchers
  controllerAt_setCard
  controllerAt_setFaceUp
  controllerAt_setWaiters
  controllerAt_setControlled
  controllerAt_removePosition
  controllerAt_with_watchers
  waitersAt_setCard
  waitersAt_setFaceUp
  waitersAt_setController
  waitersAt_setControlled
  waitersAt_removePosition
  waitersAt_with_watchers : board.

(** ** The invariant under each write *)

(** Split on every [decide] of the goal. *)
Ltac cases :=
  repeat match goal with
         | |- context [decide ?P] => destruct (decide P)
         end.

Section InvWrites.
Implicit Types (b : Board) (r c : Z).

(** Positions are judged one by one; the players' records only need the
    dimensions. *)
Lemma Inv_cells b b' :
  Inv b → Shape b' →
  rows b' = rows b → columns b' = columns b → players b' = players b →
  (∀ r c,
      (cardAt b' r c = None → faceUpAt b' r c = false ∧ controllerAt b' r c = None)
      ∧ (controllerAt b' r c ≠ None → faceUpAt b' r c = true)) →
  Inv b'.
Proof.
  intros [Hs Hb Hh Hr] Hs' Hrows Hcols Hpl Hcell. split; [done| | |].
  - intros r c. apply Hcell.
  - intros r c. apply Hcell.
  - unfold recordsInGrid, inGrid in *. by rewrite Hpl, Hrows, Hcols.
Qed.

Lemma Inv_setController_None b r c : Inv b → Inv (setController r c None b).
Proof.
  intros HI. pose proof (inv_shape _ HI) as Hs.
  apply (Inv_cells b); auto with board.
  intros r' c'. autorewrite with board. rewrite controllerAt_setController by done.
  destruct HI as [_ Hb Hh _]. specialize (Hb r' c'). specialize (Hh r' c').
  cases; intuition congruence.
Qed.

Lemma Inv_setFaceUp_false b r c :
  Inv b → controllerAt b r c = None → Inv (setFaceUp r c false b).
Proof.
  intros HI Hfree. pose proof (inv_shape _ HI) as Hs.
  apply (Inv_cells b); auto with board.
  intros r' c'. autorewrite with board. rewrite faceUpAt_setFaceUp by done.
  destruct HI as [_ Hb Hh _]. specialize (Hb r' c'). specialize (Hh r' c').
  cases; intuition congruence.
Qed.

Lemma Inv_setFaceUp_true b r c :
  Inv b → cardAt b r c ≠ None → Inv (setFaceUp r c true b).
Proof.
  intros HI Hcard. pose proof (inv_shape _ HI) as Hs.
  apply (Inv_cells b); auto with board.
  intros r' c'. autorewrite with board. rewrite faceUpAt_setFaceUp by done.
  destruct HI as [_ Hb Hh _]. specialize (Hb r' c'). specialize (Hh r' c').
  cases; intuition congruence.
Qed.

Lemma Inv_setController_Some b r c p :
  Inv b → cardAt b r c ≠ None → faceUpAt b r c = true →
  Inv (setController r c (Some p) b).
Proof.
  intros HI Hcard Hup. pose proof (inv_shape _ HI) as Hs.
  apply (Inv_cells b); auto with board.
  intros r' c'. autorewrite with board. rewrite controllerAt_setController by done.
  destruct HI as [_ Hb Hh _]. specialize (Hb r' c'). specialize (Hh r' c').
  cases; intuition congruence.
Qed.

Lemma Inv_setCard_Some b r c x : Inv b → Inv (setCard r c (Some x) b).
Proof.
  intros HI. pose proof (inv_shape _ HI) as Hs.
  apply (Inv_cells b); auto with board.
  intros r' c'. autorewrite with board. rewrite cardAt_setCard by done.
  destruct HI as [_ Hb Hh _]. specialize (Hb r' c'). specialize (Hh r' c').
  cases; intuition congruence.
Qed.

(** Taking a card off the board: label, face and controller together. *)
Lemma Inv_remove b r c :
  Inv b →
  Inv (setController r c None (setFaceUp r c false (setCard r c None b))).
Proof.
  intros HI. pose proof (inv_shape _ HI) as Hs.
  apply (Inv_cells b); auto 6 with board.
  intros r' c'. rewrite controllerAt_setController by auto with board.
  autorewrite with board. rewrite faceUpAt_setFaceUp by auto with board.
  autorewrite with board. rewrite cardAt_setCard by done.
  destruct HI as [_ Hb Hh _]. specialize (Hb r' c'). specialize (Hh r' c').
  pose proof (card_inGrid b r' c' Hs).
  unfold inGrid in *. simpl.
  cases; intuition congruence.
Qed.

Lemma Inv_setWaiters b r c q : Inv b → Inv (setWaiters r c q b).
Proof.
  intros HI. apply (Inv_cells b); auto with board.
  - apply Shape_setWaiters, HI.
  - intros r' c'. autorewrite with board. split; [apply HI|apply HI].
Qed.

Lemma Inv_with_watchers b ws : Inv b → Inv (with_watchers ws b).
Proof.
  intros HI. apply (Inv_cells b); auto with board.
  - apply Shape_with_watchers, HI.
  - intros r' c'. autorewrite with board. split; [apply HI|apply HI].
Qed.

Lemma Inv_setControlled b p l :
  Inv b → Forall (λ q : Z * Z, inGrid b q.1 q.2) l → Inv (setControlled p l b).
Proof.
  intros [Hs Hb Hh Hr] Hl. split; [auto with board|done|done|].
  unfold recordsInGrid. simpl. by apply map_Forall_insert_2.
Qed.

Lemma Inv_removePosition b r c :
  Inv b → Inv (removePositionFromAllPlayers_locked r c b).
Proof.
  intros [Hs Hb Hh Hr]. split; [auto with board|done|done|].
  unfold recordsInGrid in *. simpl. apply map_Forall_fmap.
  intros p l Hp. simpl. apply Forall_forall. intros q Hq.
  apply list_elem_of_filter in Hq as [_ Hq].
  exact (proj1 (Forall_forall _ _) (Hr p l Hp) q Hq).
Qed.
End InvWrites.

(** ** The invariant under each private method *)

Section InvMethods.
Implicit Types (w : World) (b : Board) (r c : Z).

Lemma Inv_notify w : Inv (board w) → Inv (board (notifyWatchers_locked w)).
Proof. intros HI. simpl. by apply Inv_with_watchers. Qed.

(** Reserving a present card for a player: face up, then controlled. *)
Lemma Inv_reserve b r c p :
  Inv b → cardAt b r c ≠ None →
  Inv (setController r c (Some p) (setFaceUp r c true b)).
Proof.
  intros HI Hcard. pose proof (inv_shape _ HI) as Hs.
  apply Inv_setController_Some; [by apply Inv_setFaceUp_true|done|].
  rewrite faceUpAt_setFaceUp by done.
  pose proof (card_inGrid b r c Hs Hcard). by rewrite decide_True.
Qed.

Lemma Inv_wake r c w :
  Inv (board w) → Inv (board (wakeNextWaiter_locked r c w)).
Proof.
  intros HI. unfold wakeNextWaiter_locked.
  case_bool_decide; [|done]. unfold randomIndex. simpl.
  destruct (waitersAt (board w) r c !! _) as [item|]; [|done]. simpl.
  rewrite cardAt_setWaiters.
  destruct (cardAt (board w) r c) eqn:Hcard; simpl.
  - apply Inv_with_watchers, Inv_reserve; [by apply Inv_setWaiters|].
    autorewrite with board. by rewrite Hcard.
  - by apply Inv_setWaiters.
Qed.

Lemma Inv_relinquishOwned p b q : Inv b → Inv (relinquishOwned p b q).
Proof.
  intros HI. destruct q as [r c]. unfold relinquishOwned.
  destruct (_ && _); [by apply Inv_setController_None|done].
Qed.

Lemma Inv_turnDown acc q : Inv acc.2 → Inv (turnDown acc q).2.
Proof.
  destruct acc as [changed b], q as [r c]. simpl. intros HI.
  destruct (bool_decide (cardAt b r c ≠ None)); simpl; [|done].
  destruct (faceUpAt b r c); simpl; [|done].
  case_bool_decide; simpl; [|done].
  by apply Inv_removePosition, Inv_setFaceUp_false.
Qed.

Lemma Inv_foldl_relinquishOwned p l b :
  Inv b → Inv (foldl (relinquishOwned p) b l).
Proof.
  revert b. induction l as [|q l IH]; intros b HI; simpl; [done|].
  by apply IH, Inv_relinquishOwned.
Qed.

Lemma Inv_foldl_turnDown l acc : Inv acc.2 → Inv (foldl turnDown acc l).2.
Proof.
  revert acc. induction l as [|q l IH]; intros acc HI; simpl; [done|].
  by apply IH, Inv_turnDown.
Qed.

Lemma Inv_finishPrevious p w :
  Inv (board w) → Inv (board (finishPreviousForPlayer_locked p w)).
Proof.
  intros HI. unfold finishPreviousForPlayer_locked.
  destruct (players (board w) !! p) as [l|] eqn:Hl; [|done].
  destruct l as [|[r1 c1] [|[r2 c2] [|? ?]]]; try done.
  - (* one position recorded *)
    destruct (_ && _) eqn:Hguard; [|done].
    apply andb_prop in Hguard as [_ Hfree]. apply bool_decide_eq_true in Hfree.
    apply Inv_wake. simpl. rewrite faceUpAt_setControlled.
    destruct (faceUpAt (board w) r1 c1); simpl.
    + apply Inv_with_watchers, Inv_removePosition, Inv_setFaceUp_false; [|done].
      by apply Inv_setControlled.
    + by apply Inv_setControlled.
  - (* two positions recorded *)
    destruct (_ && _ && _).
    + do 2 apply Inv_wake. apply Inv_notify. simpl.
      do 2 apply Inv_removePosition.
      apply Inv_setControlled; [|done].
      exact (Inv_remove _ r2 c2 (Inv_remove _ r1 c1 HI)).
    + destruct (foldl turnDown _ _) as [changed b'] eqn:Hfold.
      do 2 apply Inv_wake.
      assert (Inv b') as HI'.
      { change b' with (changed, b').2. rewrite <- Hfold.
        apply Inv_foldl_turnDown. cbn [snd board on_board].
        apply Inv_setControlled; [|done]. by apply Inv_foldl_relinquishOwned. }
      destruct changed; [by apply Inv_notify|done].
Qed.

Lemma recorded_inGrid b p l q :
  Inv b → players b !! p = Some l → q ∈ l → inGrid b q.1 q.2.
Proof.
  intros HI Hl Hq.
  exact (proj1 (Forall_forall _ _) (inv_records _ HI p l Hl) q Hq).
Qed.

Lemma Inv_flip_locked p r c w :
  Inv (board w) → Inv (board (flip_locked p r c w).2).
Proof.
  intros HI. pose proof (inv_shape _ HI) as Hs. unfold flip_locked.
  destruct (negb _); [done|].
  destruct (players (board w) !! p) as [l|] eqn:Hl; [|done].
  destruct l as [|[r0 c0] [|? ?]]; [| |done].
  - (* first card *)
    destruct (cardAt (board w) r c) as [card|] eqn:Hcard; [|done].
    assert (cardAt (board w) r c ≠ None) as Hpresent by by rewrite Hcard.
    destruct (_ && _); simpl.
    + by apply Inv_setWaiters.
    + apply Inv_with_watchers, Inv_setControlled; [by apply Inv_reserve|].
      apply Forall_singleton. by apply (card_inGrid (board w)).
  - (* second card *)
    assert (inGrid (board w) r0 c0) as Hin0.
    { apply (recorded_inGrid _ p [(r0, c0)] (r0, c0)); [done..|]. set_solver. }
    destruct (cardAt (board w) r c) as [card|] eqn:Hcard; simpl.
    + assert (cardAt (board w) r c ≠ None) as Hpresent by by rewrite Hcard.
      pose proof (card_inGrid _ _ _ Hs Hpresent) as Hin.
      destruct (_ && _); simpl.
      * apply Inv_setControlled; [by apply Inv_setController_None|].
        by apply Forall_singleton.
      * set (w1 := if negb (faceUpAt (board w) r c)
                   then on_board (setFaceUp r c true) w else w).
        assert (Inv (board w1) ∧ faceUpAt (board w1) r c = true
                ∧ cardAt (board w1) r c ≠ None
                ∧ (∀ r' c', inGrid (board w1) r' c' ↔ inGrid (board w) r' c'))
          as (HI1 & Hup1 & Hcard1 & Hgrid1).
        { subst w1. destruct (faceUpAt (board w) r c) eqn:Hup; simpl.
          - done.
          - split; [by apply Inv_setFaceUp_true|].
            rewrite faceUpAt_setFaceUp by done. by rewrite decide_True. }
        assert (Inv (board (on_board (setController r c (Some p)) w1))) as HI2
          by by apply Inv_setController_Some.
        destruct (_ && _ && _); simpl.
        -- apply Inv_with_watchers, Inv_setControlled; [done|].
           apply Forall_cons_2; [|apply Forall_singleton]; by apply Hgrid1.
        -- apply Inv_wake, Inv_notify. simpl.
           apply Inv_setControlled; [by do 2 apply Inv_setController_None|].
           apply Forall_cons_2; [|apply Forall_singleton]; by apply Hgrid1.
    + apply Inv_setControlled; [by apply Inv_setController_None|].
      by apply Forall_singleton.
Qed.

Lemma Inv_flip_entry p r c w :
  Inv (board w) → Inv (board (flip_entry p r c w).2).
Proof.
  intros HI. unfold flip_entry.
  destruct (players (board w) !! p); simpl.
  - by case_bool_decide.
  - case_bool_decide; simpl; by apply Inv_setControlled.
Qed.

Lemma Inv_map_locked reps w :
  Inv (board w) → Inv (board (map_locked reps w)).
Proof.
  intros HI. apply Inv_notify. simpl. revert HI.
  generalize (board w). induction reps as [|rep reps IH]; intros b HI; simpl.
  - done.
  - by apply IH, Inv_setCard_Some.
Qed.

Lemma Inv_flip_step p r c pc w :
  Inv (board w) → Inv (board (flip_step p r c pc w).2).
Proof.
  intros HI. destruct pc; simpl; try done.
  - pose proof (Inv_flip_entry p r c w HI).
    by destruct (flip_entry p r c w) as [[?|] ?].
  - by apply Inv_finishPrevious.
  - pose proof (Inv_flip_locked p r c w HI).
    by destruct (flip_locked p r c w) as [[] ?].
  - by destruct (resolved d w).
Qed.

Lemma Inv_map_step p f pc w :
  Inv (board w) → Inv (board (map_step p f pc w).2).
Proof.
  intros HI. destruct pc; simpl; try done.
  - repeat case_bool_decide; try done. by destruct (cardAt _ _ _).
  - by apply Inv_map_locked.
Qed.

Lemma Inv_watch_step p pc w :
  Inv (board w) → Inv (board (watch_step p pc w).2).
Proof.
  intros HI. destruct pc; simpl; try done.
  - by apply Inv_with_watchers.
  - by destruct (resolved d w).
Qed.

Lemma Inv_task_step t w : Inv (board w) → Inv (board (task_step t w).2).
Proof.
  intros HI. destruct t as [p [s|]|p r c pc|p f pc|p pc]; simpl; try done.
  - pose proof (Inv_flip_step p r c pc w HI). by destruct (flip_step p r c pc w).
  - pose proof (Inv_map_step p f pc w HI). by destruct (map_step p f pc w).
  - pose proof (Inv_watch_step p pc w HI). by destruct (watch_step p pc w).
Qed.
End InvMethods.

(** ** A new board satisfies the invariant *)

Section NewBoard.
Lemma shaped_emptyGrid {A} (R C : Z) (v : A) :
  (0 ≤ R)%Z → (0 ≤ C)%Z → shaped R C (emptyGrid R C v).
Proof.
  intros HR HC. unfold emptyGrid. split.
  - rewrite length_replicate. lia.
  - apply Forall_replicate. rewrite length_replicate. lia.
Qed.

Lemma shaped_fillCards (R C : Z) l :
  (0 ≤ R)%Z → (0 ≤ C)%Z → shaped R C (fillCards R C l).
Proof.
  intros HR HC. unfold fillCards. split.
  - rewrite length_fmap, length_seqZ. lia.
  - apply Forall_fmap, Forall_forall. intros r _. simpl.
    rewrite length_fmap, length_seqZ. lia.
Qed.

Lemma at2_emptyGrid {A} (R C : Z) (v x : A) r c :
  at2 (emptyGrid R C v) r c = Some x → x = v.
Proof.
  unfold at2, emptyGrid. case_bool_decide; [|done].
  destruct (replicate _ _ !! Z.to_nat r) as [line|] eqn:Hline; [|done]. simpl.
  apply lookup_replicate in Hline as [-> _].
  intros Hx. by apply lookup_replicate in Hx as [-> _].
Qed.

Lemma checkRep_dims b :
  checkRep b = true → (0 ≤ rows b)%Z ∧ (0 ≤ columns b)%Z.
Proof.
  unfold checkRep. rewrite !andb_true_iff, !bool_decide_eq_true. tauto.
Qed.

Lemma Inv_blank (R C : Z) cs :
  (0 ≤ R)%Z → (0 ≤ C)%Z → shaped R C cs →
  Inv (mkBoard R C cs (emptyGrid R C false) (emptyGrid R C None) ∅
               (emptyGrid R C []) []).
Proof.
  intros HR HC Hcs.
  assert (∀ r c, faceUpAt (mkBoard R C cs (emptyGrid R C false)
                   (emptyGrid R C None) ∅ (emptyGrid R C []) []) r c = false)
    as Hdown.
  { intros r c. unfold faceUpAt. simpl.
    destruct (at2 _ r c) as [x|] eqn:Hx; [|done].
    by apply at2_emptyGrid in Hx. }
  assert (∀ r c, controllerAt (mkBoard R C cs (emptyGrid R C false)
                   (emptyGrid R C None) ∅ (emptyGrid R C []) []) r c = None)
    as Hfree.
  { intros r c. unfold controllerAt. simpl.
    destruct (at2 _ r c) as [x|] eqn:Hx; [|done].
    by apply at2_emptyGrid in Hx. }
  split.
  - split; simpl; auto using shaped_emptyGrid.
  - intros r c _. by rewrite Hdown, Hfree.
  - intros r c Hheld. by rewrite Hfree in Hheld.
  - apply map_Forall_empty.
Qed.

Lemma Inv_newBoard R C init b : newBoard R C init = inr b → Inv b.
Proof.
  unfold newBoard. destruct init as [l|].
  - case_bool_decide; [done|].
    destruct (checkRep _) eqn:Hrep; [|done]. intros [= <-].
    apply checkRep_dims in Hrep as [HR HC]. simpl in HR, HC.
    apply (Inv_blank R C); auto using shaped_fillCards.
  - destruct (checkRep _) eqn:Hrep; [|done]. intros [= <-].
    apply checkRep_dims in Hrep as [HR HC]. simpl in HR, HC.
    apply (Inv_blank R C); auto using shaped_emptyGrid.
Qed.
End NewBoard.

(** ** The invariant along every schedule *)

Lemma Inv_sys_step s s' : sys_step s s' → Inv (board s.1) → Inv (board s'.1).
Proof.
  intros Hstep HI. destruct Hstep as [w ts t _|w ts i t _]; simpl in *; [done|].
  by apply Inv_task_step.
Qed.

Lemma Inv_reachable s s' : rtc sys_step s s' → Inv (board s.1) → Inv (board s'.1).
Proof.
  induction 1 as [|s1 s2 s3 Hstep _ IH]; [done|].
  intros HI. by apply IH, (Inv_sys_step s1).
Qed.

(** ** checkRep as a proposition *)

Section CheckRep.
Implicit Types (b : Board) (r c : Z).

Lemma forallb_seqZ (f : Z → bool) (n : Z) :
  forallb f (seqZ 0 n) = true ↔ ∀ k, (0 ≤ k < n)%Z → f k = true.
Proof.
  rewrite <- Is_true_true, forallb_True, Forall_forall.
  split; intros H k Hk.
  - apply Is_true_true, H, elem_of_seqZ. lia.
  - apply Is_true_true, H. apply elem_of_seqZ in Hk. lia.
Qed.

Lemma shaped_lineLength {A} (R C : Z) (m : list (list A)) :
  shaped R C m ↔
  Z.of_nat (length m) = R ∧ ∀ r, (0 ≤ r < R)%Z → lineLength m r = Some C.
Proof.
  unfold shaped, lineLength. split; intros [Hlen Hall]; (split; [done|]).
  - intros r Hr. destruct (lookup_lt_is_Some_2 m (Z.to_nat r)) as [line Hline]; [lia|].
    rewrite Hline. simpl. f_equal.
    exact (Forall_lookup_1 _ _ _ _ Hall Hline).
  - apply Forall_lookup. intros i line Hline.
    pose proof (lookup_lt_Some _ _ _ Hline) as Hi.
    specialize (Hall (Z.of_nat i)). rewrite Nat2Z.id, Hline in Hall.
    simpl in Hall. assert (0 ≤ Z.of_nat i < R)%Z as Hr by lia.
    specialize (Hall Hr). by injection Hall.
Qed.

Lemma checkRep_RepOk b : checkRep b = true ↔ RepOk b.
Proof.
  unfold checkRep. rewrite !andb_true_iff, !bool_decide_eq_true.
  rewrite forallb_seqZ.
  rewrite <- Is_true_true, forallb_True, Forall_forall.
  split.
  - intros [[[[[[[HR HC] Hc] Hf] Ho] Hw] Hlines] Hplayers].
    assert (Shape b) as Hs.
    { split; apply shaped_lineLength; (split; [done|]); intros r Hr;
        specialize (Hlines r Hr); unfold checkLine in Hlines;
        rewrite !andb_true_iff, !bool_decide_eq_true in Hlines; tauto. }
    split; try done.
    + intros r c (Hr0 & Hr1 & Hc0 & Hc1).
      assert (0 ≤ r < rows b)%Z as Hr by lia.
      specialize (Hlines r Hr). unfold checkLine in Hlines.
      rewrite !andb_true_iff in Hlines. destruct Hlines as [_ Hcells].
      apply forallb_seqZ with (k := c) in Hcells; [done|lia].
    + intros p l Hl. apply Is_true_true, (Hplayers (p, l)).
      by apply elem_of_map_to_list.
  - intros [HR HC [Hc Hf Ho Hw] Hcells Hplayers].
    apply shaped_lineLength in Hc as [Hc Hcl], Hf as [Hf Hfl],
      Ho as [Ho Hol], Hw as [Hw Hwl].
    repeat split; try done.
    + intros r Hr. unfold checkLine.
      rewrite !andb_true_iff, !bool_decide_eq_true, forallb_seqZ.
      repeat split; auto. intros c Hc'. apply Hcells. unfold inGrid. lia.
    + intros [p l] Hl. apply Is_true_true, Hplayers.
      by apply elem_of_map_to_list.
Qed.

Lemma checkRep_Shape b : checkRep b = true → Shape b.
Proof. intros H. by apply checkRep_RepOk in H as [_ _ ? _ _]. Qed.
End CheckRep.

(** ** Schedules are runs of the event loop *)

Lemma move_reachable s m : rtc sys_step s (move s m).
Proof.
  destruct s as [w ts], m as [t|i]; simpl.
  - destruct (starting t) eqn:Ht; [|done]. apply rtc_once. by constructor.
  - destruct (ts !! i) as [t|] eqn:Hi; [|done]. apply rtc_once. by constructor.
Qed.

Lemma schedule_reachable ms s : rtc sys_step s (schedule ms s).
Proof.
  revert s. induction ms as [|m ms IH]; intros s; simpl; [done|].
  etrans; [apply move_reachable|apply IH].
Qed.

(** ** Empty positions are bare after every public operation *)

(** C7.  Along every run of the event loop that starts from a freshly
    constructed board, whenever a segment completes a public operation
    ([look], [flip] whether it fulfils or rejects, [map], [watch]), every
    position of the board whose label is absent is face down and has no
    controller. *)
Theorem completed_operation_leaves_empty_positions_bare
    (R C : Z) (init : option (list string)) (b0 : Board) (rng : nat → nat)
    (s : World * list Task) (i : nat) (t : Task) (result : Settled) (r c : Z) :
  newBoard R C init = inr b0 →
  rtc sys_step (initial b0 rng, []) s →
  s.2 !! i = Some t →
  completed (task_step t s.1).1 = Some result →
  at2 (cards (board (task_step t s.1).2)) r c = Some None →
  at2 (faceUp (board (task_step t s.1).2)) r c = Some false
  ∧ at2 (controlledBy (board (task_step t s.1).2)) r c = Some None.
Proof.
  intros Hnew Hrun _ _ Hcard.
  assert (Inv (board (task_step t s.1).2)) as HI.
  { apply Inv_task_step, (Inv_reachable _ _ Hrun). simpl.
    by apply (Inv_newBoard R C init). }
  set (b := board (task_step t s.1).2) in *.
  pose proof (inv_shape _ HI) as Hs.
  assert (inGrid b r c) as Hin by (apply inGrid_cards; [done|by rewrite Hcard]).
  destruct (inv_bare _ HI r c) as [Hdown Hfree].
  { unfold cardAt. by rewrite Hcard. }
  apply (inGrid_faceUp _ _ _ Hs) in Hin as Hf.
  apply (inGrid_controlledBy _ _ _ Hs) in Hin as Ho.
  destruct Hf as [x Hx], Ho as [y Hy].
  unfold faceUpAt in Hdown. unfold controllerAt in Hfree.
  rewrite Hx in Hdown. rewrite Hy in Hfree. simpl in *. by subst.
Qed.

Lemma completed_operation_leaves_empty_positions_bare_witness :
  let t := TFlip "alice" 0 2 FlipLook in
  let w := (task_step t Examples.aliceMatches.1).2 in
  Examples.aliceMatches.2 !! 2 = Some t
  ∧ at2 (cards (board w)) 0 0 = Some None
  ∧ at2 (faceUp (board w)) 0 0 = Some false
  ∧ at2 (controlledBy (board w)) 0 0 = Some None.
Proof.
  intros t w. split; [vm_compute; reflexivity|]. split; [vm_compute; reflexivity|].
  apply (completed_operation_leaves_empty_positions_bare
           1 3 (Some ["A"; "A"; "B"]) Examples.rowAAB Examples.rng0
           Examples.aliceMatches 2 t
           (Fulfilled (snapshot (board Examples.aliceMatches.1) "alice"))).
  - vm_compute; reflexivity.
  - apply schedule_reachable.
  - vm_compute; reflexivity.
  - vm_compute; reflexivity.
  - vm_compute; reflexivity.
Defined.

(** ** Waking a waiter *)

Lemma waiters_inGrid b r c : Shape b → waitersAt b r c ≠ [] → inGrid b r c.
Proof.
  intros Hs Hq. apply (inGrid_waiters _ _ _ Hs). unfold waitersAt in Hq.
  destruct (at2 (waiters b) r c); [eauto|done].
Qed.

Lemma wake_empty r c w :
  waitersAt (board w) r c = [] → wakeNextWaiter_locked r c w = w.
Proof. intros Hq. unfold wakeNextWaiter_locked. by rewrite Hq. Qed.

Lemma picked_lookup (q : list Waiter) w : q ≠ [] → is_Some (q !! picked q w).
Proof.
  intros Hq. apply lookup_lt_is_Some. unfold picked. simpl.
  apply Nat.mod_upper_bound. by destruct q.
Qed.

Lemma wake_nonempty r c w item :
  let q := waitersAt (board w) r c in
  q !! picked q w = Some item →
  wakeNextWaiter_locked r c w
  = let w1 := on_board (setWaiters r c (delete (picked q w) q)) (drawn w) in
    match cardAt (board w) r c with
    | None => emit (Fulfil (deferred item)) w1
    | Some _ =>
        emit (Fulfil (deferred item))
          (notifyWatchers_locked
             (on_board (setController r c (Some (pid item)))
                (on_board (setFaceUp r c true) w1)))
    end.
Proof.
  intros q Hitem. unfold wakeNextWaiter_locked. fold q.
  assert (0 < length q) as Hlen.
  { apply lookup_lt_Some in Hitem. lia. }
  rewrite bool_decide_eq_true_2 by done.
  unfold picked in Hitem. unfold randomIndex in *. simpl in *.
  rewrite Hitem. reflexivity.
Qed.

(** C3.  A wake at a position of a board with the right shape takes at most
    one waiter out of that position's queue and fulfils it; the others stay
    queued, in their order, and no other queue changes.  If the label is
    absent the waiter is fulfilled and the position is left as it was.
    Otherwise the position is first turned face up and given to the woken
    waiter's player, then the change event is emitted, and only then is the
    waiter fulfilled: both events are recorded at boards in which the
    position is already reserved, and nothing else of the grid changes. *)
Theorem wake_fulfils_one_waiter_after_reserving (r c : Z) (w : World) :
  Shape (board w) →
  let q := waitersAt (board w) r c in
  let w' := wakeNextWaiter_locked r c w in
  (q = [] → w' = w)
  ∧ (q ≠ [] →
     ∃ idx item,
       q !! idx = Some item
       ∧ waitersAt (board w') r c = delete idx q
       ∧ (∀ r' c', ¬ (r' = r ∧ c' = c) →
            waitersAt (board w') r' c' = waitersAt (board w) r' c'
            ∧ faceUpAt (board w') r' c' = faceUpAt (board w) r' c'
            ∧ controllerAt (board w') r' c' = controllerAt (board w) r' c')
       ∧ cards (board w') = cards (board w)
       ∧ players (board w') = players (board w)
       ∧ match cardAt (board w) r c with
         | None =>
             faceUp (board w') = faceUp (board w)
             ∧ controlledBy (board w') = controlledBy (board w)
             ∧ trace w' = trace w ++ [(Fulfil (deferred item), board w')]
         | Some _ =>
             ∃ b1,
               trace w' = trace w ++ [(Change (watchers (board w)), b1);
                                      (Fulfil (deferred item), board w')]
               ∧ faceUpAt b1 r c = true
               ∧ controllerAt b1 r c = Some (pid item)
               ∧ waitersAt b1 r c = delete idx q
               ∧ faceUpAt (board w') r c = true
               ∧ controllerAt (board w') r c = Some (pid item)
         end).
Proof.
  intros Hs q w'. split.
  { intros Hq. by apply wake_empty. }
  intros Hq. destruct (picked_lookup q w Hq) as [item Hitem].
  pose proof (waiters_inGrid _ _ _ Hs Hq) as Hin.
  exists (picked q w), item. split; [done|].
  subst w'. rewrite (wake_nonempty r c w item Hitem). fold q.
  set (b1 := setWaiters r c (delete (picked q w) q) (board w)).
  assert (Shape b1) as Hs1 by (subst b1; auto with board).
  assert (waitersAt b1 r c = delete (picked q w) q) as Hq1.
  { subst b1. rewrite waitersAt_setWaiters by done. by rewrite decide_True. }
  assert (∀ r' c', ¬ (r' = r ∧ c' = c) →
            waitersAt b1 r' c' = waitersAt (board w) r' c') as Hq1'.
  { intros r' c' Hne. subst b1. rewrite waitersAt_setWaiters by done.
    rewrite decide_False; [done|]. intros (-> & -> & _). by apply Hne. }
  destruct (cardAt (board w) r c) as [label|] eqn:Hcard; simpl.
  - set (b2 := setController r c (Some (pid item)) (setFaceUp r c true b1)).
    assert (faceUpAt b2 r c = true) as Hup2.
    { subst b2. autorewrite with board. rewrite faceUpAt_setFaceUp by done.
      by rewrite decide_True. }
    assert (controllerAt b2 r c = Some (pid item)) as Hctl2.
    { subst b2. rewrite controllerAt_setController by auto with board.
      by rewrite decide_True. }
    split; [done|]. split.
    { intros r' c' Hne. fold b1. split; [by apply Hq1'|].
      change (faceUpAt b2 r' c' = faceUpAt (board w) r' c'
              ∧ controllerAt b2 r' c' = controllerAt (board w) r' c').
      subst b2. rewrite controllerAt_setController by auto with board.
      autorewrite with board. rewrite faceUpAt_setFaceUp by done.
      rewrite !decide_False; [done|intros (-> & -> & _); by apply Hne..]. }
    split; [done|]. split; [done|].
    exists b2. split; [|done]. simpl. by rewrite <- app_assoc.
  - split; [done|]. split; [|done].
    intros r' c' Hne. split; [by apply Hq1'|done].
Qed.

Lemma wake_fulfils_one_waiter_after_reserving_witness :
  let w := Waiting.twoWaiters.1 in
  Shape (board w)
  ∧ ∃ idx item,
      waitersAt (board w) 0 0 !! idx = Some item
      ∧ waitersAt (board (wakeNextWaiter_locked 0 0 w)) 0 0
        = delete idx (waitersAt (board w) 0 0).
Proof.
  intros w.
  assert (Shape (board w)) as Hs by (apply checkRep_Shape; vm_compute; reflexivity).
  split; [exact Hs|].
  destruct (wake_fulfils_one_waiter_after_reserving 0 0 w Hs) as [_ Hwake].
  destruct Hwake as (idx & item & Hitem & Hrest & _).
  - vm_compute. discriminate.
  - exists idx, item. split; [exact Hitem|exact Hrest].
Defined.

(** ** What checkRep gives about a player's record *)

Lemma checkRep_record b p l :
  checkRep b = true → players b !! p = Some l →
  p ≠ ""
  ∧ length l ≤ 2
  ∧ ∀ r c, (r, c) ∈ l →
      inGrid b r c
      ∧ (controllerAt b r c = Some p
         ∨ cardAt b r c ≠ None ∧ faceUpAt b r c = true).
Proof.
  intros Hrep Hl. apply checkRep_RepOk in Hrep as [_ _ _ _ Hplayers].
  specialize (Hplayers p l Hl). unfold checkPlayer in Hplayers.
  rewrite !andb_true_iff, negb_true_iff, bool_decide_eq_false,
    bool_decide_eq_true in Hplayers.
  destruct Hplayers as [[Hp Hlen] Hpos]. split; [done|]. split; [done|].
  intros r c Hrc.
  apply Is_true_true in Hpos. rewrite forallb_True, Forall_forall in Hpos.
  specialize (Hpos (r, c) Hrc). apply Is_true_true in Hpos.
  unfold checkPosition in Hpos.
  rewrite andb_true_iff, orb_true_iff, andb_true_iff, !bool_decide_eq_true in Hpos.
  destruct Hpos as [Hin Hown]. split; [exact Hin|]. tauto.
Qed.

Lemma held_card_present b r c p :
  Inv b → controllerAt b r c = Some p → cardAt b r c ≠ None ∧ faceUpAt b r c = true.
Proof.
  intros HI Hheld. split.
  - intros Hnone. destruct (inv_bare _ HI r c Hnone) as [_ Hfree]. congruence.
  - apply (inv_held _ HI). congruence.
Qed.

Lemma flip_entry_inGrid p r c w l :
  players (board w) !! p = Some l → inGrid (board w) r c →
  flip_entry p r c w = (None, w).
Proof.
  intros Hl Hin. unfold flip_entry. rewrite Hl.
  rewrite bool_decide_eq_false_2; [done|]. unfold inGrid in Hin. lia.
Qed.

(** ** Second card on the card already held *)

(** C10.  If [p]'s record holds exactly the position [(r0,c0)], which [p]
    controls, then [flip(p, r0, c0)] rejects with "target controlled by a
    player".  The position loses its controller and stays face up, and it
    remains the one entry of [p]'s record. *)
Theorem flip_on_own_card_is_TargetControlled (p : string) (r0 c0 : Z) (w : World) :
  Inv (board w) →
  checkRep (board w) = true →
  players (board w) !! p = Some [(r0, c0)] →
  controllerAt (board w) r0 c0 = Some p →
  let w' := (flip p r0 c0 w).2 in
  (flip p r0 c0 w).1 = FlipDone (Rejected TargetControlled)
  ∧ controllerAt (board w') r0 c0 = None
  ∧ faceUpAt (board w') r0 c0 = true
  ∧ cardAt (board w') r0 c0 = cardAt (board w) r0 c0
  ∧ players (board w') !! p = Some [(r0, c0)].
Proof.
  intros HI Hrep Hl Hheld.
  pose proof (inv_shape _ HI) as Hs.
  destruct (checkRep_record _ _ _ Hrep Hl) as (Hp & _ & Hpos).
  destruct (Hpos r0 c0) as [Hin _]; [by constructor|].
  destruct (held_card_present _ _ _ _ HI Hheld) as [Hcard Hup].
  assert (finishPreviousForPlayer_locked p w = w) as Hfinish.
  { unfold finishPreviousForPlayer_locked. rewrite Hl, Hheld.
    by rewrite andb_false_r. }
  assert (flip_locked p r0 c0 w
          = (Fail TargetControlled,
             on_board (setControlled p [(r0, c0)])
               (on_board (setController r0 c0 None) w))) as Htry.
  { unfold flip_locked. rewrite Hrep, Hl. simpl.
    destruct (cardAt (board w) r0 c0) as [label|]; [|done].
    rewrite Hup, Hheld. simpl. by rewrite bool_decide_eq_false_2. }
  unfold flip. cbn [flip_run flip_step].
  rewrite (flip_entry_inGrid p r0 c0 w _ Hl Hin). cbn [flip_run flip_step].
  rewrite Hfinish, Htry. cbn [flip_run flip_step fst snd].
  split; [done|]. cbn [board on_board]. autorewrite with board.
  rewrite controllerAt_setController by done. rewrite decide_True by done.
  split; [done|]. split; [done|]. split; [done|].
  apply lookup_insert_eq.
Qed.

(** ** What a wake leaves alone *)

Lemma wake_cards r c w : cards (board (wakeNextWaiter_locked r c w)) = cards (board w).
Proof.
  unfold wakeNextWaiter_locked. case_bool_decide; [|done].
  unfold randomIndex. simpl. destruct (_ !! _); [|done]. simpl.
  rewrite cardAt_setWaiters. by destruct (cardAt (board w) r c).
Qed.

Lemma wake_players r c w :
  players (board (wakeNextWaiter_locked r c w)) = players (board w).
Proof.
  unfold wakeNextWaiter_locked. case_bool_decide; [|done].
  unfold randomIndex. simpl. destruct (_ !! _); [|done]. simpl.
  rewrite cardAt_setWaiters. by destruct (cardAt (board w) r c).
Qed.

Lemma wake_elsewhere r c w r' c' :
  Shape (board w) → ¬ (r' = r ∧ c' = c) →
  let w' := wakeNextWaiter_locked r c w in
  waitersAt (board w') r' c' = waitersAt (board w) r' c'
  ∧ faceUpAt (board w') r' c' = faceUpAt (board w) r' c'
  ∧ controllerAt (board w') r' c' = controllerAt (board w) r' c'.
Proof.
  intros Hs Hne. simpl.
  destruct (decide (waitersAt (board w) r c = [])) as [Hq|Hq].
  { by rewrite wake_empty. }
  destruct (picked_lookup _ w Hq) as [item Hitem].
  rewrite (wake_nonempty r c w item Hitem). cbn zeta.
  set (q' := delete _ (waitersAt (board w) r c)).
  assert (waitersAt (setWaiters r c q' (board w)) r' c'
          = waitersAt (board w) r' c') as Hq1.
  { rewrite waitersAt_setWaiters by done.
    rewrite decide_False; [done|]. intros (-> & -> & _). by apply Hne. }
  destruct (cardAt (board w) r c);
    cbn [board on_board emit notifyWatchers_locked drawn randomIndex snd];
    autorewrite with board; [|done].
  rewrite controllerAt_setController by auto with board.
  autorewrite with board. rewrite faceUpAt_setFaceUp by auto with board.
  rewrite !decide_False; [done|intros (-> & -> & _); by apply Hne..].
Qed.

(** A wake never turns a card face down. *)
Lemma wake_keeps_faceUp r c w r' c' :
  Shape (board w) → faceUpAt (board w) r' c' = true →
  faceUpAt (board (wakeNextWaiter_locked r c w)) r' c' = true.
Proof.
  intros Hs Hup.
  destruct (decide (waitersAt (board w) r c = [])) as [Hq|Hq].
  { by rewrite wake_empty. }
  destruct (picked_lookup _ w Hq) as [item Hitem].
  rewrite (wake_nonempty r c w item Hitem). cbn zeta.
  destruct (cardAt (board w) r c);
    cbn [board on_board emit notifyWatchers_locked drawn randomIndex snd];
    autorewrite with board; [|done].
  rewrite faceUpAt_setFaceUp by auto with board.
  by destruct (decide _).
Qed.

(** ** Second card: mismatch *)

Lemma put2_same {A} (m : list (list A)) r c v : at2 m r c = Some v → put2 m r c v = m.
Proof.
  unfold at2, put2. case_bool_decide; [|done]. intros Hv.
  destruct (m !! Z.to_nat r) as [line|] eqn:Hline; [|done]. simpl in Hv.
  apply list_eq. intros i. destruct (decide (i = Z.to_nat r)) as [->|Hi].
  - rewrite list_lookup_alter_eq, Hline. simpl. f_equal.
    by apply list_insert_id.
  - by rewrite list_lookup_alter_ne.
Qed.

Lemma setFaceUp_already b r c : faceUpAt b r c = true → setFaceUp r c true b = b.
Proof.
  intros Hup. unfold setFaceUp, with_faceUp. rewrite put2_same; [by destruct b|].
  unfold faceUpAt in Hup. destruct (at2 (faceUp b) r c) as [[]|]; done.
Qed.

(** C2.  In the critical section of a second-card flip by [p], whose record
    holds [(r0,c0)], on a present card [(r,c)] that is not both face up and
    controlled, and whose label differs from the one at [(r0,c0)]: the
    section returns [ok]; a change event is emitted at a board where both
    positions are face up with no controller and [p]'s record is
    [[(r0,c0),(r,c)]]; then, still in the same section, the wake on
    [(r0,c0)] runs.  The queue of [(r,c)] is not touched, [(r,c)] ends
    uncontrolled, and both positions end face up.  If nobody waits on
    [(r0,c0)] nothing more happens; otherwise exactly one waiter of that
    queue is taken out, given the position, and fulfilled. *)
Theorem second_card_mismatch_wakes_first_card_only
    (p : string) (r c r0 c0 : Z) (label : string) (w : World) :
  Inv (board w) →
  checkRep (board w) = true →
  players (board w) !! p = Some [(r0, c0)] →
  cardAt (board w) r c = Some label →
  faceUpAt (board w) r c && truthy (controllerAt (board w) r c) = false →
  cardAt (board w) r0 c0 ≠ Some label →
  ∃ b1 w1,
    board w1 = with_watchers [] b1
    ∧ trace w1 = trace w ++ [(Change (watchers (board w)), b1)]
    ∧ controllerAt b1 r0 c0 = None ∧ controllerAt b1 r c = None
    ∧ faceUpAt b1 r0 c0 = true ∧ faceUpAt b1 r c = true
    ∧ players b1 !! p = Some [(r0, c0); (r, c)]
    ∧ waiters b1 = waiters (board w)
    ∧ flip_locked p r c w = (Ok, wakeNextWaiter_locked r0 c0 w1)
    ∧ let w' := wakeNextWaiter_locked r0 c0 w1 in
      let q0 := waitersAt (board w) r0 c0 in
      waitersAt (board w') r c = waitersAt (board w) r c
      ∧ controllerAt (board w') r c = None
      ∧ faceUpAt (board w') r c = true
      ∧ faceUpAt (board w') r0 c0 = true
      ∧ players (board w') !! p = Some [(r0, c0); (r, c)]
      ∧ (q0 = [] → w' = w1)
      ∧ (q0 ≠ [] →
         ∃ idx item b2,
           q0 !! idx = Some item
           ∧ waitersAt (board w') r0 c0 = delete idx q0
           ∧ controllerAt (board w') r0 c0 = Some (pid item)
           ∧ trace w' = trace w1 ++ [(Change [], b2);
                                     (Fulfil (deferred item), board w')]).
Proof.
  intros HI Hrep Hl Hcard Hfree Hdiff.
  pose proof (inv_shape _ HI) as Hs.
  destruct (checkRep_record _ _ _ Hrep Hl) as (Hp & _ & Hpos).
  destruct (Hpos r0 c0) as [Hin0 Hown0]; [by constructor|].
  assert (cardAt (board w) r c ≠ None) as Hpresent by by rewrite Hcard.
  pose proof (card_inGrid _ _ _ Hs Hpresent) as Hin.
  assert (faceUpAt (board w) r0 c0 = true) as Hup0.
  { destruct Hown0 as [Hheld|[_ Hup]]; [|done].
    by destruct (held_card_present _ _ _ _ HI Hheld). }
  assert (¬ (r0 = r ∧ c0 = c)) as Hne by (intros [-> ->]; congruence).
  assert (¬ (r = r0 ∧ c = c0)) as Hne' by (intros [-> ->]; congruence).
  (* the board once the second card is turned over and taken *)
  set (bu := setFaceUp r c true (board w)).
  assert (Shape bu) as Hsu by (subst bu; auto with board).
  assert (faceUpAt bu r c = true ∧ faceUpAt bu r0 c0 = true) as [Hupu Hupu0].
  { subst bu. rewrite !faceUpAt_setFaceUp by done. rewrite decide_True by done.
    rewrite decide_False; [done|]. intros (-> & -> & _). by apply Hne. }
  set (b1 := setControlled p [(r0, c0); (r, c)]
               (setController r c None
                  (setController r0 c0 None
                     (setController r c (Some p) bu)))).
  set (w1 := notifyWatchers_locked
               (mkWorld b1 (fresh w) (rng w) (draws w) (trace w))).
  assert (flip_locked p r c w = (Ok, wakeNextWaiter_locked r0 c0 w1)) as Htry.
  { unfold flip_locked. rewrite Hrep, Hl. cbn [negb].
    rewrite Hcard, Hfree.
    destruct (faceUpAt (board w) r c) eqn:Hup; cbn [negb board on_board];
      autorewrite with board; rewrite Hcard;
      rewrite (bool_decide_eq_false_2 (cardAt (board w) r0 c0 = Some label))
        by done;
      rewrite andb_false_r; subst w1 b1 bu; [|reflexivity].
    by rewrite setFaceUp_already. }
  assert (Shape b1) as Hs1 by (subst b1; auto 6 with board).
  assert (controllerAt b1 r0 c0 = None) as Hc10.
  { subst b1. autorewrite with board.
    rewrite !controllerAt_setController by auto with board.
    rewrite decide_False by (intros (-> & -> & _); by apply Hne).
    by rewrite decide_True. }
  assert (controllerAt b1 r c = None) as Hc1.
  { subst b1. autorewrite with board.
    rewrite !controllerAt_setController by auto with board.
    by rewrite decide_True. }
  assert (faceUpAt b1 r c = true ∧ faceUpAt b1 r0 c0 = true) as [Hup1 Hup10].
  { subst b1. by autorewrite with board. }
  assert (players b1 !! p = Some [(r0, c0); (r, c)]) as Hpl1.
  { subst b1. apply lookup_insert_eq. }
  assert (waiters b1 = waiters (board w)) as Hw1 by done.
  assert (Shape (board w1)) as Hsw1 by (subst w1; simpl; auto with board).
  exists b1, w1.
  split; [done|]. split; [done|].
  do 7 (split; [done|]).
  cbn zeta.
  destruct (wake_elsewhere r0 c0 w1 r c Hsw1 Hne') as (Eq & Eup & Ectl).
  split; [by rewrite Eq|].
  split; [by rewrite Ectl|]. split; [by rewrite Eup|].
  split; [by apply wake_keeps_faceUp|].
  split; [by rewrite wake_players|].
  assert (waitersAt (board w1) r0 c0 = waitersAt (board w) r0 c0) as Hq0 by done.
  split.
  { intros Hq. apply wake_empty. by rewrite Hq0. }
  intros Hq. rewrite <- Hq0 in Hq.
  destruct (picked_lookup _ w1 Hq) as [item Hitem].
  assert (cardAt (board w1) r0 c0 ≠ None) as Hcard0.
  { destruct Hown0 as [Hheld|[Hc0 _]]; [|done].
    by destruct (held_card_present _ _ _ _ HI Hheld). }
  pose proof (wake_nonempty r0 c0 w1 item Hitem) as Hwake. cbn zeta in Hwake.
  destruct (cardAt (board w1) r0 c0) as [label0|] eqn:Hlab0; [|done].
  set (idx := picked (waitersAt (board w1) r0 c0) w1) in *.
  set (bw := setWaiters r0 c0 (delete idx (waitersAt (board w1) r0 c0)) (board w1)).
  assert (Shape bw) as Hsw by (subst bw; auto with board).
  exists idx, item,
    (setController r0 c0 (Some (pid item)) (setFaceUp r0 c0 true bw)).
  rewrite Hwake. split; [done|].
  cbn [board emit notifyWatchers_locked on_board drawn randomIndex snd trace].
  fold bw. autorewrite with board.
  rewrite controllerAt_setController by auto with board.
  rewrite decide_True by done.
  split.
  { subst bw. rewrite waitersAt_setWaiters by done. by rewrite decide_True. }
  split; [done|].
  by rewrite <- app_assoc.
Qed.

(** The invariant at the end of a schedule run on a new board. *)
Lemma Inv_schedule R C init b rng ms :
  newBoard R C init = inr b → Inv (board (schedule ms (initial b rng, [])).1).
Proof.
  intros Hnew.
  apply (Inv_reachable (initial b rng, []) _ (schedule_reachable ms _)).
  by apply (Inv_newBoard R C init).
Qed.

Lemma second_card_mismatch_wakes_first_card_only_witness :
  let w := Waiting.twoWaiters.1 in
  players (board w) !! "alice" = Some [(0, 0)%Z]
  ∧ cardAt (board w) 0 1 = Some "B"
  ∧ cardAt (board w) 0 0 ≠ Some "B"
  ∧ (flip_locked "alice" 0 1 w).1 = Ok
  ∧ controllerAt (board (flip_locked "alice" 0 1 w).2) 0 1 = None
  ∧ faceUpAt (board (flip_locked "alice" 0 1 w).2) 0 1 = true.
Proof.
  intros w.
  assert (players (board w) !! "alice" = Some [(0, 0)%Z]) as Hl
    by (vm_compute; reflexivity).
  assert (cardAt (board w) 0 1 = Some "B") as Hcard by (vm_compute; reflexivity).
  assert (cardAt (board w) 0 0 ≠ Some "B") as Hdiff by (vm_compute; discriminate).
  split; [exact Hl|]. split; [exact Hcard|]. split; [exact Hdiff|].
  destruct (second_card_mismatch_wakes_first_card_only
              "alice" 0 1 0 0 "B" w) as (b1 & w1 & _ & _ & _ & _ & _ & _ & _ & _ & Htry & Hend).
  - apply (Inv_schedule 1 3 (Some ["A"; "B"; "A"])). vm_compute; reflexivity.
  - vm_compute; reflexivity.
  - exact Hl.
  - exact Hcard.
  - vm_compute; reflexivity.
  - exact Hdiff.
  - rewrite Htry. cbn [fst snd].
    destruct Hend as (_ & Hfree & Hup & _).
    split; [reflexivity|]. split; [exact Hfree|exact Hup].
Defined.

Lemma flip_on_own_card_is_TargetControlled_witness :
  let w := Holding.aliceHolds.1 in
  players (board w) !! "alice" = Some [(0, 0)%Z]
  ∧ controllerAt (board w) 0 0 = Some "alice"
  ∧ (flip "alice" 0 0 w).1 = FlipDone (Rejected TargetControlled)
  ∧ controllerAt (board (flip "alice" 0 0 w).2) 0 0 = None
  ∧ faceUpAt (board (flip "alice" 0 0 w).2) 0 0 = true.
Proof.
  intros w.
  assert (players (board w) !! "alice" = Some [(0, 0)%Z]) as Hl
    by (vm_compute; reflexivity).
  assert (controllerAt (board w) 0 0 = Some "alice") as Hheld
    by (vm_compute; reflexivity).
  split; [exact Hl|]. split; [exact Hheld|].
  destruct (flip_on_own_card_is_TargetControlled "alice" 0 0 w)
    as (Hres & Hfree & Hup & _).
  - apply (Inv_schedule 1 3 (Some ["A"; "B"; "A"])). vm_compute; reflexivity.
  - vm_compute; reflexivity.
  - exact Hl.
  - exact Hheld.
  - split; [exact Hres|]. split; [exact Hfree|exact Hup].
Defined.

(** ** The trace only grows *)

Lemma extends_refl w : extends w w.
Proof. exists []. by rewrite app_nil_r. Qed.

Lemma extends_trans w1 w2 w3 : extends w1 w2 → extends w2 w3 → extends w1 w3.
Proof.
  intros [e1 H1] [e2 H2]. exists (e1 ++ e2). by rewrite H2, H1, app_assoc.
Qed.

Lemma extends_on_board f w : extends w (on_board f w).
Proof. exists []. simpl. by rewrite app_nil_r. Qed.

Lemma extends_emit e w : extends w (emit e w).
Proof. by eexists. Qed.

Lemma extends_notify w : extends w (notifyWatchers_locked w).
Proof. by eexists. Qed.

Lemma extends_wake r c w : extends w (wakeNextWaiter_locked r c w).
Proof.
  destruct (decide (waitersAt (board w) r c = [])) as [Hq|Hq].
  { rewrite wake_empty by done. apply extends_refl. }
  destruct (picked_lookup _ w Hq) as [item Hitem].
  rewrite (wake_nonempty r c w item Hitem). cbn zeta.
  destruct (cardAt (board w) r c); eexists; simpl; [|done].
  by rewrite <- app_assoc.
Qed.






(** ** flip outside the board *)

Lemma flip_entry_outside p r c w :
  ¬ inGrid (board w) r c →
  flip_entry p r c w
  = (Some InvalidCoordinates,
     match players (board w) !! p with
     | None => on_board (setControlled p []) w
     | Some _ => w
     end).
Proof.
  intros Hout. unfold flip_entry.
  destruct (players (board w) !! p); simpl;
    (rewrite bool_decide_eq_true_2; [done|unfold inGrid in Hout; simpl; lia]).
Qed.

(** C6, as the code has it.  A flip whose row or column is outside the board
    rejects with "invalid coordinates".  Labels, faces, controllers, the
    waiter queues, the watchers and the dimensions are untouched, nothing is
    resolved or notified, and every player record that existed is
    unchanged; the one thing that may change is that an empty record is
    created for [p] when [p] had none. *)
Theorem flip_outside_rejects_and_only_creates_record
    (p : string) (r c : Z) (w : World) :
  ¬ inGrid (board w) r c →
  let w' := (flip p r c w).2 in
  (flip p r c w).1 = FlipDone (Rejected InvalidCoordinates)
  ∧ rows (board w') = rows (board w)
  ∧ columns (board w') = columns (board w)
  ∧ cards (board w') = cards (board w)
  ∧ faceUp (board w') = faceUp (board w)
  ∧ controlledBy (board w') = controlledBy (board w)
  ∧ waiters (board w') = waiters (board w)
  ∧ watchers (board w') = watchers (board w)
  ∧ trace w' = trace w
  ∧ (∀ q l, players (board w) !! q = Some l → players (board w') !! q = Some l)
  ∧ (∀ q l, players (board w') !! q = Some l →
       players (board w) !! q = Some l
       ∨ q = p ∧ l = [] ∧ players (board w) !! p = None).
Proof.
  intros Hout. unfold flip. cbn [flip_run flip_step].
  rewrite (flip_entry_outside p r c w Hout). cbn [flip_run flip_step fst snd].
  split; [done|].
  destruct (players (board w) !! p) as [l0|] eqn:Hp.
  - do 8 (split; [done|]). split; [done|]. intros q l Hq. by left.
  - do 8 (split; [done|]). cbn [board on_board setControlled with_players players].
    split.
    + intros q l Hq. rewrite lookup_insert_ne; [done|]. intros ->. congruence.
    + intros q l Hq. destruct (decide (p = q)) as [<-|Hne].
      * rewrite lookup_insert_eq in Hq. right. by injection Hq as <-.
      * rewrite lookup_insert_ne in Hq by done. by left.
Qed.

Lemma flip_outside_rejects_and_only_creates_record_witness :
  let w := initial Waiting.rowABA Examples.rng0 in
  ¬ inGrid (board w) (-1) 0
  ∧ (flip "zed" (-1) 0 w).1 = FlipDone (Rejected InvalidCoordinates)
  ∧ cards (board (flip "zed" (-1) 0 w).2) = cards (board w).
Proof.
  intros w.
  assert (¬ inGrid (board w) (-1) 0) as Hout by (unfold inGrid; lia).
  split; [exact Hout|].
  destruct (flip_outside_rejects_and_only_creates_record "zed" (-1) 0 w Hout)
    as (Hres & _ & _ & Hcards & _).
  split; [exact Hres|exact Hcards].
Defined.

(** C6 as stated fails: a first flip by a new player, outside the board, is
    rejected but leaves a record for that player behind. *)
Lemma flip_outside_changes_players :
  let w := initial Waiting.rowABA Examples.rng0 in
  (flip "zed" (-1) 0 w).1 = FlipDone (Rejected InvalidCoordinates)
  ∧ players (board w) !! "zed" = None
  ∧ players (board (flip "zed" (-1) 0 w).2) !! "zed" = Some []
  ∧ board (flip "zed" (-1) 0 w).2 ≠ board w.
Proof.
  intros w. split; [vm_compute; reflexivity|]. split; [vm_compute; reflexivity|].
  assert (players (board (flip "zed" (-1) 0 w).2) !! "zed" = Some []) as Hafter
    by (vm_compute; reflexivity).
  split; [exact Hafter|].
  intros Heq. rewrite Heq in Hafter. vm_compute in Hafter. discriminate.
Qed.

(** ** flip finishes the previous play first *)




(** ** A record whose card another player took over *)

(** The one-card branch of the finalization acts only on an uncontrolled
    card: with any controller at all it leaves the world as it is. *)
Lemma finishPrevious_one_controlled p r c q w :
  players (board w) !! p = Some [(r, c)] →
  controllerAt (board w) r c = Some q →
  finishPreviousForPlayer_locked p w = w.
Proof.
  intros Hl Hheld. unfold finishPreviousForPlayer_locked.
  rewrite Hl, Hheld. by rewrite andb_false_r.
Qed.

(** Step A on a single recorded card that the player gave up and nobody has
    taken since: the record is cleared, the card is turned face down and
    struck from every record, a change event is emitted and one waiter of
    the position is woken. *)
Lemma finishPrevious_one_relinquished p r c w :
  players (board w) !! p = Some [(r, c)] →
  cardAt (board w) r c ≠ None →
  controllerAt (board w) r c = None →
  faceUpAt (board w) r c = true →
  finishPreviousForPlayer_locked p w
  = wakeNextWaiter_locked r c
      (notifyWatchers_locked
         (on_board (removePositionFromAllPlayers_locked r c)
            (on_board (setFaceUp r c false)
               (on_board (setControlled p []) w)))).
Proof.
  intros Hl Hcard Hfree Hup. unfold finishPreviousForPlayer_locked.
  rewrite Hl, Hfree. rewrite bool_decide_eq_true_2 by done. simpl.
  rewrite faceUpAt_setControlled. by rewrite Hup.
Qed.

(** C5 at its failing input.  alice's record holds (0,0), which she gave up
    and carol has since taken; the state is reached by a run of the event
    loop on A B A.  Finishing alice's previous play changes nothing: her
    record is not cleared, no waiter is woken, no change event is emitted,
    and her next flip is treated as a second card. *)
Theorem finishPrevious_skips_card_held_by_another_player :
  let w := Stale.carolTookOver.1 in
  checkRep (board w) = true
  ∧ players (board w) !! "alice" = Some [(0, 0)%Z]
  ∧ controllerAt (board w) 0 0 = Some "carol"
  ∧ finishPreviousForPlayer_locked "alice" w = w
  ∧ players (board (flip "alice" 0 2 w).2) !! "alice" = Some [(0, 0); (0, 2)]%Z.
Proof.
  intros w.
  assert (players (board w) !! "alice" = Some [(0, 0)%Z]) as Hl
    by (vm_compute; reflexivity).
  assert (controllerAt (board w) 0 0 = Some "carol") as Hheld
    by (vm_compute; reflexivity).
  split; [vm_compute; reflexivity|]. split; [exact Hl|]. split; [exact Hheld|].
  split; [exact (finishPrevious_one_controlled _ _ _ _ _ Hl Hheld)|].
  vm_compute; reflexivity.
Qed.

(** ** map: the critical section *)

Lemma map_locked_frame reps w :
  let w' := map_locked reps w in
  rows (board w') = rows (board w)
  ∧ columns (board w') = columns (board w)
  ∧ faceUp (board w') = faceUp (board w)
  ∧ controlledBy (board w') = controlledBy (board w)
  ∧ players (board w') = players (board w)
  ∧ waiters (board w') = waiters (board w)
  ∧ ∃ b, trace w' = trace w ++ [(Change (watchers (board w)), b)].
Proof.
  unfold map_locked. simpl.
  assert (∀ b, let b' := foldl (λ b rep, setCard (rep_r rep) (rep_c rep)
                                   (Some (newCard rep)) b) b reps in
               rows b' = rows b ∧ columns b' = columns b
               ∧ faceUp b' = faceUp b ∧ controlledBy b' = controlledBy b
               ∧ players b' = players b ∧ waiters b' = waiters b
               ∧ watchers b' = watchers b) as Hfold.
  { induction reps as [|rep reps IH]; intros b; simpl; [done|].
    destruct (IH (setCard (rep_r rep) (rep_c rep) (Some (newCard rep)) b))
      as (? & ? & ? & ? & ? & ? & ?). done. }
  destruct (Hfold (board w)) as (? & ? & ? & ? & ? & ? & Hwat).
  do 6 (split; [done|]). eexists. by rewrite Hwat.
Qed.

(** The label a position holds after the critical section of [map]: the
    last replacement listed for it, if any, whatever it held before. *)
Lemma map_locked_label reps w r c :
  Shape (board w) →
  cardAt (board (map_locked reps w)) r c
  = foldl (λ label rep,
             if decide (rep_r rep = r ∧ rep_c rep = c ∧ inGrid (board w) r c)
             then Some (newCard rep) else label)
          (cardAt (board w) r c) reps.
Proof.
  intros Hs. unfold map_locked.
  cbn [board on_board notifyWatchers_locked emit]. autorewrite with board.
  assert (∀ b, Shape b → rows b = rows (board w) → columns b = columns (board w) →
            cardAt (foldl (λ b rep, setCard (rep_r rep) (rep_c rep)
                                      (Some (newCard rep)) b) b reps) r c
            = foldl (λ label rep,
                       if decide (rep_r rep = r ∧ rep_c rep = c
                                  ∧ inGrid (board w) r c)
                       then Some (newCard rep) else label)
                    (cardAt b r c) reps) as Hfold; [|by apply Hfold].
  induction reps as [|rep reps IH]; intros b Hb Hrows Hcols; simpl; [done|].
  rewrite IH by auto with board. f_equal.
  rewrite cardAt_setCard by done.
  unfold inGrid. rewrite Hrows, Hcols.
  destruct (decide (rep_r rep = r ∧ rep_c rep = c ∧ _)) as [(-> & -> & Hin)|Hno].
  - by rewrite decide_True.
  - rewrite decide_False; [done|]. intros (<- & <- & Hin). by apply Hno.
Qed.

(** C4 at its failing input.  On A A B, the replacements of (0,0) and (0,1)
    are computed while the two A cards are on the board; before the
    critical section of [map] runs, alice's next flip removes the matched
    pair.  The critical section then writes the computed labels over the
    two removed positions: they hold a card again, face down, instead of
    staying empty. *)
Theorem map_apply_restores_removed_cards :
  let before := Rewrite.beforeApply in
  let after := Rewrite.afterApply in
  before.2 !! 2
  = Some (TMap "admin" Rewrite.aToZ
            (MapApply [mkReplacement 0 0 "Z"; mkReplacement 0 1 "Z";
                       mkReplacement 0 2 "B"]))
  ∧ cards (board before.1) = [[None; None; Some "B"]]
  ∧ cards (board after.1) = [[Some "Z"; Some "Z"; Some "B"]]
  ∧ faceUp (board after.1) = [[false; false; true]]
  ∧ look_locked "admin" after.1 = Fulfilled (snapshot (board after.1) "admin").
Proof.
  intros before after.
  split; [vm_compute; reflexivity|]. split; [vm_compute; reflexivity|].
  split; [vm_compute; reflexivity|]. split; vm_compute; reflexivity.
Qed.

(** ** look *)

Section Look.
Implicit Types (s t : string) (ls : list string).

Lemma string_app_assoc s t u : (s +:+ t) +:+ u = s +:+ t +:+ u.
Proof.
  induction s as [|a s IH]; [done|].
  change (String a ((s +:+ t) +:+ u) = String a (s +:+ t +:+ u)). by rewrite IH.
Qed.

(** Joining with newlines and adding one at the end terminates every line. *)
Lemma join_terminated l ls :
  String.concat LF (l :: ls) +:+ LF
  = String.concat "" ((λ line, line +:+ LF) <$> l :: ls).
Proof.
  revert l. induction ls as [|l' ls IH]; intros l.
  - simpl. done.
  - change (String.concat LF (l :: l' :: ls))
      with (l +:+ LF +:+ String.concat LF (l' :: ls)).
    change (String.concat "" ((λ line, line +:+ LF) <$> l :: l' :: ls))
      with ((l +:+ LF) +:+ "" +:+
            String.concat "" ((λ line, line +:+ LF) <$> l' :: ls)).
    rewrite <- IH. by rewrite !string_app_assoc.
Qed.

(** The two loops of [look] visit the cells in row-major order. *)
Lemma loops_row_major {A} (g : Z → Z → A) (R C : Z) :
  (0 ≤ R)%Z → (0 ≤ C)%Z →
  (r ← seqZ 0 R; c ← seqZ 0 C; [g r c])
  = (λ k, g (k `div` C) (k `mod` C))%Z <$> seqZ 0 (R * C).
Proof.
  intros HR HC. rewrite <- (Z2Nat.id R) by done.
  induction (Z.to_nat R) as [|n IH]; [done|].
  rewrite seqZ_S, bind_app, IH. simpl. rewrite app_nil_r.
  replace (Z.of_nat (S n) * C)%Z with (Z.of_nat n * C + C)%Z by lia.
  rewrite seqZ_app by lia. rewrite fmap_app. f_equal.
  rewrite <- (Z.add_0_r (0 + Z.of_nat n * C)), <- fmap_add_seqZ.
  rewrite <- list_fmap_compose.
  assert (∀ (h : Z → A) l, l ≫= (λ c, [h c]) = h <$> l) as Hsingle.
  { intros h l. induction l as [|x l IHl]; [done|].
    rewrite bind_cons, IHl. done. }
  rewrite Hsingle. apply Forall_fmap_ext, Forall_forall.
  intros c Hc%elem_of_seqZ. simpl.
  replace (0 + Z.of_nat n * C + c)%Z with (c + Z.of_nat n * C)%Z by lia.
  rewrite Z.div_add, Z_mod_plus_full by lia.
  rewrite Z.div_small, Z.mod_small by lia. f_equal; lia.
Qed.

Lemma cellLine_spec b p r c :
  cellLine b p r c
  = specCellLine (cardAt b r c) (faceUpAt b r c) (controllerAt b r c) p.
Proof.
  unfold cellLine, specCellLine. destruct (cardAt b r c); [|done].
  destruct (faceUpAt b r c); simpl; [|done].
  case_bool_decide; by cases.
Qed.

Lemma snapshot_spec b p :
  (0 ≤ rows b)%Z → (0 ≤ columns b)%Z → snapshot b p = specSnapshot b p.
Proof.
  intros HR HC. unfold snapshot, lookLines, specSnapshot.
  rewrite join_terminated. do 3 f_equal.
  rewrite loops_row_major by done.
  apply list_fmap_ext. intros _ k _. apply cellLine_spec.
Qed.
End Look.

(** C8.  On a board that passes [checkRep], [look(p)] changes nothing and
    fulfils with the header line "<rows>x<cols>" followed by one line per
    cell in row-major order ("none", "down", "my <label>" or "up <label>"),
    every line ending with a newline. *)
Theorem look_returns_snapshot_and_mutates_nothing (p : string) (w : World) :
  checkRep (board w) = true →
  task_step (TLook p None) w
  = (TLook p (Some (Fulfilled (specSnapshot (board w) p))), w).
Proof.
  intros Hrep. simpl. unfold look_locked. rewrite Hrep.
  destruct (checkRep_dims _ Hrep) as [HR HC].
  by rewrite snapshot_spec.
Qed.

Lemma look_returns_snapshot_and_mutates_nothing_witness :
  let w := Waiting.twoWaiters.1 in
  checkRep (board w) = true
  ∧ task_step (TLook "bob" None) w
    = (TLook "bob" (Some (Fulfilled (specSnapshot (board w) "bob"))), w)
  ∧ specSnapshot (board w) "alice"
    = "1x3" +:+ LF +:+ "my A" +:+ LF +:+ "down" +:+ LF +:+ "down" +:+ LF
  ∧ specSnapshot (board w) "bob"
    = "1x3" +:+ LF +:+ "up A" +:+ LF +:+ "down" +:+ LF +:+ "down" +:+ LF.
Proof.
  intros w.
  assert (checkRep (board w) = true) as Hrep by (vm_compute; reflexivity).
  split; [exact Hrep|].
  split; [exact (look_returns_snapshot_and_mutates_nothing "bob" w Hrep)|].
  split; vm_compute; reflexivity.
Defined.

(** ** parseFromFile *)

Module ParseFacts.
Import Parse.

Lemma digitsPrefix_sound s ds tl :
  digitsPrefix s = (ds, tl) →
  s = ds +:+ tl
  ∧ Forall (λ a, isDigit a = true) (String.list_ascii_of_string ds)
  ∧ match tl with String a _ => isDigit a = false | EmptyString => True end.
Proof.
  revert ds tl. induction s as [|a s IH]; intros ds tl; simpl.
  - intros [= <- <-]. by repeat split.
  - destruct (isDigit a) eqn:Ha.
    + destruct (digitsPrefix s) as [ds' tl'] eqn:Hs. intros [= <- <-].
      destruct (IH ds' tl' eq_refl) as (-> & Hds & Htl).
      split; [done|]. split; [|done]. simpl. by constructor.
    + intros [= <- <-]. by repeat split.
Qed.

Lemma digitsPrefix_complete ds tl :
  Forall (λ a, isDigit a = true) (String.list_ascii_of_string ds) →
  match tl with String a _ => isDigit a = false | EmptyString => True end →
  digitsPrefix (ds +:+ tl) = (ds, tl).
Proof.
  intros Hds Htl. induction ds as [|a ds IH]; simpl.
  - destruct tl as [|a tl]; [done|]. simpl. by rewrite Htl.
  - simpl in Hds. apply Forall_cons in Hds as [Ha Hds].
    rewrite Ha. by rewrite (IH Hds).
Qed.

Lemma letter_x_not_digit : isDigit letter_x = false.
Proof. reflexivity. Qed.

Lemma app_nil_r_string s : s +:+ "" = s.
Proof.
  induction s as [|a s IH]; [done|].
  change (String a (s +:+ "") = String a s). by rewrite IH.
Qed.

(** The regular expression of the header, declaratively. *)
Lemma matchHeader_Some s d1 d2 :
  matchHeader s = Some (d1, d2)
  ↔ s = d1 +:+ String letter_x d2 ∧ isDecimal d1 ∧ isDecimal d2.
Proof.
  unfold matchHeader, isDecimal. split.
  - destruct (digitsPrefix s) as [e1 rest] eqn:H1.
    apply digitsPrefix_sound in H1 as (-> & He1 & _).
    case_bool_decide as Hne1; [done|].
    destruct rest as [|a rest']; [done|].
    case_bool_decide as Hx; [subst a|done].
    destruct (digitsPrefix rest') as [e2 tl] eqn:H2.
    apply digitsPrefix_sound in H2 as (-> & He2 & _).
    case_bool_decide as Hne2; [done|].
    case_bool_decide as Htl; [subst tl|done].
    intros [= <- <-]. by rewrite app_nil_r_string.
  - intros (-> & [Hne1 Hd1] & [Hne2 Hd2]).
    rewrite (digitsPrefix_complete d1 (String letter_x d2) Hd1 letter_x_not_digit).
    rewrite bool_decide_eq_false_2 by done.
    rewrite bool_decide_eq_true_2 by done.
    rewrite <- (app_nil_r_string d2) at 1.
    rewrite (digitsPrefix_complete d2 "" Hd2 I).
    rewrite bool_decide_eq_false_2 by done.
    by rewrite bool_decide_eq_true_2.
Qed.

Lemma parseIntFrom_decimal acc ds :
  parseIntFrom acc ds
  = (acc * 10 ^ Z.of_nat (String.length ds) + decimalValue ds)%Z.
Proof.
  revert acc. induction ds as [|a ds IH]; intros acc; simpl parseIntFrom.
  - simpl. lia.
  - rewrite IH. cbn [decimalValue String.length].
    rewrite Nat2Z.inj_succ, Z.pow_succ_r by lia. lia.
Qed.

Lemma parseInt_decimal ds : parseInt ds = decimalValue ds.
Proof. unfold parseInt. rewrite parseIntFrom_decimal. lia. Qed.


End ParseFacts.

Module BoardOfFile.
Import Parse ParseFacts.


Lemma at2_fillCards (R C : Z) (labels : list string) r c x :
  at2 (fillCards R C labels) r c = Some x → x = labels !! Z.to_nat (r * C + c).
Proof.
  unfold at2, fillCards. case_bool_decide as Hrc; [|done].
  rewrite list_lookup_fmap.
  destruct (seqZ 0 R !! Z.to_nat r) as [r'|] eqn:Hr; [|done]. simpl.
  rewrite list_lookup_fmap.
  destruct (seqZ 0 C !! Z.to_nat c) as [c'|] eqn:Hc; [|done]. simpl.
  apply lookup_seqZ in Hr as [-> _]. apply lookup_seqZ in Hc as [-> _].
  intros [= <-]. rewrite !Z2Nat.id by lia. do 2 f_equal; lia.
Qed.




End BoardOfFile.

Module ParseClaim.
Import Parse ParseFacts BoardOfFile.




End ParseClaim.

(** ** The whole invariant under each write *)

Section TidyWrites.
Implicit Types (b : Board) (r c : Z).

Lemma held_or_shown b r c p :
  Inv b →
  controllerAt b r c = Some p ∨ cardAt b r c ≠ None ∧ faceUpAt b r c = true →
  cardAt b r c ≠ None ∧ faceUpAt b r c = true.
Proof.
  intros HI [Hheld|Hshown]; [|done]. by apply (held_card_present _ _ _ p).
Qed.

Lemma Tidy_setController_None b r c : Tidy b → Tidy (setController r c None b).
Proof.
  intros [HI Hcol Hlab Hown Hwait Hrec]. pose proof (inv_shape _ HI) as Hs. split.
  - by apply Inv_setController_None.
  - done.
  - intros r' c' l. autorewrite with board. apply Hlab.
  - intros r' c' q. rewrite controllerAt_setController by done.
    cases; [done|apply Hown].
  - intros r' c' item. autorewrite with board. apply Hwait.
  - intros p l Hl. destruct (Hrec p l Hl) as (Hp & Hlen & Hpos).
    split; [done|]. split; [done|]. intros r' c' Hin.
    autorewrite with board. right. by apply (held_or_shown _ _ _ p), Hpos.
Qed.

Lemma Tidy_setFaceUp_true b r c :
  Tidy b → cardAt b r c ≠ None → Tidy (setFaceUp r c true b).
Proof.
  intros [HI Hcol Hlab Hown Hwait Hrec] Hcard. pose proof (inv_shape _ HI) as Hs. split.
  - by apply Inv_setFaceUp_true.
  - done.
  - intros r' c' l. autorewrite with board. apply Hlab.
  - intros r' c' q. autorewrite with board. apply Hown.
  - intros r' c' item. autorewrite with board. apply Hwait.
  - intros p l Hl. destruct (Hrec p l Hl) as (Hp & Hlen & Hpos).
    split; [done|]. split; [done|]. intros r' c' Hin.
    autorewrite with board. rewrite faceUpAt_setFaceUp by done.
    destruct (Hpos r' c' Hin) as [Hheld|[Hpresent Hup]]; [by left|right].
    split; [done|]. by cases.
Qed.

Lemma Tidy_setController_Some b r c q :
  Tidy b → q ≠ "" → cardAt b r c ≠ None → faceUpAt b r c = true →
  Tidy (setController r c (Some q) b).
Proof.
  intros [HI Hcol Hlab Hown Hwait Hrec] Hq Hcard Hup.
  pose proof (inv_shape _ HI) as Hs. split.
  - by apply Inv_setController_Some.
  - done.
  - intros r' c' l. autorewrite with board. apply Hlab.
  - intros r' c' q'. rewrite controllerAt_setController by done.
    cases; [by intros [= <-]|apply Hown].
  - intros r' c' item. autorewrite with board. apply Hwait.
  - intros p l Hl. destruct (Hrec p l Hl) as (Hp & Hlen & Hpos).
    split; [done|]. split; [done|]. intros r' c' Hin.
    autorewrite with board. rewrite controllerAt_setController by done.
    destruct (decide (r = r' ∧ c = c' ∧ inGrid b r c)) as [(-> & -> & _)|_].
    + by right.
    + by apply Hpos.
Qed.

Lemma Tidy_setCard_Some b r c x : Tidy b → x ≠ "" → Tidy (setCard r c (Some x) b).
Proof.
  intros [HI Hcol Hlab Hown Hwait Hrec] Hx. pose proof (inv_shape _ HI) as Hs. split.
  - by apply Inv_setCard_Some.
  - done.
  - intros r' c' l. rewrite cardAt_setCard by done.
    cases; [by intros [= <-]|apply Hlab].
  - intros r' c' q. autorewrite with board. apply Hown.
  - intros r' c' item. autorewrite with board. apply Hwait.
  - intros p l Hl. destruct (Hrec p l Hl) as (Hp & Hlen & Hpos).
    split; [done|]. split; [done|]. intros r' c' Hin.
    autorewrite with board. rewrite cardAt_setCard by done.
    destruct (Hpos r' c' Hin) as [Hheld|[Hpresent Hup]]; [by left|right].
    split; [|done]. by cases.
Qed.

Lemma Tidy_setWaiters b r c q :
  Tidy b → (∀ item, item ∈ q → pid item ≠ "") → Tidy (setWaiters r c q b).
Proof.
  intros [HI Hcol Hlab Hown Hwait Hrec] Hq. pose proof (inv_shape _ HI) as Hs. split.
  - by apply Inv_setWaiters.
  - done.
  - intros r' c' l. autorewrite with board. apply Hlab.
  - intros r' c' q'. autorewrite with board. apply Hown.
  - intros r' c' item. rewrite waitersAt_setWaiters by done.
    cases; [apply Hq|apply Hwait].
  - intros p l Hl. exact (Hrec p l Hl).
Qed.

Lemma Tidy_with_watchers b ws : Tidy b → Tidy (with_watchers ws b).
Proof.
  intros [HI Hcol Hlab Hown Hwait Hrec]. split; [by apply Inv_with_watchers|done..].
Qed.

Lemma Tidy_setControlled b p l :
  Tidy b → recordOk b p l → Forall (λ q : Z * Z, inGrid b q.1 q.2) l →
  Tidy (setControlled p l b).
Proof.
  intros [HI Hcol Hlab Hown Hwait Hrec] Hl Hin. split; [by apply Inv_setControlled|done..|].
  intros p' l' Hl'. simpl in Hl'.
  destruct (decide (p = p')) as [<-|Hne].
  - rewrite lookup_insert_eq in Hl'. by injection Hl' as <-.
  - rewrite lookup_insert_ne in Hl' by done. exact (Hrec p' l' Hl').
Qed.

(** Turning a free card face down and striking it from every record. *)
Lemma Tidy_turn_down b r c :
  Tidy b → controllerAt b r c = None →
  Tidy (removePositionFromAllPlayers_locked r c (setFaceUp r c false b)).
Proof.
  intros [HI Hcol Hlab Hown Hwait Hrec] Hfree. pose proof (inv_shape _ HI) as Hs. split.
  - by apply Inv_removePosition, Inv_setFaceUp_false.
  - done.
  - intros r' c' l. autorewrite with board. apply Hlab.
  - intros r' c' q. autorewrite with board. apply Hown.
  - intros r' c' item. autorewrite with board. apply Hwait.
  - intros p l' Hl'. simpl in Hl'. rewrite lookup_fmap in Hl'.
    destruct (players b !! p) as [l|] eqn:Hl; [|done]. injection Hl' as <-.
    destruct (Hrec p l Hl) as (Hp & Hlen & Hpos). split; [done|]. split.
    { etrans; [apply length_filter|done]. }
    intros r' c' [Hne Hin]%list_elem_of_filter. simpl in Hne.
    autorewrite with board. rewrite faceUpAt_setFaceUp by done.
    rewrite decide_False by (intros (-> & -> & _); by apply Hne).
    by apply Hpos.
Qed.
End TidyWrites.

(** ** The whole invariant under each private method *)

Section TidyMethods.
Implicit Types (w : World) (b : Board) (r c : Z).

(** Removing a matched pair: the two positions lose label, face and
    controller, the player's record is emptied and both positions are struck
    from every record. *)
Lemma Tidy_remove_pair b p r1 c1 r2 c2 :
  Tidy b → p ≠ "" →
  Tidy (removePositionFromAllPlayers_locked r2 c2
          (removePositionFromAllPlayers_locked r1 c1
             (setControlled p []
                (setController r2 c2 None
                   (setController r1 c1 None
                      (setFaceUp r2 c2 false
                         (setFaceUp r1 c1 false
                            (setCard r2 c2 None (setCard r1 c1 None b))))))))).
Proof.
  intros [HI Hcol Hlab Hown Hwait Hrec] Hp. pose proof (inv_shape _ HI) as Hs.
  set (b1 := setCard r2 c2 None (setCard r1 c1 None b)).
  set (b2 := setFaceUp r2 c2 false (setFaceUp r1 c1 false b1)).
  set (b3 := setController r2 c2 None (setController r1 c1 None b2)).
  assert (Shape b1 ∧ Shape b2 ∧ Shape b3) as (Hs1 & Hs2 & Hs3).
  { subst b1 b2 b3. auto 10 with board. }
  assert (∀ r c label, cardAt b3 r c = Some label → cardAt b r c = Some label)
    as Hcards.
  { intros r c label. subst b3 b2 b1. autorewrite with board.
    rewrite !cardAt_setCard by auto with board. by cases. }
  assert (∀ r c, ¬ (r = r1 ∧ c = c1) → ¬ (r = r2 ∧ c = c2) →
            cardAt b3 r c = cardAt b r c ∧ faceUpAt b3 r c = faceUpAt b r c
            ∧ controllerAt b3 r c = controllerAt b r c) as Hother.
  { intros r c Hne1 Hne2. subst b3 b2 b1.
    rewrite !controllerAt_setController by auto 10 with board.
    autorewrite with board. rewrite !faceUpAt_setFaceUp by auto 10 with board.
    autorewrite with board. rewrite !cardAt_setCard by auto with board.
    rewrite !decide_False; [done|intros (-> & -> & _); tauto..]. }
  split.
  - do 2 apply Inv_removePosition. apply Inv_setControlled; [|done].
    exact (Inv_remove _ r2 c2 (Inv_remove _ r1 c1 HI)).
  - done.
  - intros r c label. autorewrite with board. fold b1 b2 b3.
    intros Hc%Hcards. by eapply Hlab.
  - intros r c q. autorewrite with board. fold b1 b2 b3. subst b3.
    rewrite !controllerAt_setController by auto with board.
    cases; [done..|]. subst b2 b1. autorewrite with board. apply Hown.
  - intros r c item. autorewrite with board. apply Hwait.
  - intros x l'' Hl''. simpl in Hl''. rewrite !lookup_fmap in Hl''.
    destruct (<[p:=[]]> (players b) !! x) as [l|] eqn:Hl; [|done].
    injection Hl'' as <-.
    assert (recordOk b x l) as (Hx & Hlen & Hpos).
    { destruct (decide (p = x)) as [<-|Hne].
      - rewrite lookup_insert_eq in Hl. injection Hl as <-.
        split; [done|]. split; [simpl; lia|]. intros r c Hin. by inversion Hin.
      - rewrite lookup_insert_ne in Hl by done. by apply Hrec. }
    split; [done|]. split.
    { etrans; [apply length_filter|]. etrans; [apply length_filter|done]. }
    intros r c [Hne2 [Hne1 Hin]%list_elem_of_filter]%list_elem_of_filter.
    simpl in Hne1, Hne2. autorewrite with board. fold b1 b2 b3.
    destruct (Hother r c Hne1 Hne2) as (-> & -> & ->). by apply Hpos.
Qed.

Lemma Tidy_notify w : Tidy (board w) → Tidy (board (notifyWatchers_locked w)).
Proof. intros HT. simpl. by apply Tidy_with_watchers. Qed.

Lemma Tidy_wake r c w :
  Tidy (board w) → Tidy (board (wakeNextWaiter_locked r c w)).
Proof.
  intros HT. unfold wakeNextWaiter_locked.
  case_bool_decide; [|done]. unfold randomIndex. simpl.
  destruct (waitersAt (board w) r c !! _) as [item|] eqn:Hitem; [|done]. simpl.
  rewrite cardAt_setWaiters.
  assert (Tidy (setWaiters r c
            (delete (rng w (draws w) `mod` length (waitersAt (board w) r c))
               (waitersAt (board w) r c)) (board w))) as HT1.
  { apply Tidy_setWaiters; [done|]. intros x Hx.
    apply (tidy_waiters _ HT r c). by eapply list_elem_of_delete_inv. }
  destruct (cardAt (board w) r c) eqn:Hcard; simpl; [|done].
  assert (pid item ≠ "") as Hpid.
  { apply (tidy_waiters _ HT r c). by eapply list_elem_of_lookup_2. }
  pose proof (inv_shape _ (tidy_inv _ HT1)) as Hs1.
  apply Tidy_with_watchers, Tidy_setController_Some; [|done| |].
  - apply Tidy_setFaceUp_true; [done|]. autorewrite with board. by rewrite Hcard.
  - autorewrite with board. by rewrite Hcard.
  - rewrite faceUpAt_setFaceUp by done. rewrite decide_True; [done|].
    split; [done|]. split; [done|]. apply (card_inGrid (board w)).
    + apply HT.
    + by rewrite Hcard.
Qed.

Lemma Tidy_relinquishOwned p b q : Tidy b → Tidy (relinquishOwned p b q).
Proof.
  intros HT. destruct q as [r c]. unfold relinquishOwned.
  destruct (_ && _); [by apply Tidy_setController_None|done].
Qed.

Lemma Tidy_foldl_relinquishOwned p l b :
  Tidy b → Tidy (foldl (relinquishOwned p) b l).
Proof.
  revert b. induction l as [|q l IH]; intros b HT; simpl; [done|].
  by apply IH, Tidy_relinquishOwned.
Qed.

Lemma Tidy_turnDown acc q : Tidy acc.2 → Tidy (turnDown acc q).2.
Proof.
  destruct acc as [changed b], q as [r c]. simpl. intros HT.
  destruct (bool_decide (cardAt b r c ≠ None)); simpl; [|done].
  destruct (faceUpAt b r c); simpl; [|done].
  case_bool_decide; simpl; [|done].
  by apply Tidy_turn_down.
Qed.

Lemma Tidy_foldl_turnDown l acc : Tidy acc.2 → Tidy (foldl turnDown acc l).2.
Proof.
  revert acc. induction l as [|q l IH]; intros acc HT; simpl; [done|].
  by apply IH, Tidy_turnDown.
Qed.

Lemma recordOk_nil b p : p ≠ "" → recordOk b p [].
Proof.
  intros Hp. split; [done|]. split; [simpl; lia|]. intros r c Hin. by inversion Hin.
Qed.

Lemma Tidy_finishPrevious p w :
  Tidy (board w) → Tidy (board (finishPreviousForPlayer_locked p w)).
Proof.
  intros HT. unfold finishPreviousForPlayer_locked.
  destruct (players (board w) !! p) as [l|] eqn:Hl; [|done].
  destruct (tidy_records _ HT p l Hl) as (Hp & _ & _).
  destruct l as [|[r1 c1] [|[r2 c2] [|? ?]]]; try done.
  - destruct (_ && _) eqn:Hguard; [|done].
    apply andb_prop in Hguard as [_ Hfree]. apply bool_decide_eq_true in Hfree.
    apply Tidy_wake. simpl. rewrite faceUpAt_setControlled.
    assert (Tidy (setControlled p [] (board w))) as HT1.
    { apply Tidy_setControlled; [done|by apply recordOk_nil|done]. }
    destruct (faceUpAt (board w) r1 c1); simpl; [|done].
    by apply Tidy_with_watchers, Tidy_turn_down.
  - destruct (_ && _ && _).
    + do 2 apply Tidy_wake. apply Tidy_notify. simpl.
      by apply Tidy_remove_pair.
    + destruct (foldl turnDown _ _) as [changed b'] eqn:Hfold.
      do 2 apply Tidy_wake.
      assert (Tidy b') as HT'.
      { change b' with (changed, b').2. rewrite <- Hfold.
        apply Tidy_foldl_turnDown. cbn [snd board on_board].
        apply Tidy_setControlled; [|by apply recordOk_nil|done].
        by apply Tidy_foldl_relinquishOwned. }
      destruct changed; [by apply Tidy_notify|done].
Qed.
End TidyMethods.

Section TidySteps.
Implicit Types (w : World) (b : Board) (r c : Z).

Lemma Tidy_reserve b r c p :
  Tidy b → p ≠ "" → cardAt b r c ≠ None →
  Tidy (setController r c (Some p) (setFaceUp r c true b))
  ∧ controllerAt (setController r c (Some p) (setFaceUp r c true b)) r c = Some p.
Proof.
  intros HT Hp Hcard. pose proof (inv_shape _ (tidy_inv _ HT)) as Hs.
  pose proof (card_inGrid b r c Hs Hcard) as Hin. split.
  - apply Tidy_setController_Some; [by apply Tidy_setFaceUp_true|done|done|].
    rewrite faceUpAt_setFaceUp by done. by rewrite decide_True.
  - rewrite controllerAt_setController by auto with board. by rewrite decide_True.
Qed.

Lemma Tidy_flip_locked p r c w :
  p ≠ "" → Tidy (board w) → Tidy (board (flip_locked p r c w).2).
Proof.
  intros Hp HT. pose proof (tidy_inv _ HT) as HI.
  pose proof (inv_shape _ HI) as Hs. unfold flip_locked.
  destruct (negb _); [done|].
  destruct (players (board w) !! p) as [l|] eqn:Hl; [|done].
  destruct l as [|[r0 c0] [|? ?]]; [| |done].
  - (* first card *)
    destruct (cardAt (board w) r c) as [card|] eqn:Hcard; [|done].
    assert (cardAt (board w) r c ≠ None) as Hpresent by by rewrite Hcard.
    destruct (_ && _); simpl.
    + apply Tidy_setWaiters; [done|]. intros item [Hin| ->%list_elem_of_singleton]%elem_of_app.
      * by apply (tidy_waiters _ HT r c).
      * done.
    + destruct (Tidy_reserve (board w) r c p HT Hp Hpresent) as [HT1 Hheld].
      apply Tidy_with_watchers, Tidy_setControlled; [done| |].
      * split; [done|]. split; [simpl; lia|].
        intros r' c' [= -> ->]%list_elem_of_singleton. by left.
      * apply Forall_singleton. by apply (card_inGrid (board w)).
  - (* second card *)
    destruct (tidy_records _ HT p _ Hl) as (_ & _ & Hpos).
    assert (inGrid (board w) r0 c0) as Hin0.
    { apply (recorded_inGrid _ p [(r0, c0)] (r0, c0)); [done..|]. by constructor. }
    pose proof (held_or_shown _ _ _ _ HI (Hpos r0 c0 ltac:(by constructor)))
      as [Hcard0 Hup0].
    assert (∀ b', Tidy b' →
              cardAt b' r0 c0 ≠ None ∧ faceUpAt b' r0 c0 = true →
              inGrid b' r0 c0 →
              Tidy (setControlled p [(r0, c0)] (setController r0 c0 None b')))
      as Hgiveup.
    { intros b' HT' Hshown Hin'. apply Tidy_setControlled.
      - by apply Tidy_setController_None.
      - split; [done|]. split; [simpl; lia|].
        intros r' c' [= -> ->]%list_elem_of_singleton. by right.
      - by apply Forall_singleton. }
    destruct (cardAt (board w) r c) as [card|] eqn:Hcard; simpl; [|by apply Hgiveup].
    assert (cardAt (board w) r c ≠ None) as Hpresent by by rewrite Hcard.
    pose proof (card_inGrid _ _ _ Hs Hpresent) as Hin.
    destruct (_ && _); simpl; [by apply Hgiveup|].
    set (w1 := if negb (faceUpAt (board w) r c)
               then on_board (setFaceUp r c true) w else w).
    assert (board w1 = setFaceUp r c true (board w)) as Hw1.
    { subst w1. destruct (faceUpAt (board w) r c) eqn:Hup; simpl; [|done].
      by rewrite setFaceUp_already. }
    rewrite Hw1.
    destruct (Tidy_reserve (board w) r c p HT Hp Hpresent) as [HT2 Hheld].
    set (b2 := setController r c (Some p) (setFaceUp r c true (board w))) in *.
    pose proof (tidy_inv _ HT2) as HI2.
    assert (cardAt b2 r0 c0 ≠ None ∧ faceUpAt b2 r0 c0 = true) as Hshown0.
    { subst b2. autorewrite with board. rewrite faceUpAt_setFaceUp by done.
      split; [done|]. by cases. }
    assert (cardAt b2 r c ≠ None ∧ faceUpAt b2 r c = true) as Hshown.
    { by apply (held_card_present _ _ _ p). }
    destruct (_ && _ && _); simpl; rewrite ?Hw1; fold b2.
    + apply Tidy_with_watchers, Tidy_setControlled; [done| |].
      * split; [done|]. split; [simpl; lia|]. intros r' c' Hin'.
        apply elem_of_cons in Hin' as [[= -> ->]|[= -> ->]%list_elem_of_singleton];
          by right.
      * by apply Forall_cons_2; [|apply Forall_singleton].
    + apply Tidy_wake, Tidy_notify. simpl. rewrite ?Hw1. fold b2.
      assert (Tidy (setController r c None (setController r0 c0 None b2))) as HT4
        by by do 2 apply Tidy_setController_None.
      apply Tidy_setControlled; [done| |].
      * split; [done|]. split; [simpl; lia|]. intros r' c' Hin'.
        autorewrite with board. right.
        apply elem_of_cons in Hin' as [[= -> ->]|[= -> ->]%list_elem_of_singleton];
          done.
      * by apply Forall_cons_2; [|apply Forall_singleton].
Qed.

Lemma Tidy_flip_entry p r c w :
  p ≠ "" → Tidy (board w) → Tidy (board (flip_entry p r c w).2).
Proof.
  intros Hp HT. unfold flip_entry.
  destruct (players (board w) !! p); simpl.
  - by case_bool_decide.
  - case_bool_decide; simpl; (apply Tidy_setControlled; [done|by apply recordOk_nil|done]).
Qed.

Lemma Tidy_flip_step p r c pc w :
  p ≠ "" → Tidy (board w) → Tidy (board (flip_step p r c pc w).2).
Proof.
  intros Hp HT. destruct pc; simpl; try done.
  - pose proof (Tidy_flip_entry p r c w Hp HT).
    by destruct (flip_entry p r c w) as [[?|] ?].
  - by apply Tidy_finishPrevious.
  - pose proof (Tidy_flip_locked p r c w Hp HT).
    by destruct (flip_locked p r c w) as [[] ?].
  - by destruct (resolved d w).
Qed.

Lemma Tidy_map_locked reps w :
  labelled reps → Tidy (board w) → Tidy (board (map_locked reps w)).
Proof.
  intros Hreps HT. apply Tidy_notify. simpl. revert HT.
  generalize (board w). induction Hreps as [|rep reps Hrep _ IH]; intros b HT; simpl.
  - done.
  - by apply IH, Tidy_setCard_Some.
Qed.

(** One segment of a polite call keeps the invariant, and the call stays
    polite. *)
Lemma Tidy_task_step t w :
  polite t → Tidy (board w) →
  Tidy (board (task_step t w).2) ∧ polite (task_step t w).1.
Proof.
  intros Ht HT. destruct t as [p [s|]|p r c pc|p f pc|p pc]; simpl; try done.
  - pose proof (Tidy_flip_step p r c pc w Ht HT).
    by destruct (flip_step p r c pc w).
  - destruct pc as [r c reps|reps| |s]; simpl in *; try done.
    + destruct Ht as [Hf Hreps].
      case_bool_decide; [|done]. case_bool_decide; [|done].
      destruct (cardAt (board w) r c) as [card|] eqn:Hcard; simpl; [|done].
      split; [done|]. split; [done|]. apply Forall_app. split; [done|].
      apply Forall_singleton. simpl. by apply Hf, (tidy_labels _ HT r c).
    + destruct Ht as [Hf Hreps]. split; [|done]. by apply Tidy_map_locked.
  - destruct pc; simpl; try done.
    + split; [|done]. by apply Tidy_with_watchers.
    + by destruct (resolved d w).
Qed.

Lemma starting_polite_map p f pc :
  starting (TMap p f pc) = true → keepsLabels f → polite (TMap p f pc).
Proof.
  destruct pc as [r c reps| | |]; try done. simpl.
  destruct r, c, reps; try done. intros _ Hf. split; [done|constructor].
Qed.

Lemma Tidy_move s m :
  politeMove m → Tidy (board s.1) → Forall polite s.2 →
  Tidy (board (move s m).1) ∧ Forall polite (move s m).2.
Proof.
  intros Hm HT Hts. destruct s as [w ts], m as [t|i]; simpl in *.
  - destruct (starting t); simpl; [|done]. split; [done|].
    apply Forall_app. split; [done|]. by apply Forall_singleton.
  - destruct (ts !! i) as [t|] eqn:Hi; simpl; [|done].
    assert (polite t) as Ht.
    { apply (proj1 (Forall_forall _ _) Hts). by eapply list_elem_of_lookup_2. }
    destruct (Tidy_task_step t w Ht HT) as [HT' Ht']. split; [done|].
    by apply Forall_insert.
Qed.

Lemma Tidy_schedule ms s :
  Forall politeMove ms → Tidy (board s.1) → Forall polite s.2 →
  Tidy (board (schedule ms s).1) ∧ Forall polite (schedule ms s).2.
Proof.
  intros Hms. revert s. induction Hms as [|m ms Hm _ IH]; intros s HT Hts; simpl.
  - done.
  - destruct (Tidy_move s m Hm HT Hts) as [HT' Hts']. by apply IH.
Qed.

End TidySteps.

(** ** checkRep holds along every polite run *)

Lemma Tidy_checkRep b : Tidy b → checkRep b = true.
Proof.
  intros [HI Hcol Hlab Hown Hwait Hrec]. pose proof (inv_shape _ HI) as Hs.
  apply checkRep_RepOk. split; [|done|done| |].
  - destruct Hs as [[Hrows _] _ _ _]. lia.
  - intros r c Hin. unfold checkCell.
    destruct (cardAt b r c) as [label|] eqn:Hcard; simpl.
    + rewrite bool_decide_eq_false_2 by by eapply Hlab. simpl.
      destruct (controllerAt b r c) as [q|] eqn:Hq; simpl; [|done].
      rewrite bool_decide_eq_false_2 by by eapply Hown. done.
    + destruct (inv_bare _ HI r c Hcard) as [-> ->]. done.
  - intros p l Hl. destruct (Hrec p l Hl) as (Hp & Hlen & Hpos).
    unfold checkPlayer.
    rewrite bool_decide_eq_false_2 by done.
    rewrite bool_decide_eq_true_2 by done. simpl.
    apply Is_true_true, forallb_True, Forall_forall. intros [r c] Hrc.
    apply Is_true_true. unfold checkPosition.
    rewrite bool_decide_eq_true_2
      by exact (recorded_inGrid _ _ _ (r, c) HI Hl Hrc).
    simpl. destruct (Hpos r c Hrc) as [Hheld|[Hpresent Hup]].
    + by rewrite bool_decide_eq_true_2.
    + rewrite (bool_decide_eq_true_2 _ Hpresent), Hup. by rewrite orb_true_r.
Qed.

Lemma Tidy_newBoard R C init b : newBoard R C init = inr b → Tidy b.
Proof.
  intros Hnew. pose proof (Inv_newBoard R C init b Hnew) as HI.
  assert (checkRep b = true
          ∧ (∀ r c, controllerAt b r c = None)
          ∧ (∀ r c, waitersAt b r c = [])
          ∧ players b = ∅) as (Hrep & Hfree & Hnobody & Hplayers).
  { assert (∀ cs r c,
              controllerAt (mkBoard R C cs (emptyGrid R C false)
                (emptyGrid R C None) ∅ (emptyGrid R C []) []) r c = None) as Hc.
    { intros cs r c. unfold controllerAt. simpl.
      destruct (at2 _ r c) as [x|] eqn:Hx; [|done]. by apply at2_emptyGrid in Hx. }
    assert (∀ cs r c,
              waitersAt (mkBoard R C cs (emptyGrid R C false)
                (emptyGrid R C None) ∅ (emptyGrid R C []) []) r c = []) as Hw.
    { intros cs r c. unfold waitersAt. simpl.
      destruct (at2 _ r c) as [x|] eqn:Hx; [|done]. by apply at2_emptyGrid in Hx. }
    unfold newBoard in Hnew. destruct init as [l|].
    - case_bool_decide; [done|].
      destruct (checkRep _) eqn:Hrep; [|done]. injection Hnew as <-.
      split; [done|]. split; [apply Hc|]. split; [apply Hw|done].
    - destruct (checkRep _) eqn:Hrep; [|done]. injection Hnew as <-.
      split; [done|]. split; [apply Hc|]. split; [apply Hw|done]. }
  pose proof (proj1 (checkRep_RepOk b) Hrep) as [_ Hcol Hs Hcells _].
  split; [done|done| | | |].
  - intros r c label Hcard.
    assert (inGrid b r c) as Hin by (apply card_inGrid; [done|by rewrite Hcard]).
    specialize (Hcells r c Hin). unfold checkCell in Hcells.
    rewrite Hcard in Hcells. simpl in Hcells.
    rewrite !andb_true_iff, negb_true_iff, bool_decide_eq_false in Hcells. tauto.
  - intros r c q. by rewrite Hfree.
  - intros r c item. rewrite Hnobody. by intros ?%elem_of_nil.
  - intros p l. by rewrite Hplayers, lookup_empty.
Qed.

(** Whatever calls are made with non-empty player ids and label-keeping map
    functions, and however their segments interleave, the board passes
    [checkRep] between any two segments: no [look], [flip], [map] or
    [watch] of such a run can fail an assertion. *)
Lemma polite_runs_pass_checkRep R C init b rng ms :
  newBoard R C init = inr b → Forall politeMove ms →
  checkRep (board (schedule ms (initial b rng, [])).1) = true.
Proof.
  intros Hnew Hms. apply Tidy_checkRep.
  apply (Tidy_schedule ms (initial b rng, []) Hms); [|done]. simpl.
  by apply (Tidy_newBoard R C init).
Qed.

(** In particular every [look] of such a run fulfils with the snapshot of
    the specification. *)
Lemma look_along_polite_runs R C init b rng ms p :
  newBoard R C init = inr b → Forall politeMove ms →
  let w := (schedule ms (initial b rng, [])).1 in
  task_step (TLook p None) w
  = (TLook p (Some (Fulfilled (specSnapshot (board w) p))), w).
Proof.
  intros Hnew Hms w.
  pose proof (polite_runs_pass_checkRep R C init b rng ms Hnew Hms) as Hrep.
  fold w in Hrep. simpl. unfold look_locked. rewrite Hrep.
  destruct (checkRep_dims _ Hrep) as [HR HC]. by rewrite snapshot_spec.
Qed.

(** ** Dimensions and player records along a run *)
Section SameTable.

Lemma sameTable_refl b : sameTable b b.
Proof. by repeat split. Qed.

Lemma sameTable_trans b1 b2 b3 : sameTable b1 b2 → sameTable b2 b3 → sameTable b1 b3.
Proof.
  intros (HR & HC & Hp) (HR' & HC' & Hp'). split; [congruence|].
  split; [congruence|]. intros p Hin. by apply Hp', Hp.
Qed.

Lemma sameTable_cells b b' :
  rows b' = rows b → columns b' = columns b → players b' = players b →
  sameTable b b'.
Proof. intros HR HC Hp. split; [done|]. split; [done|]. by rewrite Hp. Qed.

Lemma sameTable_setControlled b p l : sameTable b (setControlled p l b).
Proof.
  split; [done|]. split; [done|]. intros q Hq. simpl.
  destruct (decide (p = q)) as [->|Hne].
  - by rewrite lookup_insert_eq.
  - by rewrite lookup_insert_ne.
Qed.

Lemma sameTable_removePosition b r c :
  sameTable b (removePositionFromAllPlayers_locked r c b).
Proof.
  split; [done|]. split; [done|]. intros q Hq. simpl.
  rewrite lookup_fmap. by apply fmap_is_Some.
Qed.

Lemma sameTable_setCard b r c v : sameTable b (setCard r c v b).
Proof. by apply sameTable_cells. Qed.
Lemma sameTable_setFaceUp b r c v : sameTable b (setFaceUp r c v b).
Proof. by apply sameTable_cells. Qed.
Lemma sameTable_setController b r c v : sameTable b (setController r c v b).
Proof. by apply sameTable_cells. Qed.
Lemma sameTable_setWaiters b r c v : sameTable b (setWaiters r c v b).
Proof. by apply sameTable_cells. Qed.
Lemma sameTable_with_watchers b v : sameTable b (with_watchers v b).
Proof. by apply sameTable_cells. Qed.

End SameTable.

Section SameTableMethods.

Lemma sameTable_notify w : sameTable (board w) (board (notifyWatchers_locked w)).
Proof. by apply sameTable_cells. Qed.

Lemma sameTable_wake r c w : sameTable (board w) (board (wakeNextWaiter_locked r c w)).
Proof.
  unfold wakeNextWaiter_locked. case_bool_decide; [|apply sameTable_refl]. simpl.
  destruct (_ !! _); [|apply sameTable_refl].
  destruct (cardAt _ _ _); by apply sameTable_cells.
Qed.

Lemma sameTable_relinquishOwned p b q : sameTable b (relinquishOwned p b q).
Proof.
  destruct q as [r c]. unfold relinquishOwned.
  destruct (_ && _); [by apply sameTable_cells|apply sameTable_refl].
Qed.

Lemma sameTable_foldl_relinquishOwned p l b :
  sameTable b (foldl (relinquishOwned p) b l).
Proof.
  revert b. induction l as [|q l IH]; intros b; simpl; [apply sameTable_refl|].
  eapply sameTable_trans; [apply sameTable_relinquishOwned|apply IH].
Qed.

Lemma sameTable_turnDown acc q : sameTable acc.2 (turnDown acc q).2.
Proof.
  destruct acc as [changed b], q as [r c]. unfold turnDown.
  destruct (_ && _ && _); simpl; [|apply sameTable_refl].
  eapply sameTable_trans; [|apply sameTable_removePosition].
  by apply sameTable_cells.
Qed.

Lemma sameTable_foldl_turnDown l acc : sameTable acc.2 (foldl turnDown acc l).2.
Proof.
  revert acc. induction l as [|q l IH]; intros acc; simpl; [apply sameTable_refl|].
  eapply sameTable_trans; [apply sameTable_turnDown|apply IH].
Qed.

End SameTableMethods.

Ltac tabled :=
  lazymatch goal with
  | |- sameTable _ (board (wakeNextWaiter_locked _ _ _)) =>
      eapply sameTable_trans; [|apply sameTable_wake]; tabled
  | |- sameTable _ (board (notifyWatchers_locked _)) =>
      eapply sameTable_trans; [|apply sameTable_notify]; tabled
  | |- sameTable _ (board (on_board _ _)) => cbn [board on_board]; tabled
  | |- sameTable _ (board (if ?b then _ else _)) => destruct b; tabled
  | |- sameTable _ (setControlled _ _ _) =>
      eapply sameTable_trans; [|apply sameTable_setControlled]; tabled
  | |- sameTable _ (removePositionFromAllPlayers_locked _ _ _) =>
      eapply sameTable_trans; [|apply sameTable_removePosition]; tabled
  | |- sameTable _ (setCard _ _ _ _) =>
      eapply sameTable_trans; [|apply sameTable_setCard]; tabled
  | |- sameTable _ (setFaceUp _ _ _ _) =>
      eapply sameTable_trans; [|apply sameTable_setFaceUp]; tabled
  | |- sameTable _ (setController _ _ _ _) =>
      eapply sameTable_trans; [|apply sameTable_setController]; tabled
  | |- sameTable _ (setWaiters _ _ _ _) =>
      eapply sameTable_trans; [|apply sameTable_setWaiters]; tabled
  | |- sameTable _ (with_watchers _ _) =>
      eapply sameTable_trans; [|apply sameTable_with_watchers]; tabled
  | |- sameTable _ (foldl (relinquishOwned _) _ _) =>
      eapply sameTable_trans; [|apply sameTable_foldl_relinquishOwned]; tabled
  | |- sameTable _ _ => apply sameTable_refl
  end.

Section SameTableSteps.

Lemma sameTable_finishPrevious p w :
  sameTable (board w) (board (finishPreviousForPlayer_locked p w)).
Proof.
  unfold finishPreviousForPlayer_locked.
  destruct (players (board w) !! p) as [l|]; [|tabled].
  destruct l as [|[r1 c1] [|[r2 c2] [|? ?]]]; try tabled.
  destruct (_ && _ && _); [tabled|].
  destruct (foldl turnDown _ _) as [changed b'] eqn:Hfold.
  assert (sameTable (board w) b') as Hb'.
  { change b' with (changed, b').2. rewrite <- Hfold.
    eapply sameTable_trans; [|apply sameTable_foldl_turnDown].
    cbn [snd]. tabled. }
  do 2 (eapply sameTable_trans; [|apply sameTable_wake]).
  destruct changed; [|done].
  eapply sameTable_trans; [|apply sameTable_notify]. done.
Qed.

Lemma sameTable_flip_locked p r c w :
  sameTable (board w) (board (flip_locked p r c w).2).
Proof.
  unfold flip_locked. destruct (negb _); [tabled|].
  destruct (players (board w) !! p) as [l|]; [|tabled].
  destruct l as [|[r0 c0] [|? ?]]; [| |tabled].
  - destruct (cardAt (board w) r c); [|tabled].
    destruct (_ && _); cbn [snd makeDeferred]; [|tabled].
    by apply sameTable_cells.
  - destruct (cardAt (board w) r c); cbn [snd]; [|tabled].
    destruct (_ && _); cbn [snd]; [tabled|].
    destruct (_ && _ && _); cbn [snd]; tabled.
Qed.

Lemma sameTable_flip_entry p r c w :
  sameTable (board w) (board (flip_entry p r c w).2).
Proof.
  unfold flip_entry. destruct (players (board w) !! p); case_bool_decide; cbn [snd]; tabled.
Qed.

Lemma sameTable_map_locked reps w :
  sameTable (board w) (board (map_locked reps w)).
Proof.
  destruct (map_locked_frame reps w) as (HR & HC & _ & _ & Hp & _).
  by apply sameTable_cells.
Qed.

Lemma sameTable_task_step t w : sameTable (board w) (board (task_step t w).2).
Proof.
  destruct t as [p [s|]|p r c pc|p f pc|p pc]; simpl; try apply sameTable_refl.
  - destruct pc; simpl; try apply sameTable_refl.
    + pose proof (sameTable_flip_entry p r c w).
      by destruct (flip_entry p r c w) as [[?|] ?].
    + apply sameTable_finishPrevious.
    + pose proof (sameTable_flip_locked p r c w).
      by destruct (flip_locked p r c w) as [[] ?].
    + destruct (resolved d w); apply sameTable_refl.
  - destruct pc; simpl; try apply sameTable_refl.
    + repeat case_bool_decide; try apply sameTable_refl.
      destruct (cardAt _ _ _); apply sameTable_refl.
    + apply sameTable_map_locked.
  - destruct pc; simpl; try apply sameTable_refl.
    + by apply sameTable_cells.
    + destruct (resolved d w); apply sameTable_refl.
Qed.

End SameTableSteps.

Section Regular.

Lemma sound_sameTable b b' t : sameTable b b' → sound b t → sound b' t.
Proof.
  intros (_ & _ & Hp) [Hdone Hrec]. split; [done|].
  destruct t as [| p r c pc | |]; try done. destruct pc; auto.
Qed.

Lemma look_locked_Tidy p w :
  Tidy (board w) → look_locked p w = Fulfilled (snapshot (board w) p).
Proof. intros HT. unfold look_locked. by rewrite (Tidy_checkRep _ HT). Qed.

Lemma flip_entry_record p r c w :
  is_Some (players (board (flip_entry p r c w).2) !! p).
Proof.
  unfold flip_entry. destruct (players (board w) !! p) eqn:Hp.
  - case_bool_decide; simpl; by rewrite Hp.
  - case_bool_decide; simpl; by rewrite lookup_insert_eq.
Qed.

Lemma flip_entry_message p r c w message :
  (flip_entry p r c w).1 = Some message → message = InvalidCoordinates.
Proof. unfold flip_entry. case_bool_decide; simpl; congruence. Qed.

Lemma flip_locked_attempt p r c w :
  checkRep (board w) = true → is_Some (players (board w) !! p) →
  match (flip_locked p r c w).1 with
  | Fail reason => reason = NoCardHere ∨ reason = TargetControlled
  | Throw _ => False
  | _ => True
  end.
Proof.
  intros Hrep [l Hl]. unfold flip_locked. rewrite Hrep, Hl. simpl.
  destruct l as [|[r0 c0] [|? ?]]; [| |done].
  - destruct (cardAt (board w) r c); [|by left].
    by destruct (_ && _).
  - destruct (cardAt (board w) r c); [|by left].
    destruct (_ && _); [by right|]. by destruct (_ && _ && _).
Qed.

Lemma sound_task_step t w :
  polite t → Tidy (board w) → sound (board w) t →
  sound (board (task_step t w).2) (task_step t w).1.
Proof.
  intros Hpol HT [Hdone Hrec].
  destruct t as [p [s|]|p r c pc|p f pc|p pc]; simpl.
  - done.
  - split; [|done]. intros s [= <-]. rewrite look_locked_Tidy by done. by eexists.
  - destruct pc; simpl.
    + pose proof (flip_entry_record p r c w) as Hp.
      pose proof (flip_entry_message p r c w) as Hm.
      destruct (flip_entry p r c w) as [[message|] w']; simpl in *.
      * split; [|done]. intros s [= <-]. rewrite (Hm message eq_refl).
        simpl. apply elem_of_cons. by left.
      * by split.
    + split; [done|]. by apply (sameTable_finishPrevious p w).
    + pose proof (flip_locked_attempt p r c w (Tidy_checkRep _ HT) Hrec) as Hres.
      pose proof (sameTable_flip_locked p r c w) as (_ & _ & Hkeep).
      specialize (Hkeep p Hrec).
      destruct (flip_locked p r c w) as [[|reason|d| |e] w']; simpl in *.
      * by split.
      * split; [|done]. intros s [= <-]. simpl. rewrite !elem_of_cons.
        destruct Hres as [->| ->]; auto.
      * by split.
      * by split.
      * destruct Hres.
    + by destruct (resolved d w).
    + split; [|done]. intros s [= <-]. by rewrite look_locked_Tidy.
    + done.
  - destruct pc; simpl; try done.
    + repeat case_bool_decide; try done. by destruct (cardAt _ _ _).
    + split; [|done]. intros s [= <-]. rewrite look_locked_Tidy by done. by eexists.
  - destruct pc; simpl; try done.
    + by destruct (resolved d w).
    + split; [|done]. intros s [= <-]. rewrite look_locked_Tidy by done. by eexists.
Qed.

Lemma sound_starting b t : starting t = true → sound b t.
Proof.
  destruct t as [p [s|]|p r c []|p f []|p []]; try done.
Qed.

Lemma sound_move s m :
  politeMove m → Tidy (board s.1) → Forall polite s.2 → Forall (sound (board s.1)) s.2 →
  Forall (sound (board (move s m).1)) (move s m).2.
Proof.
  destruct s as [w ts], m as [t|i]; simpl; intros Hm HT Hts Hsound.
  - destruct (starting t) eqn:Hstart; [|done]. simpl.
    apply Forall_app_2; [done|]. apply Forall_singleton. by apply sound_starting.
  - destruct (ts !! i) as [t|] eqn:Ht; [|done]. simpl.
    pose proof (proj1 (Forall_lookup _ _) Hts i t Ht) as Hpol.
    pose proof (proj1 (Forall_lookup _ _) Hsound i t Ht) as Hok.
    apply Forall_insert.
    + eapply Forall_impl; [exact Hsound|]. intros t'.
      apply sound_sameTable, sameTable_task_step.
    + by apply sound_task_step.
Qed.

Lemma sound_schedule ms s :
  Forall politeMove ms → Tidy (board s.1) → Forall polite s.2 →
  Forall (sound (board s.1)) s.2 →
  Forall (sound (board (schedule ms s).1)) (schedule ms s).2.
Proof.
  unfold schedule. revert s.
  induction ms as [|m ms IH]; intros s Hms HT Hts Hsound; simpl; [done|].
  inversion Hms as [|? ? Hm Hms']; subst.
  destruct (Tidy_move s m Hm HT Hts) as [HT' Hts'].
  apply IH; try done. by apply sound_move.
Qed.

End Regular.

(** X1.  Whatever calls are made with non-empty player ids and label-keeping
    map functions, and however their segments interleave, no call settles
    with a failed assertion or a [TypeError]: every [look], [map] and
    [watch] that settles is fulfilled, and every [flip] that settles is
    fulfilled or rejected with one of its three messages. *)
Theorem polite_calls_settle_regularly
    (R C : Z) (init : option (list string)) (b : Board) (rng : nat → nat)
    (ms : list Move) (i : nat) (t : Task) (s : Settled) :
  newBoard R C init = inr b →
  Forall politeMove ms →
  (schedule ms (initial b rng, [])).2 !! i = Some t →
  completed t = Some s →
  settlesWell t s.
Proof.
  intros Hnew Hms Ht Hs.
  assert (Tidy b) as HT by by apply (Tidy_newBoard R C init).
  pose proof (sound_schedule ms (initial b rng, []) Hms HT
                (Forall_nil_2 _) (Forall_nil_2 _)) as Hsound.
  destruct (proj1 (Forall_lookup _ _) Hsound i t Ht) as [Hdone _]. by apply Hdone.
Qed.

(** ** Waiters and watchers along a run *)
Section CarriesOver.

Lemma resolved_extends d w w' : extends w w' → resolved d w = true → resolved d w' = true.
Proof.
  intros [events Hev]. unfold resolved. rewrite Hev, existsb_app.
  intros ->. done.
Qed.

Lemma resolved_emit d e w : resolves d e = true → resolved d (emit e w) = true.
Proof.
  intros He. unfold resolved, emit. simpl. rewrite existsb_app. simpl.
  rewrite He. by rewrite orb_true_r.
Qed.

Lemma carriesOver_refl w : carriesOver w w.
Proof. split; [apply extends_refl|]. split; auto. Qed.

Lemma carriesOver_trans w1 w2 w3 :
  carriesOver w1 w2 → carriesOver w2 w3 → carriesOver w1 w3.
Proof.
  intros (He & Hq & Hw) (He' & Hq' & Hw').
  split; [by eapply extends_trans|]. split.
  - intros r c x Hx. destruct (Hq r c x Hx) as [Hin|Hres]; [by apply Hq'|].
    right. by apply (resolved_extends _ w2).
  - intros d Hd. destruct (Hw d Hd) as [Hin|Hres]; [by apply Hw'|].
    right. by apply (resolved_extends _ w2).
Qed.

Lemma carriesOver_same w w' :
  extends w w' → waiters (board w') = waiters (board w) →
  watchers (board w') = watchers (board w) → carriesOver w w'.
Proof.
  intros He Hq Hw. split; [done|]. unfold waitersAt. rewrite Hq, Hw. auto.
Qed.

Lemma carriesOver_notify w : carriesOver w (notifyWatchers_locked w).
Proof.
  split; [apply extends_notify|]. split; [by left|].
  intros d Hd. right. unfold notifyWatchers_locked, resolved. simpl.
  rewrite existsb_app. simpl. rewrite bool_decide_eq_true_2 by done.
  by rewrite orb_true_r.
Qed.

Lemma waitersAt_setWaiters_queue b r c v r' c' :
  waitersAt b r c ≠ [] →
  waitersAt (setWaiters r c v b) r' c'
  = if decide (r = r' ∧ c = c') then v else waitersAt b r' c'.
Proof.
  intros Hq. unfold waitersAt, setWaiters. simpl. rewrite at2_put2.
  assert (is_Some (at2 (waiters b) r c)) as Hsome.
  { unfold waitersAt in Hq. by destruct (at2 (waiters b) r c). }
  cases; try done; tauto.
Qed.

Lemma elem_of_delete_or {A} (l : list A) i x y :
  l !! i = Some y → x ∈ l → x = y ∨ x ∈ delete i l.
Proof.
  revert i. induction l as [|z l IH]; intros i Hy Hx; [by apply elem_of_nil in Hx|].
  destruct i as [|i]; simpl in *.
  - injection Hy as ->. apply elem_of_cons in Hx. tauto.
  - apply elem_of_cons in Hx as [->|Hx]; [right; left|].
    destruct (IH i Hy Hx) as [->|Hin]; [by left|right; by right].
Qed.

Lemma carriesOver_wake r c w : carriesOver w (wakeNextWaiter_locked r c w).
Proof.
  destruct (waitersAt (board w) r c) as [|x0 q0] eqn:Hq.
  { rewrite wake_empty by done. apply carriesOver_refl. }
  assert (waitersAt (board w) r c ≠ []) as Hne by by rewrite Hq.
  destruct (picked_lookup (waitersAt (board w) r c) w Hne) as [item Hitem].
  split; [apply extends_wake|].
  rewrite (wake_nonempty r c w item Hitem). cbn zeta.
  set (idx := picked (waitersAt (board w) r c) w) in *.
  assert (∀ r' c' x, x ∈ waitersAt (board w) r' c' →
            x ∈ waitersAt (setWaiters r c (delete idx (waitersAt (board w) r c))
                             (board w)) r' c'
            ∨ x = item) as Hkeep.
  { intros r' c' x Hx. rewrite waitersAt_setWaiters_queue by done.
    destruct (decide (r = r' ∧ c = c')) as [[<- <-]|]; [|by left].
    destruct (elem_of_delete_or _ idx x item Hitem Hx); auto. }
  split.
  - intros r' c' x Hx. destruct (Hkeep r' c' x Hx) as [Hin| ->].
    + left. destruct (cardAt (board w) r c); simpl; by autorewrite with board.
    + right. destruct (cardAt (board w) r c); apply resolved_emit; simpl;
        by apply bool_decide_eq_true.
  - intros d Hd. destruct (cardAt (board w) r c); [right|by left].
    apply (resolved_extends d (notifyWatchers_locked
             (on_board (setController r c (Some (pid item)))
                (on_board (setFaceUp r c true)
                   (on_board (setWaiters r c (delete idx (waitersAt (board w) r c)))
                      (drawn w)))))); [apply extends_emit|].
    unfold notifyWatchers_locked, resolved. simpl.
    rewrite existsb_app. simpl. rewrite bool_decide_eq_true_2 by done.
    by rewrite orb_true_r.
Qed.

End CarriesOver.

Section CarriesOverMethods.

Lemma queues_relinquishOwned p l b :
  waiters (foldl (relinquishOwned p) b l) = waiters b
  ∧ watchers (foldl (relinquishOwned p) b l) = watchers b.
Proof.
  revert b. induction l as [|[r c] l IH]; intros b; cbn [foldl]; [done|].
  destruct (IH (relinquishOwned p b (r, c))) as [-> ->].
  unfold relinquishOwned. by destruct (_ && _).
Qed.

Lemma queues_turnDown l acc :
  waiters (foldl turnDown acc l).2 = waiters acc.2
  ∧ watchers (foldl turnDown acc l).2 = watchers acc.2.
Proof.
  revert acc. induction l as [|[r c] l IH]; intros [changed b]; cbn [foldl]; [done|].
  destruct (IH (turnDown (changed, b) (r, c))) as [-> ->].
  unfold turnDown. by destruct (_ && _ && _).
Qed.

End CarriesOverMethods.

Ltac carried :=
  lazymatch goal with
  | |- carriesOver _ (wakeNextWaiter_locked _ _ _) =>
      eapply carriesOver_trans; [|apply carriesOver_wake]; carried
  | |- carriesOver _ (notifyWatchers_locked _) =>
      eapply carriesOver_trans; [|apply carriesOver_notify]; carried
  | |- carriesOver _ (on_board _ _) =>
      eapply carriesOver_trans;
        [|apply carriesOver_same; [apply extends_on_board|reflexivity..]]; carried
  | |- carriesOver _ (if ?b then _ else _) => destruct b; carried
  | |- carriesOver _ _ => apply carriesOver_refl
  end.

Section CarriesOverSteps.

Lemma carriesOver_finishPrevious p w :
  carriesOver w (finishPreviousForPlayer_locked p w).
Proof.
  unfold finishPreviousForPlayer_locked.
  destruct (players (board w) !! p) as [l|]; [|carried].
  destruct l as [|[r1 c1] [|[r2 c2] [|? ?]]]; try carried.
  destruct (_ && _ && _); [carried|].
  destruct (foldl turnDown _ _) as [changed b'] eqn:Hfold.
  assert (waiters b' = waiters (board w) ∧ watchers b' = watchers (board w))
    as [Hq Hw].
  { change b' with (changed, b').2. rewrite <- Hfold.
    destruct (queues_turnDown [(r1, c1); (r2, c2)]
                (false, board (on_board (setControlled p [])
                   (on_board (λ b, foldl (relinquishOwned p) b [(r1, c1); (r2, c2)]) w))))
      as [-> ->].
    cbn [snd board on_board setControlled with_players waiters watchers].
    apply queues_relinquishOwned. }
  do 2 (eapply carriesOver_trans; [|apply carriesOver_wake]).
  assert (carriesOver w
            (on_board (λ _, b')
               (on_board (setControlled p [])
                  (on_board (λ b, foldl (relinquishOwned p) b [(r1, c1); (r2, c2)]) w))))
    as Hstart.
  { apply carriesOver_same; [|done..]. by eexists []; rewrite app_nil_r. }
  destruct changed; [|done].
  eapply carriesOver_trans; [exact Hstart|apply carriesOver_notify].
Qed.

Lemma carriesOver_flip_locked p r c w : carriesOver w (flip_locked p r c w).2.
Proof.
  unfold flip_locked. destruct (negb _); [carried|].
  destruct (players (board w) !! p) as [l|]; [|carried].
  destruct l as [|[r0 c0] [|? ?]]; [| |carried].
  - destruct (cardAt (board w) r c); [|carried].
    destruct (_ && _); cbn [snd makeDeferred]; [|carried].
    split; [by eexists []; rewrite app_nil_r|]. split; [|by left].
    intros r' c' x Hx. left. simpl.
    unfold waitersAt, setWaiters. simpl. rewrite at2_put2.
    destruct (decide _) as [(<- & <- & Hsome)|]; [|done].
    simpl. apply elem_of_app. by left.
  - destruct (cardAt (board w) r c); cbn [snd]; [|carried].
    destruct (_ && _); cbn [snd]; [carried|].
    destruct (_ && _ && _); cbn [snd]; carried.
Qed.

Lemma carriesOver_flip_entry p r c w : carriesOver w (flip_entry p r c w).2.
Proof.
  unfold flip_entry. destruct (players (board w) !! p); case_bool_decide;
    cbn [snd]; carried.
Qed.

Lemma carriesOver_map_locked reps w : carriesOver w (map_locked reps w).
Proof.
  unfold map_locked.
  eapply carriesOver_trans; [|apply carriesOver_notify].
  apply carriesOver_same; [apply extends_on_board| |].
  - simpl. generalize (board w). induction reps as [|rep reps IH]; intros b0; simpl; [done|].
    by rewrite IH.
  - simpl. generalize (board w). induction reps as [|rep reps IH]; intros b0; simpl; [done|].
    by rewrite IH.
Qed.

Lemma carriesOver_task_step t w : carriesOver w (task_step t w).2.
Proof.
  destruct t as [p [s|]|p r c pc|p f pc|p pc]; simpl; try apply carriesOver_refl.
  - destruct pc; simpl; try apply carriesOver_refl.
    + pose proof (carriesOver_flip_entry p r c w).
      by destruct (flip_entry p r c w) as [[?|] ?].
    + apply carriesOver_finishPrevious.
    + pose proof (carriesOver_flip_locked p r c w).
      by destruct (flip_locked p r c w) as [[] ?].
    + destruct (resolved d w); apply carriesOver_refl.
  - destruct pc; simpl; try apply carriesOver_refl.
    + repeat case_bool_decide; try apply carriesOver_refl.
      destruct (cardAt _ _ _); apply carriesOver_refl.
    + apply carriesOver_map_locked.
  - destruct pc; simpl; try apply carriesOver_refl.
    + split; [by eexists []; rewrite app_nil_r|]. split; by left.
    + split; [by eexists []; rewrite app_nil_r|]. split; [by left|].
      intros d' Hd'. left. simpl. apply elem_of_app. by left.
    + destruct (resolved d w); apply carriesOver_refl.
Qed.

End CarriesOverSteps.

Section Awaited.

Lemma awaited_carriesOver w w' t : carriesOver w w' → awaited w t → awaited w' t.
Proof.
  intros (He & Hq & Hw). destruct t as [|p r c pc| |p pc]; try done.
  - destruct pc; try done. simpl. intros [Hin|Hres].
    + exact (Hq r c _ Hin).
    + right. by apply (resolved_extends d w).
  - destruct pc; try done. simpl. intros [Hin|Hres].
    + exact (Hw d Hin).
    + right. by apply (resolved_extends d w).
Qed.

Lemma flip_locked_Wait p r c w d :
  Shape (board w) → (flip_locked p r c w).1 = Wait d →
  mkWaiter d p ∈ waitersAt (board (flip_locked p r c w).2) r c.
Proof.
  intros Hs. unfold flip_locked. destruct (negb _); [done|].
  destruct (players (board w) !! p) as [l|]; [|done].
  destruct l as [|[r0 c0] [|? ?]]; [| |done].
  - destruct (cardAt (board w) r c) eqn:Hcard; [|done].
    destruct (_ && _); cbn [fst snd makeDeferred]; [|done].
    intros [= <-]. cbn [board on_board].
    rewrite waitersAt_setWaiters by done.
    assert (inGrid (board w) r c) as Hin by (apply card_inGrid; [done|by rewrite Hcard]).
    rewrite decide_True by done. apply elem_of_app. right. by apply list_elem_of_singleton.
  - destruct (cardAt (board w) r c); cbn [fst]; [|done].
    destruct (_ && _); cbn [fst]; [done|].
    by destruct (_ && _ && _).
Qed.

Lemma awaited_task_step t w :
  Shape (board w) → awaited w t → awaited (task_step t w).2 (task_step t w).1.
Proof.
  intros Hs Ht. destruct t as [p [s|]|p r c pc|p f pc|p pc]; simpl; try done.
  - destruct pc; simpl; try done.
    + by destruct (flip_entry p r c w) as [[?|] ?].
    + pose proof (flip_locked_Wait p r c w) as Hwait.
      destruct (flip_locked p r c w) as [[|reason|d| |e] w']; simpl in *; try done.
      left. by apply Hwait.
    + by destruct (resolved d w).
  - by destruct (map_step p f pc w).
  - destruct pc; simpl; try done.
    + left. apply elem_of_app. right. by apply list_elem_of_singleton.
    + by destruct (resolved d w).
Qed.

Lemma awaited_starting w t : starting t = true → awaited w t.
Proof. destruct t as [p [s|]|p r c []|p f []|p []]; done. Qed.

Lemma awaited_sys_step s s' :
  sys_step s s' → Inv (board s.1) → Forall (awaited s.1) s.2 →
  Forall (awaited s'.1) s'.2.
Proof.
  intros Hstep HI Hts. destruct Hstep as [w ts t Hstart|w ts i t Ht]; simpl in *.
  - apply Forall_app_2; [done|]. apply Forall_singleton. by apply awaited_starting.
  - apply Forall_insert.
    + eapply Forall_impl; [exact Hts|]. intros t'.
      apply awaited_carriesOver, carriesOver_task_step.
    + apply awaited_task_step; [by apply inv_shape|].
      exact (proj1 (Forall_lookup _ _) Hts i t Ht).
Qed.

Lemma awaited_reachable s s' :
  rtc sys_step s s' → Inv (board s.1) → Forall (awaited s.1) s.2 →
  Forall (awaited s'.1) s'.2.
Proof.
  induction 1 as [|s1 s2 s3 Hstep _ IH]; [done|]. intros HI Hts.
  apply IH; [by apply (Inv_sys_step s1)|by apply (awaited_sys_step s1)].
Qed.

End Awaited.

(** X2.  No wake-up of a waiting [flip] is lost.  In every state a run can
    reach from a new board, a call of [flip] that is suspended on its
    deferred either still stands in the queue of the position it asked for,
    under its player's id, or its deferred has been resolved, so that its
    next segment retries. *)
Theorem suspended_flip_is_queued_or_resolved
    (R C : Z) (init : option (list string)) (b0 : Board) (rng : nat → nat)
    (s : World * list Task) (i : nat) (p : string) (r c : Z) (d : nat) :
  newBoard R C init = inr b0 →
  rtc sys_step (initial b0 rng, []) s →
  s.2 !! i = Some (TFlip p r c (FlipAwait d)) →
  mkWaiter d p ∈ waitersAt (board s.1) r c ∨ resolved d s.1 = true.
Proof.
  intros Hnew Hrun Ht.
  pose proof (awaited_reachable _ _ Hrun (Inv_newBoard R C init b0 Hnew)
                (Forall_nil_2 _)) as Hall.
  exact (proj1 (Forall_lookup _ _) Hall i _ Ht).
Qed.

(** X3.  No notification of a watcher is lost.  In every state a run can
    reach from a new board, a call of [watch] that has registered its
    deferred and waits for it either is still in the list of watchers, or
    has been resolved by a change. *)
Theorem registered_watch_is_listed_or_resolved
    (R C : Z) (init : option (list string)) (b0 : Board) (rng : nat → nat)
    (s : World * list Task) (i : nat) (p : string) (d : nat) :
  newBoard R C init = inr b0 →
  rtc sys_step (initial b0 rng, []) s →
  s.2 !! i = Some (TWatch p (WatchAwait d)) →
  d ∈ watchers (board s.1) ∨ resolved d s.1 = true.
Proof.
  intros Hnew Hrun Ht.
  pose proof (awaited_reachable _ _ Hrun (Inv_newBoard R C init b0 Hnew)
                (Forall_nil_2 _)) as Hall.
  exact (proj1 (Forall_lookup _ _) Hall i _ Ht).
Qed.

Lemma polite_calls_settle_regularly_witness :
  let ms := [Call (Examples.flipOf "alice" 0 0); Run 0; Run 0; Run 0; Run 0;
             Call (Examples.flipOf "alice" 0 0); Run 1; Run 1; Run 1] in
  let t := TFlip "alice" 0 0 (FlipDone (Rejected TargetControlled)) in
  (schedule ms (initial Waiting.rowABA Examples.rng0, [])).2 !! 1 = Some t
  ∧ settlesWell t (Rejected TargetControlled).
Proof.
  intros ms t. split; [vm_compute; reflexivity|].
  apply (polite_calls_settle_regularly 1 3 (Some ["A"; "B"; "A"]) Waiting.rowABA
           Examples.rng0 ms 1 t).
  - vm_compute; reflexivity.
  - repeat (apply Forall_cons_2; [by simpl|]). apply Forall_nil_2.
  - vm_compute; reflexivity.
  - reflexivity.
Defined.

Lemma suspended_flip_is_queued_or_resolved_witness :
  Waiting.twoWaiters.2 !! 1 = Some (TFlip "bob" 0 0 (FlipAwait 0))
  ∧ (mkWaiter 0 "bob" ∈ waitersAt (board Waiting.twoWaiters.1) 0 0
     ∨ resolved 0 Waiting.twoWaiters.1 = true).
Proof.
  split; [vm_compute; reflexivity|].
  apply (suspended_flip_is_queued_or_resolved 1 3 (Some ["A"; "B"; "A"])
           Waiting.rowABA Examples.rng0 Waiting.twoWaiters 1).
  - vm_compute; reflexivity.
  - apply schedule_reachable.
  - vm_compute; reflexivity.
Defined.

Lemma registered_watch_is_listed_or_resolved_witness :
  Watching.danaNotified.2 !! 0 = Some (TWatch "dana" (WatchAwait 0))
  ∧ (0 ∈ watchers (board Watching.danaNotified.1)
     ∨ resolved 0 Watching.danaNotified.1 = true).
Proof.
  split; [vm_compute; reflexivity|].
  apply (registered_watch_is_listed_or_resolved 1 3 (Some ["A"; "B"; "A"])
           Waiting.rowABA Examples.rng0 Watching.danaNotified 0 "dana").
  - vm_compute; reflexivity.
  - unfold Watching.danaNotified.
    transitivity Watching.danaWatches; apply schedule_reachable.
  - vm_compute; reflexivity.
Defined.

(** ** The branches of flip *)

Section Enrolled.

Lemma flip_entry_enrolled p r c w :
  inGrid (board w) r c → flip_entry p r c w = (None, enrolled p w).
Proof.
  intros Hin. unfold flip_entry, enrolled.
  destruct (players (board w) !! p); simpl;
    (rewrite bool_decide_eq_false_2; [done|unfold inGrid in Hin; simpl; lia]).
Qed.

Lemma enrolled_record p w :
  players (board (enrolled p w)) !! p = Some (recorded w p).
Proof.
  unfold enrolled, recorded. destruct (players (board w) !! p) eqn:Hp; simpl.
  - done.
  - by rewrite lookup_insert_eq.
Qed.

Lemma enrolled_others p w q :
  q ≠ p → players (board (enrolled p w)) !! q = players (board w) !! q.
Proof.
  intros Hq. unfold enrolled. destruct (players (board w) !! p); simpl; [done|].
  by rewrite lookup_insert_ne.
Qed.

Lemma enrolled_frame p w :
  rows (board (enrolled p w)) = rows (board w)
  ∧ columns (board (enrolled p w)) = columns (board w)
  ∧ cards (board (enrolled p w)) = cards (board w)
  ∧ faceUp (board (enrolled p w)) = faceUp (board w)
  ∧ controlledBy (board (enrolled p w)) = controlledBy (board w)
  ∧ waiters (board (enrolled p w)) = waiters (board w)
  ∧ watchers (board (enrolled p w)) = watchers (board w)
  ∧ trace (enrolled p w) = trace w
  ∧ fresh (enrolled p w) = fresh w.
Proof. unfold enrolled. by destruct (players (board w) !! p). Qed.

Lemma Tidy_enrolled p w : p ≠ "" → Tidy (board w) → Tidy (board (enrolled p w)).
Proof.
  intros Hp HT. unfold enrolled. destruct (players (board w) !! p); [done|].
  apply Tidy_setControlled; [done|by apply recordOk_nil|done].
Qed.

Lemma finishPrevious_idle p w :
  players (board w) !! p = Some [] → finishPreviousForPlayer_locked p w = w.
Proof. intros Hp. unfold finishPreviousForPlayer_locked. by rewrite Hp. Qed.

End Enrolled.

Lemma enrolled_cells p w r c :
  cardAt (board (enrolled p w)) r c = cardAt (board w) r c
  ∧ faceUpAt (board (enrolled p w)) r c = faceUpAt (board w) r c
  ∧ controllerAt (board (enrolled p w)) r c = controllerAt (board w) r c
  ∧ waitersAt (board (enrolled p w)) r c = waitersAt (board w) r c.
Proof. unfold enrolled. by destruct (players (board w) !! p). Qed.

(** X4.  First card, free.  A player with no play pending who flips a card
    that nobody else controls gets it: the call fulfils with the snapshot
    taken at its end, in which the position reads "my <label>"; the card is
    face up, the player controls it and has exactly this position on
    record.  No label, no queue of waiters, no other position and no other
    player's record changes, and the watchers registered before the call
    are all notified by one change. *)
Theorem flip_first_card_takes_free_card
    (p : string) (r c : Z) (label : string) (w : World) :
  Tidy (board w) → p ≠ "" →
  recorded w p = [] →
  cardAt (board w) r c = Some label →
  controllerAt (board w) r c = None ∨ controllerAt (board w) r c = Some p →
  let w' := (flip p r c w).2 in
  (flip p r c w).1 = FlipDone (Fulfilled (snapshot (board w') p))
  ∧ cellLine (board w') p r c = "my " +:+ label
  ∧ faceUpAt (board w') r c = true
  ∧ controllerAt (board w') r c = Some p
  ∧ players (board w') !! p = Some [(r, c)]
  ∧ (∀ q, q ≠ p → players (board w') !! q = players (board w) !! q)
  ∧ cards (board w') = cards (board w)
  ∧ waiters (board w') = waiters (board w)
  ∧ (∀ r' c', ¬ (r' = r ∧ c' = c) →
       faceUpAt (board w') r' c' = faceUpAt (board w) r' c'
       ∧ controllerAt (board w') r' c' = controllerAt (board w) r' c')
  ∧ watchers (board w') = []
  ∧ ∃ b1, trace w' = trace w ++ [(Change (watchers (board w)), b1)]
          ∧ board w' = with_watchers [] b1.
Proof.
  intros HT Hp Hrec Hcard Howner.
  set (w0 := enrolled p w).
  assert (Tidy (board w0)) as HT0 by by apply Tidy_enrolled.
  pose proof (inv_shape _ (tidy_inv _ HT0)) as Hs0.
  assert (inGrid (board w) r c) as Hin.
  { apply card_inGrid; [apply HT|by rewrite Hcard]. }
  destruct (enrolled_frame p w) as (HR & HC & Hcs & Hfu & Hcb & Hq & Hws & Htr & _).
  fold w0 in HR, HC, Hcs, Hfu, Hcb, Hq, Hws, Htr.
  assert (inGrid (board w0) r c) as Hin0 by (unfold inGrid; by rewrite HR, HC).
  assert (players (board w0) !! p = Some []) as Hrec0.
  { unfold w0. by rewrite enrolled_record, Hrec. }
  assert (∀ r' c', cardAt (board w0) r' c' = cardAt (board w) r' c'
                   ∧ faceUpAt (board w0) r' c' = faceUpAt (board w) r' c'
                   ∧ controllerAt (board w0) r' c' = controllerAt (board w) r' c')
    as Hcells.
  { intros r' c'. destruct (enrolled_cells p w r' c') as (? & ? & ? & _). done. }
  set (w3 := notifyWatchers_locked
               (on_board (setControlled p ([] ++ [(r, c)]))
                  (on_board (setController r c (Some p))
                     (on_board (setFaceUp r c true) w0)))).
  assert (flip_locked p r c w0 = (Ok, w3)) as Htry.
  { unfold flip_locked. rewrite (Tidy_checkRep _ HT0), Hrec0. cbn [negb].
    destruct (Hcells r c) as (-> & _ & ->). rewrite Hcard.
    destruct Howner as [-> | ->]; [done|].
    by rewrite bool_decide_eq_true_2, andb_false_r. }
  assert (Tidy (board w3)) as HT3.
  { pose proof (Tidy_flip_locked p r c w0 Hp HT0) as HT3. by rewrite Htry in HT3. }
  assert (flip p r c w = (FlipDone (Fulfilled (snapshot (board w3) p)), w3)) as Hflip.
  { unfold flip. cbn [flip_run flip_step]. rewrite flip_entry_enrolled by done.
    cbn [flip_run flip_step]. fold w0. rewrite finishPrevious_idle by done.
    rewrite Htry. cbn [flip_run flip_step]. by rewrite look_locked_Tidy. }
  rewrite Hflip. cbn [fst snd].
  assert (Shape (setFaceUp r c true (board w0))) as Hs1 by auto with board.
  assert (faceUpAt (board w3) r c = true) as Hup.
  { unfold w3. simpl. autorewrite with board.
    rewrite faceUpAt_setFaceUp by done. by rewrite decide_True. }
  assert (controllerAt (board w3) r c = Some p) as Hmine.
  { unfold w3. simpl. autorewrite with board.
    rewrite controllerAt_setController by done. by rewrite decide_True. }
  assert (cardAt (board w3) r c = Some label) as Hcard3.
  { unfold w3. simpl. autorewrite with board. by rewrite (proj1 (Hcells r c)). }
  split; [done|]. split.
  { unfold cellLine. rewrite Hcard3, Hup, Hmine. simpl.
    by rewrite bool_decide_eq_true_2. }
  split; [done|]. split; [done|]. split.
  { unfold w3. simpl. by rewrite lookup_insert_eq. }
  split.
  { intros q Hq'. unfold w3. simpl. rewrite lookup_insert_ne by done.
    by apply enrolled_others. }
  split; [by rewrite <- Hcs|]. split; [by rewrite <- Hq|]. split.
  { intros r' c' Hother. unfold w3. simpl. autorewrite with board.
    rewrite faceUpAt_setFaceUp, controllerAt_setController by done.
    rewrite !decide_False by (intros (-> & -> & _); by apply Hother).
    autorewrite with board.
    destruct (Hcells r' c') as (_ & -> & ->). done. }
  split; [done|].
  eexists. split; [|reflexivity]. unfold w3. simpl. by rewrite Htr, Hws.
Qed.

Lemma flip_run_suspended n p r c d w :
  resolved d w = false → flip_run n p r c (FlipAwait d) w = (FlipAwait d, w).
Proof.
  intros Hd. induction n as [|n IH]; [done|].
  cbn [flip_run flip_step]. by rewrite Hd.
Qed.

(** X5.  First card, held by somebody else.  A player with no play pending
    who flips a card that another player controls is suspended: the call
    appends one waiter, with a new deferred and the player's id, to the end
    of the queue of that position, and stays suspended however often it is
    scheduled, as long as that deferred is not resolved.  Nothing else
    changes: no label, face, controller or other queue, no watcher is
    notified, and the player's record stays empty. *)
Theorem flip_first_card_waits_for_held_card
    (p q : string) (r c : Z) (label : string) (w : World) (n : nat) :
  Tidy (board w) → p ≠ "" →
  recorded w p = [] →
  cardAt (board w) r c = Some label →
  controllerAt (board w) r c = Some q → q ≠ p →
  resolved (fresh w) w = false →
  let d := fresh w in
  let w' := (flip_run (3 + n) p r c FlipEntry w).2 in
  (flip_run (3 + n) p r c FlipEntry w).1 = FlipAwait d
  ∧ waitersAt (board w') r c = waitersAt (board w) r c ++ [mkWaiter d p]
  ∧ (∀ r' c', ¬ (r' = r ∧ c' = c) →
       waitersAt (board w') r' c' = waitersAt (board w) r' c')
  ∧ cards (board w') = cards (board w)
  ∧ faceUp (board w') = faceUp (board w)
  ∧ controlledBy (board w') = controlledBy (board w)
  ∧ watchers (board w') = watchers (board w)
  ∧ trace w' = trace w
  ∧ players (board w') !! p = Some []
  ∧ (∀ p', p' ≠ p → players (board w') !! p' = players (board w) !! p').
Proof.
  intros HT Hp Hrec Hcard Hheld Hq Hfresh d.
  set (w0 := enrolled p w).
  assert (Tidy (board w0)) as HT0 by by apply Tidy_enrolled.
  pose proof (inv_shape _ (tidy_inv _ HT0)) as Hs0.
  assert (inGrid (board w) r c) as Hin.
  { apply card_inGrid; [apply HT|by rewrite Hcard]. }
  destruct (enrolled_frame p w) as (HR & HC & Hcs & Hfu & Hcb & Hqs & Hws & Htr & Hfr).
  fold w0 in HR, HC, Hcs, Hfu, Hcb, Hqs, Hws, Htr, Hfr.
  assert (inGrid (board w0) r c) as Hin0 by (unfold inGrid; by rewrite HR, HC).
  assert (players (board w0) !! p = Some []) as Hrec0.
  { unfold w0. by rewrite enrolled_record, Hrec. }
  assert (∀ r' c', waitersAt (board w0) r' c' = waitersAt (board w) r' c') as Hqueue.
  { intros r' c'. by destruct (enrolled_cells p w r' c') as (_ & _ & _ & ?). }
  set (w3 := on_board (setWaiters r c (waitersAt (board w) r c ++ [mkWaiter d p]))
               (makeDeferred w0).2).
  assert (flip_locked p r c w0 = (Wait d, w3)) as Htry.
  { unfold flip_locked. rewrite (Tidy_checkRep _ HT0), Hrec0. cbn [negb].
    assert (cardAt (board w0) r c = Some label
            ∧ controllerAt (board w0) r c = Some q) as [-> ->].
    { destruct (enrolled_cells p w r c) as (Hc0 & _ & Ho0 & _).
      split; [exact (eq_trans Hc0 Hcard)|exact (eq_trans Ho0 Hheld)]. }
    assert (q ≠ "") as Hq' by exact (tidy_owners _ HT _ _ _ Hheld).
    cbn [truthy]. rewrite bool_decide_eq_false_2 by done.
    rewrite bool_decide_eq_false_2 by congruence.
    cbn [negb andb makeDeferred]. unfold w3, d. cbn [makeDeferred snd board].
    by rewrite Hfr, Hqueue. }
  assert (trace w3 = trace w) as Htr3 by done.
  assert (flip_run (3 + n) p r c FlipEntry w = (FlipAwait d, w3)) as Hflip.
  { cbn [Nat.add flip_run flip_step]. rewrite flip_entry_enrolled by done.
    cbn [flip_run flip_step]. fold w0. rewrite finishPrevious_idle by done.
    rewrite Htry. apply flip_run_suspended.
    unfold resolved. rewrite Htr3. exact Hfresh. }
  cbn zeta. rewrite Hflip. cbn [fst snd].
  split; [done|]. split.
  { unfold w3. simpl. rewrite waitersAt_setWaiters by done. by rewrite decide_True. }
  split.
  { intros r' c' Hother. unfold w3. simpl. rewrite waitersAt_setWaiters by done.
    rewrite decide_False by (intros (-> & -> & _); by apply Hother). apply Hqueue. }
  split; [done|]. split; [done|]. split; [done|]. split; [done|]. split; [done|].
  split; [done|]. intros p'. apply enrolled_others.
Qed.

(** X6.  A flip on a position whose card has been removed rejects with "no
    card at location".  As a first card it changes nothing, apart from the
    empty record of a player seen for the first time.  As a second card it
    makes the player give up the first card, which stays face up and on the
    player's record; no label, face or queue changes, nobody waiting for the
    first card is woken and no watcher is notified. *)
Theorem flip_on_empty_position_rejects (p : string) (r c : Z) (w : World) :
  Tidy (board w) → p ≠ "" →
  inGrid (board w) r c →
  cardAt (board w) r c = None →
  (recorded w p = [] →
     flip p r c w = (FlipDone (Rejected NoCardHere), enrolled p w))
  ∧ (∀ r0 c0,
       players (board w) !! p = Some [(r0, c0)] →
       controllerAt (board w) r0 c0 = Some p →
       let w' := (flip p r c w).2 in
       (flip p r c w).1 = FlipDone (Rejected NoCardHere)
       ∧ controllerAt (board w') r0 c0 = None
       ∧ faceUpAt (board w') r0 c0 = true
       ∧ (∀ r' c', ¬ (r' = r0 ∧ c' = c0) →
            controllerAt (board w') r' c' = controllerAt (board w) r' c')
       ∧ players (board w') = players (board w)
       ∧ cards (board w') = cards (board w)
       ∧ faceUp (board w') = faceUp (board w)
       ∧ waiters (board w') = waiters (board w)
       ∧ watchers (board w') = watchers (board w)
       ∧ trace w' = trace w).
Proof.
  intros HT Hp Hin Hcard. split.
  - intros Hrec. set (w0 := enrolled p w).
    assert (Tidy (board w0)) as HT0 by by apply Tidy_enrolled.
    assert (players (board w0) !! p = Some []) as Hrec0.
    { unfold w0. by rewrite enrolled_record, Hrec. }
    assert (flip_locked p r c w0 = (Fail NoCardHere, w0)) as Htry.
    { unfold flip_locked. rewrite (Tidy_checkRep _ HT0), Hrec0. cbn [negb].
      assert (cardAt (board w0) r c = None) as ->; [|done].
      destruct (enrolled_cells p w r c) as (Hc0 & _). exact (eq_trans Hc0 Hcard). }
    unfold flip. cbn [flip_run flip_step]. rewrite flip_entry_enrolled by done.
    cbn [flip_run flip_step]. fold w0. rewrite finishPrevious_idle by done.
    by rewrite Htry.
  - intros r0 c0 Hrec Hheld.
    pose proof (tidy_inv _ HT) as HI. pose proof (inv_shape _ HI) as Hs.
    assert (inGrid (board w) r0 c0) as Hin0.
    { apply (recorded_inGrid _ p [(r0, c0)] (r0, c0)); [done..|]. by constructor. }
    destruct (held_card_present _ _ _ _ HI Hheld) as [_ Hup].
    assert (flip_locked p r c w
            = (Fail NoCardHere,
               on_board (setControlled p [(r0, c0)])
                 (on_board (setController r0 c0 None) w))) as Htry.
    { unfold flip_locked. rewrite (Tidy_checkRep _ HT), Hrec, Hcard. done. }
    unfold flip. cbn [flip_run flip_step].
    rewrite (flip_entry_inGrid p r c w _ Hrec Hin). cbn [flip_run flip_step].
    rewrite (finishPrevious_one_controlled p r0 c0 p w Hrec Hheld), Htry.
    cbn [flip_run flip_step fst snd board on_board].
    split; [done|]. autorewrite with board.
    split; [rewrite controllerAt_setController by done; by rewrite decide_True|].
    split; [done|]. split.
    { intros r' c' Hother. autorewrite with board.
      rewrite controllerAt_setController by done.
      by rewrite decide_False by (intros (-> & -> & _); by apply Hother). }
    split; [by apply insert_id|]. done.
Qed.

(** X7.  Second card, matching.  A player who holds one card and flips a
    second one that nobody controls and that bears the same label keeps
    both: the call fulfils with the snapshot taken at its end, in which both
    positions read "my <label>"; both are face up and controlled by the
    player, whose record lists the first and then the second.  No label, no
    queue, no other position and no other player's record changes, nobody
    is woken, and the watchers are notified by one change. *)
Theorem flip_second_card_match_keeps_both
    (p : string) (r c r0 c0 : Z) (label : string) (w : World) :
  Tidy (board w) →
  players (board w) !! p = Some [(r0, c0)] →
  controllerAt (board w) r0 c0 = Some p →
  cardAt (board w) r0 c0 = Some label →
  cardAt (board w) r c = Some label →
  controllerAt (board w) r c = None →
  let w' := (flip p r c w).2 in
  (flip p r c w).1 = FlipDone (Fulfilled (snapshot (board w') p))
  ∧ cellLine (board w') p r0 c0 = "my " +:+ label
  ∧ cellLine (board w') p r c = "my " +:+ label
  ∧ faceUpAt (board w') r c = true
  ∧ controllerAt (board w') r c = Some p
  ∧ players (board w') !! p = Some [(r0, c0); (r, c)]
  ∧ (∀ q, q ≠ p → players (board w') !! q = players (board w) !! q)
  ∧ cards (board w') = cards (board w)
  ∧ waiters (board w') = waiters (board w)
  ∧ (∀ r' c', ¬ (r' = r ∧ c' = c) →
       faceUpAt (board w') r' c' = faceUpAt (board w) r' c'
       ∧ controllerAt (board w') r' c' = controllerAt (board w) r' c')
  ∧ ∃ b1, trace w' = trace w ++ [(Change (watchers (board w)), b1)]
          ∧ board w' = with_watchers [] b1.
Proof.
  intros HT Hrec Hheld Hcard0 Hcard Hfree.
  pose proof (tidy_inv _ HT) as HI. pose proof (inv_shape _ HI) as Hs.
  destruct (tidy_records _ HT p _ Hrec) as (Hp & _).
  assert (inGrid (board w) r c) as Hin.
  { apply card_inGrid; [done|by rewrite Hcard]. }
  assert (inGrid (board w) r0 c0) as Hin0.
  { apply card_inGrid; [done|by rewrite Hcard0]. }
  destruct (held_card_present _ _ _ _ HI Hheld) as [_ Hup0].
  assert (¬ (r0 = r ∧ c0 = c)) as Hne by (intros [-> ->]; congruence).
  set (bu := setFaceUp r c true (board w)).
  assert (Shape bu) as Hsu by (subst bu; auto with board).
  set (b1 := setControlled p ([(r0, c0)] ++ [(r, c)]) (setController r c (Some p) bu)).
  set (w3 := notifyWatchers_locked (mkWorld b1 (fresh w) (rng w) (draws w) (trace w))).
  assert (flip_locked p r c w = (Ok, w3)) as Htry.
  { unfold flip_locked. rewrite (Tidy_checkRep _ HT), Hrec. cbn [negb].
    rewrite Hcard, Hfree. cbn [truthy]. rewrite andb_false_r.
    destruct (faceUpAt (board w) r c) eqn:Hup; cbn [negb board on_board];
      autorewrite with board; rewrite Hcard, Hcard0;
      rewrite !bool_decide_eq_true_2 by done; cbn [andb];
      subst w3 b1 bu; [|reflexivity].
    by rewrite setFaceUp_already. }
  assert (Tidy (board w3)) as HT3.
  { pose proof (Tidy_flip_locked p r c w Hp HT) as HT3. by rewrite Htry in HT3. }
  assert (flip p r c w = (FlipDone (Fulfilled (snapshot (board w3) p)), w3)) as Hflip.
  { unfold flip. cbn [flip_run flip_step].
    rewrite (flip_entry_inGrid p r c w _ Hrec Hin). cbn [flip_run flip_step].
    rewrite (finishPrevious_one_controlled p r0 c0 p w Hrec Hheld), Htry.
    cbn [flip_run flip_step]. by rewrite look_locked_Tidy. }
  rewrite Hflip. cbn [fst snd].
  assert (∀ r' c', cardAt (board w3) r' c' = cardAt (board w) r' c') as Hcards.
  { intros r' c'. unfold w3, b1, bu. simpl. by autorewrite with board. }
  assert (∀ r' c', faceUpAt (board w3) r' c'
                   = if decide (r = r' ∧ c = c' ∧ inGrid (board w) r c)
                     then true else faceUpAt (board w) r' c') as Hfaces.
  { intros r' c'. unfold w3, b1, bu. simpl. autorewrite with board.
    by rewrite faceUpAt_setFaceUp. }
  assert (∀ r' c', controllerAt (board w3) r' c'
                   = if decide (r = r' ∧ c = c' ∧ inGrid (board w) r c)
                     then Some p else controllerAt (board w) r' c') as Howners.
  { intros r' c'. unfold w3, b1. simpl. autorewrite with board.
    rewrite controllerAt_setController by done. unfold bu.
    by autorewrite with board. }
  assert (faceUpAt (board w3) r c = true) as Hup by by rewrite Hfaces, decide_True.
  assert (controllerAt (board w3) r c = Some p) as Hmine
    by by rewrite Howners, decide_True.
  assert (faceUpAt (board w3) r0 c0 = true
          ∧ controllerAt (board w3) r0 c0 = Some p) as [Hup0' Hmine0].
  { rewrite Hfaces, Howners.
    by rewrite !decide_False by (intros (-> & -> & _); by apply Hne). }
  split; [done|]. split.
  { unfold cellLine. rewrite Hcards, Hcard0, Hup0', Hmine0. simpl.
    by rewrite bool_decide_eq_true_2. }
  split.
  { unfold cellLine. rewrite Hcards, Hcard, Hup, Hmine. simpl.
    by rewrite bool_decide_eq_true_2. }
  split; [done|]. split; [done|]. split.
  { unfold w3, b1. simpl. by rewrite lookup_insert_eq. }
  split.
  { intros q Hq. unfold w3, b1. simpl. by rewrite lookup_insert_ne. }
  split; [done|]. split; [done|]. split.
  { intros r' c' Hother. rewrite Hfaces, Howners.
    by rewrite !decide_False by (intros (-> & -> & _); by apply Hother). }
  eexists. split; reflexivity.
Qed.

(** ** Finishing the previous play *)

(** Settle a case analysis on positions of the grid. *)
Ltac positions :=
  cases; try done; unfold inGrid in *; simpl in *;
  destruct_or?; destruct_and?; subst; intuition (auto; congruence).

Section Finish.

Lemma players_with_watchers ws b : players (with_watchers ws b) = players b.
Proof. reflexivity. Qed.

Lemma wake_removed r c w :
  cardAt (board w) r c = None →
  let w' := wakeNextWaiter_locked r c w in
  cards (board w') = cards (board w)
  ∧ faceUp (board w') = faceUp (board w)
  ∧ controlledBy (board w') = controlledBy (board w)
  ∧ players (board w') = players (board w)
  ∧ watchers (board w') = watchers (board w)
  ∧ (∀ r' c', ¬ (r' = r ∧ c' = c) →
       waitersAt (board w') r' c' = waitersAt (board w) r' c')
  ∧ ∃ fulfilled, trace w' = trace w ++ fulfilled
                 ∧ Forall (λ e : Effect * Board, ∃ d, e.1 = Fulfil d) fulfilled.
Proof.
  intros Hcard. cbn zeta.
  destruct (waitersAt (board w) r c) as [|x0 q0] eqn:Hq.
  { rewrite wake_empty by done. do 6 (split; [done|]).
    exists []. by rewrite app_nil_r. }
  assert (waitersAt (board w) r c ≠ []) as Hne by by rewrite Hq.
  destruct (picked_lookup (waitersAt (board w) r c) w Hne) as [item Hitem].
  rewrite (wake_nonempty r c w item Hitem). cbn zeta. rewrite Hcard.
  do 5 (split; [done|]). split.
  - intros r' c' Hother. simpl. rewrite waitersAt_setWaiters_queue by done.
    by rewrite decide_False by (intros [-> ->]; by apply Hother).
  - eexists. split; [reflexivity|]. apply Forall_singleton. by eexists.
Qed.

End Finish.

(** X8.  Removing a matched pair.  When the two positions on a player's
    record bear the same label, finishing the player's previous play removes
    both cards: the two positions end up empty, face down and controlled by
    nobody, the player's record is empty and no record mentions either
    position any more.  Every other position keeps its label, face,
    controller and queue.  The watchers are notified by one change, after
    which only waiters are fulfilled; a waiter of one of the two positions
    that has left its queue has been resolved. *)
Theorem finishPrevious_removes_matched_pair
    (p : string) (r1 c1 r2 c2 : Z) (label : string) (w : World) :
  Inv (board w) →
  players (board w) !! p = Some [(r1, c1); (r2, c2)] →
  cardAt (board w) r1 c1 = Some label →
  cardAt (board w) r2 c2 = Some label →
  let w' := finishPreviousForPlayer_locked p w in
  (∀ r c, (r = r1 ∧ c = c1) ∨ (r = r2 ∧ c = c2) →
     cardAt (board w') r c = None
     ∧ faceUpAt (board w') r c = false
     ∧ controllerAt (board w') r c = None)
  ∧ (∀ r c, ¬ (r = r1 ∧ c = c1) → ¬ (r = r2 ∧ c = c2) →
       cardAt (board w') r c = cardAt (board w) r c
       ∧ faceUpAt (board w') r c = faceUpAt (board w) r c
       ∧ controllerAt (board w') r c = controllerAt (board w) r c
       ∧ waitersAt (board w') r c = waitersAt (board w) r c)
  ∧ players (board w') !! p = Some []
  ∧ (∀ q l, players (board w') !! q = Some l → ((r1, c1) ∉ l) ∧ ((r2, c2) ∉ l))
  ∧ (∀ q l, q ≠ p → players (board w) !! q = Some l →
       players (board w') !! q
       = Some (filter (λ pp : Z * Z, ¬ (pp.1 = r2 ∧ pp.2 = c2))
                 (filter (λ pp : Z * Z, ¬ (pp.1 = r1 ∧ pp.2 = c1)) l)))
  ∧ (∀ r c item, item ∈ waitersAt (board w) r c →
       item ∈ waitersAt (board w') r c ∨ resolved (deferred item) w' = true)
  ∧ ∃ b1 fulfilled,
      trace w' = trace w ++ (Change (watchers (board w)), b1) :: fulfilled
      ∧ Forall (λ e : Effect * Board, ∃ d, e.1 = Fulfil d) fulfilled.
Proof.
  intros HI Hrec Hcard1 Hcard2. pose proof (inv_shape _ HI) as Hs.
  assert (inGrid (board w) r1 c1) as Hin1.
  { apply card_inGrid; [done|by rewrite Hcard1]. }
  assert (inGrid (board w) r2 c2) as Hin2.
  { apply card_inGrid; [done|by rewrite Hcard2]. }
  set (b1 := removePositionFromAllPlayers_locked r2 c2
               (removePositionFromAllPlayers_locked r1 c1
                  (setControlled p []
                     (setController r2 c2 None
                        (setController r1 c1 None
                           (setFaceUp r2 c2 false
                              (setFaceUp r1 c1 false
                                 (setCard r2 c2 None
                                    (setCard r1 c1 None (board w)))))))))).
  set (w1 := notifyWatchers_locked (mkWorld b1 (fresh w) (rng w) (draws w) (trace w))).
  cbn zeta.
  assert (finishPreviousForPlayer_locked p w
          = wakeNextWaiter_locked r2 c2 (wakeNextWaiter_locked r1 c1 w1)) as ->.
  { unfold finishPreviousForPlayer_locked. rewrite Hrec, Hcard1, Hcard2.
    by rewrite !bool_decide_eq_true_2. }
  assert (∀ r c, cardAt b1 r c
                 = if decide ((r = r1 ∧ c = c1) ∨ (r = r2 ∧ c = c2))
                   then None else cardAt (board w) r c) as Hcards.
  { intros r c. unfold b1. autorewrite with board.
    rewrite !cardAt_setCard by auto with board.
    positions. }
  assert (∀ r c, faceUpAt b1 r c
                 = if decide ((r = r1 ∧ c = c1) ∨ (r = r2 ∧ c = c2))
                   then false else faceUpAt (board w) r c) as Hfaces.
  { intros r c. unfold b1. autorewrite with board.
    rewrite !faceUpAt_setFaceUp by auto with board. autorewrite with board.
    positions. }
  assert (∀ r c, controllerAt b1 r c
                 = if decide ((r = r1 ∧ c = c1) ∨ (r = r2 ∧ c = c2))
                   then None else controllerAt (board w) r c) as Howners.
  { intros r c. unfold b1. autorewrite with board.
    rewrite !controllerAt_setController by auto 6 with board. autorewrite with board.
    positions. }
  set (w2 := wakeNextWaiter_locked r1 c1 w1).
  assert (board w1 = with_watchers [] b1) as Hb1 by reflexivity.
  assert (cardAt (board w1) r1 c1 = None) as Hgone1.
  { rewrite Hb1. rewrite cardAt_with_watchers, Hcards. by rewrite decide_True by auto. }
  destruct (wake_removed r1 c1 w1 Hgone1)
    as (Hcs2 & Hfu2 & Hcb2 & Hpl2 & _ & Hq2 & ev2 & Htr2 & Hev2).
  fold w2 in Hcs2, Hfu2, Hcb2, Hpl2, Hq2, Htr2.
  assert (cardAt (board w2) r2 c2 = None) as Hgone2.
  { unfold cardAt. rewrite Hcs2. fold (cardAt (board w1) r2 c2).
    rewrite Hb1, cardAt_with_watchers, Hcards.
    by rewrite decide_True by auto. }
  set (w3 := wakeNextWaiter_locked r2 c2 w2).
  destruct (wake_removed r2 c2 w2 Hgone2)
    as (Hcs3 & Hfu3 & Hcb3 & Hpl3 & _ & Hq3 & ev3 & Htr3 & Hev3).
  fold w3 in Hcs3, Hfu3, Hcb3, Hpl3, Hq3, Htr3.
  assert (trace w1 = trace w ++ [(Change (watchers (board w)), b1)]) as Htr1
    by reflexivity.
  assert (∀ r c, cardAt (board w3) r c = cardAt b1 r c) as Hc3.
  { intros r c. unfold cardAt. rewrite Hcs3, Hcs2. fold (cardAt (board w1) r c).
    rewrite Hb1. apply cardAt_with_watchers. }
  assert (∀ r c, faceUpAt (board w3) r c = faceUpAt b1 r c) as Hf3.
  { intros r c. unfold faceUpAt. rewrite Hfu3, Hfu2. fold (faceUpAt (board w1) r c).
    rewrite Hb1. apply faceUpAt_with_watchers. }
  assert (∀ r c, controllerAt (board w3) r c = controllerAt b1 r c) as Ho3.
  { intros r c. unfold controllerAt. rewrite Hcb3, Hcb2.
    fold (controllerAt (board w1) r c). rewrite Hb1. apply controllerAt_with_watchers. }
  assert (∀ r c, waitersAt (board w1) r c = waitersAt (board w) r c) as Hq1.
  { intros r c. rewrite Hb1. rewrite waitersAt_with_watchers. unfold b1.
    by autorewrite with board. }
  assert (players (board w3)
          = filter (λ pp : Z * Z, ¬ (pp.1 = r2 ∧ pp.2 = c2))
              <$> (filter (λ pp : Z * Z, ¬ (pp.1 = r1 ∧ pp.2 = c1))
                     <$> <[p := []]> (players (board w)))) as Hp3.
  { rewrite Hpl3, Hpl2, Hb1. apply players_with_watchers. }
  split.
  { intros r c Hpos. rewrite Hc3, Hf3, Ho3, Hcards, Hfaces, Howners.
    by rewrite !decide_True. }
  split.
  { intros r c Hn1 Hn2. rewrite Hc3, Hf3, Ho3, Hcards, Hfaces, Howners.
    rewrite !decide_False by tauto. do 3 (split; [done|]).
    rewrite Hq3, Hq2 by done. apply Hq1. }
  split.
  { by rewrite Hp3, !lookup_fmap, lookup_insert_eq. }
  split.
  { intros q l. rewrite Hp3, !lookup_fmap.
    destruct (_ !! q) as [l0|]; [|done]. simpl. intros [= <-].
    split; intros Hin; repeat apply list_elem_of_filter in Hin as [? Hin];
      simpl in *; tauto. }
  split.
  { intros q l Hq Hl. rewrite Hp3, !lookup_fmap.
    rewrite lookup_insert_ne by done. by rewrite Hl. }
  split.
  { intros r c item Hitem.
    assert (carriesOver w w1) as H1.
    { split; [eexists; exact Htr1|]. split.
      - intros r' c' x Hx. left. by rewrite Hq1.
      - intros d Hd. right. unfold resolved. rewrite Htr1, existsb_app.
        cbn [existsb resolves fst]. rewrite bool_decide_eq_true_2 by done.
        by rewrite orb_true_r. }
    assert (carriesOver w w3) as (_ & Hkeep & _).
    { eapply carriesOver_trans; [exact H1|].
      eapply carriesOver_trans; apply carriesOver_wake. }
    by apply Hkeep. }
  exists b1, (ev2 ++ ev3). split.
  - rewrite Htr3, Htr2, Htr1. by rewrite <- app_assoc, <- app_assoc.
  - by apply Forall_app_2.
Qed.

Section Mismatch.

Lemma relinquishOwned_cells p b r0 c0 :
  Inv b →
  let b' := relinquishOwned p b (r0, c0) in
  cards b' = cards b ∧ faceUp b' = faceUp b ∧ waiters b' = waiters b
  ∧ players b' = players b ∧ watchers b' = watchers b
  ∧ ∀ r c, controllerAt b' r c
           = if decide (r = r0 ∧ c = c0 ∧ controllerAt b r c = Some p)
             then None else controllerAt b r c.
Proof.
  intros HI. pose proof (inv_shape _ HI) as Hs. cbn zeta. unfold relinquishOwned.
  destruct (bool_decide (cardAt b r0 c0 ≠ None)) eqn:Hcard;
    [destruct (bool_decide (controllerAt b r0 c0 = Some p)) eqn:Hown|]; cbn [andb].
  - apply bool_decide_eq_true in Hcard, Hown. do 5 (split; [done|]).
    intros r c. rewrite controllerAt_setController by done.
    pose proof (card_inGrid _ _ _ Hs Hcard). positions.
  - apply bool_decide_eq_false in Hown. do 5 (split; [done|]).
    intros r c. positions.
  - apply bool_decide_eq_false in Hcard. do 5 (split; [done|]).
    intros r c. destruct (decide _) as [(-> & -> & Hown)|]; [|done].
    destruct (held_card_present _ _ _ _ HI Hown). tauto.
Qed.

Lemma turnDown_cells changed b r0 c0 :
  Inv b →
  let acc := turnDown (changed, b) (r0, c0) in
  cards acc.2 = cards b ∧ controlledBy acc.2 = controlledBy b
  ∧ waiters acc.2 = waiters b ∧ watchers acc.2 = watchers b
  ∧ (∀ q, players b !! q = Some [] → players acc.2 !! q = Some [])
  ∧ (∀ r c, faceUpAt acc.2 r c
            = if decide (r = r0 ∧ c = c0 ∧ controllerAt b r c = None)
              then false else faceUpAt b r c)
  ∧ (acc.1 = true
     ↔ changed = true ∨ faceUpAt b r0 c0 = true ∧ controllerAt b r0 c0 = None).
Proof.
  intros HI. pose proof (inv_shape _ HI) as Hs. cbn zeta. unfold turnDown.
  destruct (bool_decide (cardAt b r0 c0 ≠ None)) eqn:Hcard;
    [destruct (faceUpAt b r0 c0) eqn:Hup;
       [destruct (bool_decide (controllerAt b r0 c0 = None)) eqn:Hfree|]|];
    cbn [andb fst snd].
  - apply bool_decide_eq_true in Hcard, Hfree. do 4 (split; [done|]).
    split; [intros q Hq; simpl; by rewrite lookup_fmap, Hq|]. split; [|tauto].
    intros r c. autorewrite with board. rewrite faceUpAt_setFaceUp by done.
    pose proof (card_inGrid _ _ _ Hs Hcard). positions.
  - apply bool_decide_eq_false in Hfree. do 5 (split; [done|]).
    split; [|tauto]. intros r c. positions.
  - do 5 (split; [done|]). split; [|intuition congruence].
    intros r c. positions.
  - apply bool_decide_eq_false in Hcard.
    assert (cardAt b r0 c0 = None) as Hgone by by destruct (cardAt b r0 c0); [destruct Hcard|].
    destruct (inv_bare _ HI _ _ Hgone) as [Hdown _].
    do 5 (split; [done|]). split; [|intuition congruence].
    intros r c. positions.
Qed.

End Mismatch.

(** Case analysis on every [decide] of the goal, innermost first. *)
Ltac cases_inside :=
  repeat (match goal with
          | |- context [decide ?P] =>
              lazymatch P with
              | context [decide _] => fail
              | _ => destruct (decide P)
              end
          end; cbv beta iota).

(** X9.  Turning down a mismatched pair.  When the two positions on a
    player's record do not bear the same label, finishing the player's
    previous play first settles the two cards and then wakes one waiter of
    each position.  Settling leaves alone a card that another player
    controls; every other card of the two ends face down and controlled by
    nobody.  The player's record becomes empty; no label, no queue and no
    other position changes; the watchers are notified by one change if a
    card was turned face down, and not at all otherwise. *)
Theorem finishPrevious_turns_down_mismatched_pair
    (p : string) (r1 c1 r2 c2 : Z) (w : World) :
  Inv (board w) →
  players (board w) !! p = Some [(r1, c1); (r2, c2)] →
  ¬ (cardAt (board w) r1 c1 ≠ None
     ∧ cardAt (board w) r1 c1 = cardAt (board w) r2 c2) →
  ∃ w4,
    finishPreviousForPlayer_locked p w
    = wakeNextWaiter_locked r2 c2 (wakeNextWaiter_locked r1 c1 w4)
    ∧ (waitersAt (board w) r1 c1 = [] → waitersAt (board w) r2 c2 = [] →
       finishPreviousForPlayer_locked p w = w4)
    ∧ (∀ r c q, (r = r1 ∧ c = c1) ∨ (r = r2 ∧ c = c2) →
         controllerAt (board w) r c = Some q → q ≠ p →
         controllerAt (board w4) r c = Some q
         ∧ faceUpAt (board w4) r c = faceUpAt (board w) r c)
    ∧ (∀ r c, (r = r1 ∧ c = c1) ∨ (r = r2 ∧ c = c2) →
         controllerAt (board w) r c = None ∨ controllerAt (board w) r c = Some p →
         controllerAt (board w4) r c = None ∧ faceUpAt (board w4) r c = false)
    ∧ (∀ r c, ¬ (r = r1 ∧ c = c1) → ¬ (r = r2 ∧ c = c2) →
         controllerAt (board w4) r c = controllerAt (board w) r c
         ∧ faceUpAt (board w4) r c = faceUpAt (board w) r c)
    ∧ cards (board w4) = cards (board w)
    ∧ waiters (board w4) = waiters (board w)
    ∧ players (board w4) !! p = Some []
    ∧ ((∃ r c, ((r = r1 ∧ c = c1) ∨ (r = r2 ∧ c = c2))
               ∧ faceUpAt (board w) r c = true
               ∧ (controllerAt (board w) r c = None
                  ∨ controllerAt (board w) r c = Some p)) →
       ∃ b1, trace w4 = trace w ++ [(Change (watchers (board w)), b1)])
    ∧ ((∀ r c, (r = r1 ∧ c = c1) ∨ (r = r2 ∧ c = c2) →
          faceUpAt (board w) r c = true →
          ∃ q, controllerAt (board w) r c = Some q ∧ q ≠ p) →
       trace w4 = trace w ∧ watchers (board w4) = watchers (board w)).
Proof.
  intros HI Hrec Hdiff.
  set (b0 := board w).
  set (ba1 := relinquishOwned p b0 (r1, c1)).
  set (ba := relinquishOwned p ba1 (r2, c2)).
  set (bb := setControlled p [] ba).
  assert (Inv ba1) as HIa1 by by apply Inv_relinquishOwned.
  assert (Inv ba) as HIa by by apply Inv_relinquishOwned.
  assert (Inv bb) as HIb by by apply Inv_setControlled.
  destruct (relinquishOwned_cells p b0 r1 c1 HI)
    as (Hcs1 & Hfu1 & Hq1 & Hpl1 & Hws1 & Hown1).
  fold ba1 in Hcs1, Hfu1, Hq1, Hpl1, Hws1, Hown1.
  destruct (relinquishOwned_cells p ba1 r2 c2 HIa1)
    as (Hcs2 & Hfu2 & Hq2 & Hpl2 & Hws2 & Hown2).
  fold ba in Hcs2, Hfu2, Hq2, Hpl2, Hws2, Hown2.
  pose proof (turnDown_cells false bb r1 c1 HIb) as H3.
  pose proof (Inv_turnDown (false, bb) (r1, c1) HIb) as HI1.
  cbn zeta in H3.
  destruct (turnDown (false, bb) (r1, c1)) as [ch1 bc1] eqn:Hacc1.
  cbn [fst snd] in H3, HI1.
  destruct H3 as (Hcs3 & Hcb3 & Hq3 & Hws3 & Hpl3 & Hup3 & Hch3).
  pose proof (turnDown_cells ch1 bc1 r2 c2 HI1) as H4. cbn zeta in H4.
  destruct (turnDown (ch1, bc1) (r2, c2)) as [ch bc] eqn:Hacc2.
  cbn [fst snd] in H4.
  destruct H4 as (Hcs4 & Hcb4 & Hq4 & Hws4 & Hpl4 & Hup4 & Hch4).
  set (wb := on_board (λ _, bc)
               (on_board (setControlled p [])
                  (on_board (λ b, foldl (relinquishOwned p) b [(r1, c1); (r2, c2)]) w))).
  set (w4 := if ch then notifyWatchers_locked wb else wb).
  assert (finishPreviousForPlayer_locked p w
          = wakeNextWaiter_locked r2 c2 (wakeNextWaiter_locked r1 c1 w4)) as Hfin.
  { unfold finishPreviousForPlayer_locked. rewrite Hrec.
    assert (bool_decide (cardAt (board w) r1 c1 ≠ None)
            && bool_decide (cardAt (board w) r2 c2 ≠ None)
            && bool_decide (cardAt (board w) r1 c1 = cardAt (board w) r2 c2) = false)
      as ->.
    { apply not_true_is_false. rewrite !andb_true_iff, !bool_decide_eq_true. tauto. }
    cbn [foldl board on_board]. fold b0 ba1 ba bb. rewrite Hacc1, Hacc2. done. }
  assert (∀ r c, controllerAt bc r c = controllerAt ba r c) as Hown.
  { intros r c. unfold controllerAt. by rewrite Hcb4, Hcb3. }
  assert (∀ r c, controllerAt bc1 r c = controllerAt ba r c) as Hown'.
  { intros r c. unfold controllerAt. by rewrite Hcb3. }
  assert (∀ r c, faceUpAt bb r c = faceUpAt b0 r c) as Hupb.
  { intros r c. unfold bb. rewrite faceUpAt_setControlled. unfold faceUpAt.
    by rewrite Hfu2, Hfu1. }
  assert (∀ r c, controllerAt bb r c = controllerAt ba r c) as Hownb.
  { intros r c. unfold bb. by rewrite controllerAt_setControlled. }
  assert (∀ r c, controllerAt ba r c
                 = if decide (((r = r1 ∧ c = c1) ∨ (r = r2 ∧ c = c2))
                              ∧ controllerAt b0 r c = Some p)
                   then None else controllerAt b0 r c) as Hctl.
  { intros r c. rewrite Hown2, !Hown1. cases_inside; try done;
      destruct_or?; destruct_and?; subst; try congruence; intuition (auto; congruence). }
  assert (∀ r c, faceUpAt bc r c
                 = if decide (((r = r1 ∧ c = c1) ∨ (r = r2 ∧ c = c2))
                              ∧ controllerAt ba r c = None)
                   then false else faceUpAt b0 r c) as Hface.
  { intros r c. rewrite Hup4, Hup3, Hown', Hownb, Hupb. cases_inside; try done;
      destruct_or?; destruct_and?; subst; try congruence; intuition (auto; congruence). }
  assert (∀ r c, controllerAt (board w4) r c = controllerAt ba r c
                 ∧ faceUpAt (board w4) r c = faceUpAt bc r c) as Hw4.
  { intros r c. unfold w4. destruct ch; simpl; by autorewrite with board. }
  assert (waiters (board w4) = waiters b0) as Hqueues.
  { assert (waiters bc = waiters b0) as Hq.
    { rewrite Hq4, Hq3. unfold bb. cbn [waiters setControlled with_players].
      by rewrite Hq2, Hq1. }
    unfold w4. by destruct ch. }
  assert (cards (board w4) = cards b0) as Hcs.
  { assert (cards bc = cards b0) as Hcs.
    { rewrite Hcs4, Hcs3. unfold bb. cbn [cards setControlled with_players].
      by rewrite Hcs2, Hcs1. }
    unfold w4. by destruct ch. }
  exists w4. split; [exact Hfin|]. split.
  { intros Hno1 Hno2. rewrite Hfin.
    rewrite (wake_empty r1 c1 w4) by (unfold waitersAt; by rewrite Hqueues).
    apply wake_empty. unfold waitersAt. by rewrite Hqueues. }
  split.
  { intros r c q Hpos Hheld Hne. destruct (Hw4 r c) as [-> ->].
    fold b0 in Hheld. rewrite Hface, !Hctl, !Hheld.
    rewrite (decide_False (P := _ ∧ Some q = Some p)) by (intros [_ [= ->]]; done).
    by rewrite decide_False by (intros [_ [=]]). }
  split.
  { intros r c Hpos Hfree. destruct (Hw4 r c) as [-> ->].
    fold b0 in Hfree. rewrite Hface, !Hctl.
    destruct Hfree as [Hfree|Hfree]; rewrite !Hfree.
    - rewrite (decide_False (P := _ ∧ None = Some p)) by (intros [_ [=]]).
      by rewrite decide_True.
    - rewrite (decide_True (P := _ ∧ Some p = Some p)) by done.
      by rewrite decide_True. }
  split.
  { intros r c Hn1 Hn2. destruct (Hw4 r c) as [-> ->]. rewrite Hface, !Hctl.
    by rewrite !decide_False by tauto. }
  split; [exact Hcs|]. split; [exact Hqueues|]. split.
  { assert (players bc !! p = Some []) as Hp.
    { apply Hpl4, Hpl3. unfold bb. simpl. apply lookup_insert_eq. }
    unfold w4. by destruct ch. }
  assert (watchers bc = watchers b0) as Hws.
  { rewrite Hws4, Hws3. unfold bb. cbn [watchers setControlled with_players].
    by rewrite Hws2, Hws1. }
  split.
  - intros (r & c & Hpos & Hup & Hfree). fold b0 in Hup, Hfree.
    assert (controllerAt ba r c = None) as Hfree'.
    { rewrite Hctl. destruct Hfree as [Hfree|Hfree]; rewrite !Hfree.
      - by rewrite decide_False by (intros [_ [=]]).
      - by rewrite decide_True. }
    assert (ch = true) as ->.
    { apply Hch4. rewrite Hch3, Hup3, !Hown', !Hownb, !Hupb.
      destruct Hpos as [[-> ->]|[-> ->]].
      - left. right. done.
      - destruct (decide (r2 = r1 ∧ c2 = c1)) as [[-> ->]|Hne].
        + left. right. done.
        + right. split; [|done]. rewrite decide_False; [done|]. tauto. }
    eexists. unfold w4, wb. simpl. by rewrite Hws.
  - intros Hheld.
    assert (ch = false) as ->.
    { apply not_true_is_false. rewrite Hch4, Hch3, Hup3, !Hown', !Hownb, !Hupb.
      assert (∀ r c, (r = r1 ∧ c = c1) ∨ (r = r2 ∧ c = c2) →
                faceUpAt b0 r c = true → controllerAt ba r c ≠ None) as Hkept.
      { intros r c Hpos Hup. destruct (Hheld r c Hpos Hup) as (q & Hq & Hne).
        fold b0 in Hq. rewrite Hctl, !Hq.
        by rewrite decide_False by (intros [_ [= ->]]; done). }
      intros [[Hf|[Hup Hfree]]|[Hup Hfree]]; [done| |].
      - by apply (Hkept r1 c1 (or_introl (conj eq_refl eq_refl))).
      - revert Hup. destruct (decide _) as [(_ & _ & Hfree1)|_]; [done|].
        intros Hup. by apply (Hkept r2 c2 (or_intror (conj eq_refl eq_refl))). }
    unfold w4, wb. simpl. by rewrite Hws.
Qed.

(** ** map, run alone *)

Section MapAlone.

Lemma map_run_app n m p f pc w :
  map_run (n + m) p f pc w
  = map_run m p f (map_run n p f pc w).1 (map_run n p f pc w).2.
Proof.
  revert pc w. induction n as [|n IH]; intros pc w; [done|].
  cbn [Nat.add map_run]. destruct (map_step p f pc w) as [pc' w']. apply IH.
Qed.

Lemma map_run_done n p f s w : map_run n p f (MapDone s) w = (MapDone s, w).
Proof. induction n as [|n IH]; [done|]. exact IH. Qed.

Lemma scanned_cell b f r c reps :
  inGrid b r c → scanned b f r c reps →
  scanned b f r (c + 1)
    (match cardAt b r c with
     | Some card => reps ++ [mkReplacement r c (f card)]
     | None => reps
     end).
Proof.
  intros Hin [Hsound Hfull]. split.
  - assert (Forall (λ rep,
              inGrid b (rep_r rep) (rep_c rep)
              ∧ (rep_r rep < r ∨ rep_r rep = r ∧ rep_c rep < c + 1)%Z
              ∧ ∃ label, cardAt b (rep_r rep) (rep_c rep) = Some label
                         ∧ newCard rep = f label) reps) as Hold.
    { eapply Forall_impl; [exact Hsound|]. intros rep (? & ? & ?).
      split; [done|]. split; [lia|done]. }
    destruct (cardAt b r c) as [card|] eqn:Hcard; [|done].
    apply Forall_app_2; [done|]. apply Forall_singleton. simpl.
    split; [done|]. split; [lia|]. by exists card.
  - intros r' c' label Hin' Hbefore Hcard'.
    destruct (decide (r' = r ∧ c' = c)) as [[-> ->]|Hne].
    + rewrite Hcard'. eexists. split; [apply elem_of_app; right; by constructor|done].
    + destruct (Hfull r' c' label Hin') as (rep & Hrep & ?); [lia|done|].
      exists rep. split; [|done]. destruct (cardAt b r c); [|done].
      apply elem_of_app. by left.
Qed.

Lemma scanned_next_row b f r reps :
  scanned b f r (columns b) reps → scanned b f (r + 1) 0 reps.
Proof.
  intros [Hsound Hfull]. split.
  - eapply Forall_impl; [exact Hsound|]. intros rep (? & ? & ?).
    split; [done|]. split; [lia|done].
  - intros r' c' label Hin Hbefore. apply Hfull; [done|].
    unfold inGrid in Hin. lia.
Qed.

Lemma scan_row p f w r reps (k : nat) (c : Z) :
  (0 ≤ r < rows (board w))%Z → (0 ≤ c)%Z → (c + Z.of_nat k = columns (board w))%Z →
  scanned (board w) f r c reps →
  ∃ reps', map_run k p f (MapScan r c reps) w = (MapScan r (columns (board w)) reps', w)
           ∧ scanned (board w) f r (columns (board w)) reps'.
Proof.
  intros Hr. revert c reps. induction k as [|k IH]; intros c reps Hc Hk Hscan.
  - exists reps. replace (columns (board w)) with c by lia. done.
  - cbn [map_run map_step].
    rewrite bool_decide_eq_true_2 by lia. rewrite bool_decide_eq_true_2 by lia.
    assert (inGrid (board w) r c) as Hin by (unfold inGrid; lia).
    pose proof (scanned_cell _ f r c reps Hin Hscan) as Hnext.
    destruct (cardAt (board w) r c) as [card|]; apply IH; (lia || done).
Qed.

Lemma scan_rows p f w reps (k : nat) (r : Z) :
  (0 ≤ columns (board w))%Z →
  (0 ≤ r)%Z → (r + Z.of_nat k = rows (board w))%Z →
  scanned (board w) f r 0 reps →
  ∃ reps', map_run (k * (Z.to_nat (columns (board w)) + 1)) p f (MapScan r 0 reps) w
           = (MapScan (rows (board w)) 0 reps', w)
           ∧ scanned (board w) f (rows (board w)) 0 reps'.
Proof.
  intros HC. revert r reps. induction k as [|k IH]; intros r reps Hr Hk Hscan.
  - exists reps. replace (rows (board w)) with r by lia. done.
  - cbn [Nat.mul]. rewrite map_run_app. rewrite map_run_app.
    destruct (scan_row p f w r reps (Z.to_nat (columns (board w))) 0)
      as (reps1 & -> & Hscan1); [lia|lia|lia|done|].
    cbn [fst snd map_run map_step].
    rewrite bool_decide_eq_true_2 by lia. rewrite bool_decide_eq_false_2 by lia.
    cbn [fst snd]. apply IH; [lia|lia|]. by apply scanned_next_row.
Qed.

Lemma foldl_replacements (reps : list Replacement) (init : option string)
    (hits : Replacement → Prop) `{!∀ rep, Decision (hits rep)} :
  let result := foldl (λ label rep, if decide (hits rep) then Some (newCard rep) else label)
                      init reps in
  (result = init ∧ Forall (λ rep, ¬ hits rep) reps)
  ∨ ∃ rep, rep ∈ reps ∧ hits rep ∧ result = Some (newCard rep).
Proof.
  induction reps as [|rep reps IH] using rev_ind; cbn zeta; [by left|].
  rewrite foldl_app. cbn [foldl]. destruct (decide (hits rep)) as [Hhit|Hmiss].
  - right. exists rep. split; [|done]. apply elem_of_app. right. by constructor.
  - destruct IH as [[-> Hnone]|(rep' & Hin & Hhit & ->)].
    + left. split; [done|]. apply Forall_app_2; [done|]. by apply Forall_singleton.
    + right. exists rep'. split; [|done]. apply elem_of_app. by left.
Qed.

Lemma scanned_labelled b f r c reps :
  Tidy b → keepsLabels f → scanned b f r c reps → labelled reps.
Proof.
  intros HT Hf [Hsound _]. eapply Forall_impl; [exact Hsound|].
  intros rep (_ & _ & label & Hcard & ->). apply Hf.
  exact (tidy_labels _ HT _ _ _ Hcard).
Qed.

Lemma scanned_apply b f reps w r c :
  Shape (board w) → b = board w →
  scanned b f (rows b) 0 reps →
  cardAt (board (map_locked reps w)) r c = f <$> cardAt b r c.
Proof.
  intros Hs -> [Hsound Hfull]. rewrite map_locked_label by done.
  destruct (foldl_replacements reps (cardAt (board w) r c)
              (λ rep, rep_r rep = r ∧ rep_c rep = c ∧ inGrid (board w) r c))
    as [[-> Hnone]|(rep & Hin & (<- & <- & Hgrid) & ->)].
  - destruct (cardAt (board w) r c) as [label|] eqn:Hcard; [|done].
    assert (inGrid (board w) r c) as Hgrid.
    { apply card_inGrid; [done|by rewrite Hcard]. }
    destruct (Hfull r c label Hgrid) as (rep & Hin & Hr & Hc);
      [unfold inGrid in Hgrid; lia|done|].
    destruct (proj1 (Forall_forall _ _) Hnone rep Hin). done.
  - destruct (proj1 (Forall_forall _ _) Hsound rep Hin) as (_ & _ & label & -> & ->).
    done.
Qed.

Lemma map_run_alone p f w k :
  Tidy (board w) → keepsLabels f →
  ∃ reps,
    scanned (board w) f (rows (board w)) 0 reps
    ∧ map_run (Z.to_nat (rows (board w)) * (Z.to_nat (columns (board w)) + 1) + 3 + k)
        p f (MapScan 0 0 []) w
      = (MapDone (Fulfilled (snapshot (board (map_locked reps w)) p)),
         map_locked reps w).
Proof.
  intros HT Hf.
  destruct (checkRep_dims _ (Tidy_checkRep _ HT)) as [HR HC].
  destruct (scan_rows p f w [] (Z.to_nat (rows (board w))) 0 HC)
    as (reps & Hscan & Hall); [lia|lia| |].
  { split; [apply Forall_nil_2|]. intros r' c' label Hin. unfold inGrid in Hin. lia. }
  assert (Tidy (board (map_locked reps w))) as HT'.
  { apply Tidy_map_locked; [|done]. by apply (scanned_labelled _ f _ _ _ HT Hf Hall). }
  exists reps. split; [done|].
  rewrite <- !Nat.add_assoc. rewrite map_run_app, Hscan.
  cbn [fst snd Nat.add map_run map_step].
  rewrite bool_decide_eq_false_2 by lia. cbn [fst snd map_run map_step].
  rewrite look_locked_Tidy by done. apply map_run_done.
Qed.

End MapAlone.

(** X10.  A map that runs with no other call in between relabels every card.
    On a board in its invariant and with a function that keeps labels
    non-empty, the call goes through one segment per position, one per row
    and the three that follow the loops, and then fulfils with the snapshot
    taken at its end.  Every card [l] has become the card [f l] and every
    empty position is still empty; faces, controllers, player records and
    queues are untouched, and the watchers are notified by one change. *)
Theorem map_alone_relabels_every_card
    (p : string) (f : string → string) (w : World) (k : nat) :
  Tidy (board w) → keepsLabels f →
  let n := Z.to_nat (rows (board w)) * (Z.to_nat (columns (board w)) + 1) + 3 in
  let w' := (map_run (n + k) p f (MapScan 0 0 []) w).2 in
  (map_run (n + k) p f (MapScan 0 0 []) w).1
  = MapDone (Fulfilled (snapshot (board w') p))
  ∧ (∀ r c, cardAt (board w') r c = f <$> cardAt (board w) r c)
  ∧ faceUp (board w') = faceUp (board w)
  ∧ controlledBy (board w') = controlledBy (board w)
  ∧ players (board w') = players (board w)
  ∧ waiters (board w') = waiters (board w)
  ∧ watchers (board w') = []
  ∧ ∃ b1, trace w' = trace w ++ [(Change (watchers (board w)), b1)].
Proof.
  intros HT Hf n.
  pose proof (inv_shape _ (tidy_inv _ HT)) as Hs.
  destruct (map_run_alone p f w k HT Hf) as (reps & Hall & Hrun).
  fold n in Hrun. rewrite Hrun. cbn [fst snd]. split; [done|]. split.
  { intros r c. by apply (scanned_apply (board w) f reps w). }
  destruct (map_locked_frame reps w) as (_ & _ & Hfu & Hcb & Hpl & Hq & b1 & Htr).
  do 4 (split; [done|]). split; [done|]. by exists b1.
Qed.

(** X11.  The function of the /replace route.  The server passes to [map]
    the function that turns the card [fromCard] into [toCard] and leaves
    every other card as it is; the route asserts that [toCard] is not empty,
    which is what [map] needs to keep the labels non-empty.  Run with no
    other call in between, the call fulfils with a snapshot of a board on
    which exactly the cards [fromCard] have become [toCard]. *)
Theorem replace_route_renames_one_card
    (p fromCard toCard : string) (w : World) (k : nat) :
  Tidy (board w) → toCard ≠ "" →
  let n := Z.to_nat (rows (board w)) * (Z.to_nat (columns (board w)) + 1) + 3 in
  let run := map_run (n + k) p (replaceCard fromCard toCard) (MapScan 0 0 []) w in
  keepsLabels (replaceCard fromCard toCard)
  ∧ run.1 = MapDone (Fulfilled (snapshot (board run.2) p))
  ∧ ∀ r c, cardAt (board run.2) r c
           = if decide (cardAt (board w) r c = Some fromCard)
             then Some toCard else cardAt (board w) r c.
Proof.
  intros HT Hto n.
  assert (keepsLabels (replaceCard fromCard toCard)) as Hf.
  { intros l Hl. unfold replaceCard. by case_bool_decide. }
  pose proof (inv_shape _ (tidy_inv _ HT)) as Hs.
  destruct (map_run_alone p _ w k HT Hf) as (reps & Hall & Hrun).
  fold n in Hrun. cbn zeta. rewrite Hrun. cbn [fst snd].
  split; [done|]. split; [done|]. intros r c.
  rewrite (scanned_apply (board w) _ reps w r c Hs eq_refl Hall).
  destruct (cardAt (board w) r c) as [label|]; simpl.
  - unfold replaceCard. case_bool_decide as Hlabel.
    + subst label. by rewrite decide_True.
    + rewrite decide_False; [done|]. by intros [= ->].
  - done.
Qed.

(** ** The constructor *)

Section Constructor.

Lemma blank_cells (R C : Z) cs r c :
  let b := mkBoard R C cs (emptyGrid R C false) (emptyGrid R C None) ∅
                   (emptyGrid R C []) [] in
  faceUpAt b r c = false ∧ controllerAt b r c = None ∧ waitersAt b r c = [].
Proof.
  cbn zeta. unfold faceUpAt, controllerAt, waitersAt. cbn [faceUp controlledBy waiters].
  split; [|split].
  - destruct (at2 _ r c) as [x|] eqn:Hx; [|done]. by apply at2_emptyGrid in Hx.
  - destruct (at2 _ r c) as [x|] eqn:Hx; [|done]. by apply at2_emptyGrid in Hx.
  - destruct (at2 _ r c) as [x|] eqn:Hx; [|done]. by apply at2_emptyGrid in Hx.
Qed.

Lemma filled_cells (R C : Z) (l : list string) fu cb pl q ws r c :
  (0 ≤ R)%Z → (0 ≤ C)%Z →
  let b := mkBoard R C (fillCards R C l) fu cb pl q ws in
  inGrid b r c → cardAt b r c = l !! Z.to_nat (r * C + c).
Proof.
  intros HR HC b Hin. unfold cardAt. cbn [cards b].
  destruct (proj2 (at2_is_Some R C (fillCards R C l) r c (shaped_fillCards R C l HR HC)))
    as [x Hx]; [exact Hin|].
  rewrite Hx. simpl. by apply BoardOfFile.at2_fillCards in Hx.
Qed.

Lemma grid_index (R C k : Z) :
  (0 ≤ k < R * C)%Z → (0 ≤ C)%Z →
  (0 ≤ k `div` C < R ∧ 0 ≤ k `mod` C < C
   ∧ k `div` C * C + k `mod` C = k)%Z.
Proof.
  intros Hk HC. assert (C ≠ 0)%Z as Hne by (intros ->; lia).
  assert (0 < C)%Z as Hpos by lia.
  pose proof (Z.div_mod k C ltac:(lia)). pose proof (Z.mod_pos_bound k C Hpos).
  assert (0 ≤ k `div` C)%Z by (apply Z.div_pos; lia).
  assert (k `div` C < R)%Z by (apply Z.div_lt_upper_bound; lia).
  lia.
Qed.

End Constructor.


(** ** The lines of a snapshot *)

Section Lines.

Lemma lookLines_cells b p :
  (0 ≤ rows b)%Z → (0 ≤ columns b)%Z →
  lookLines b p
  = (pretty (rows b) +:+ "x" +:+ pretty (columns b))
    :: ((λ k, cellLine b p (k `div` columns b) (k `mod` columns b))%Z
          <$> seqZ 0 (rows b * columns b)).
Proof. intros HR HC. unfold lookLines. by rewrite loops_row_major. Qed.

Lemma lookLines_position b p r c :
  inGrid b r c →
  length (lookLines b p) = Z.to_nat (1 + rows b * columns b)
  ∧ lookLines b p !! Z.to_nat (compactIndex (columns b) r c)
    = Some (cellLine b p r c).
Proof.
  intros Hin. unfold inGrid in Hin. rewrite lookLines_cells by lia.
  assert (0 ≤ r * columns b + c < rows b * columns b)%Z as Hk by nia.
  split.
  - cbn [length]. rewrite length_fmap, length_seqZ. lia.
  - unfold compactIndex.
    replace (Z.to_nat (1 + r * columns b + c))
      with (S (Z.to_nat (r * columns b + c))) by lia.
    change (((λ k, cellLine b p (k `div` columns b) (k `mod` columns b))%Z
               <$> seqZ 0 (rows b * columns b)) !! Z.to_nat (r * columns b + c)
            = Some (cellLine b p r c)).
    rewrite list_lookup_fmap.
    rewrite lookup_seqZ_lt by lia. simpl. f_equal.
    rewrite Z2Nat.id by lia. rewrite Z.add_0_l.
    rewrite (Z.add_comm (r * columns b)), Z.div_add, Z_mod_plus_full by lia.
    rewrite Z.div_small, Z.mod_small by lia. done.
Qed.

End Lines.

(** X13.  A board as the constructor leaves it.  Whoever looks at a new
    board sees, after the header, one line per position: "down" for every
    position if labels were given, "none" for every position otherwise. *)
Theorem new_board_shows_every_card_face_down
    (R C : Z) (init : option (list string)) (b : Board) (p : string) :
  newBoard R C init = inr b →
  lookLines b p
  = (pretty R +:+ "x" +:+ pretty C)
    :: replicate (Z.to_nat (R * C))
         (match init with Some _ => "down" | None => "none" end).
Proof.
  intros Hnew.
  assert (rows b = R ∧ columns b = C ∧ checkRep b = true
          ∧ (∀ r c, faceUpAt b r c = false)
          ∧ (∀ r c, inGrid b r c →
               cardAt b r c = init ≫= λ l, l !! Z.to_nat (r * C + c))
          ∧ (∀ l, init = Some l → Z.of_nat (length l) = (R * C)%Z))
    as (HR & HC & Hrep & Hdown & Hcards & Hlen).
  { unfold newBoard in Hnew. destruct init as [l|].
    - case_bool_decide as Hlen; [done|]. unfold with_cards in Hnew.
      cbn [rows columns faceUp controlledBy players waiters watchers] in Hnew.
      destruct (checkRep _) eqn:Hrep; [|done]. injection Hnew as <-.
      destruct (checkRep_dims _ Hrep) as [HR HC]. cbn [rows columns] in HR, HC.
      do 3 (split; [done|]). split; [intros r c; apply blank_cells|].
      split; [intros r c; by apply filled_cells|]. intros l' [= <-]. lia.
    - destruct (checkRep _) eqn:Hrep; [|done]. injection Hnew as <-.
      do 3 (split; [done|]). split; [intros r c; apply blank_cells|].
      split; [|done]. intros r c _. unfold cardAt. cbn [cards].
      destruct (at2 _ r c) as [x|] eqn:Hx; [|done]. by apply at2_emptyGrid in Hx. }
  destruct (checkRep_dims _ Hrep) as [HR' HC'].
  rewrite lookLines_cells by done. rewrite HR, HC. f_equal.
  symmetry. apply replicate_as_elem_of. split.
  - by rewrite length_fmap, length_seqZ.
  - intros line (k & -> & Hk%elem_of_seqZ)%list_elem_of_fmap.
    destruct (grid_index R C k) as (Hr & Hc & Hidx); [lia|lia|].
    assert (inGrid b (k `div` C) (k `mod` C)) as Hin
      by (unfold inGrid; rewrite HR, HC; lia).
    unfold cellLine. rewrite (Hcards _ _ Hin), Hdown, Hidx.
    destruct init as [l|]; [|done]. simpl.
    destruct (lookup_lt_is_Some_2 l (Z.to_nat k)) as [label ->]; [|done].
    specialize (Hlen l eq_refl). lia.
Qed.

(** X14.  Where a position stands in a snapshot.  The lines that [look]
    joins are the header followed by one line per position, row by row:
    there are 1 + rows × columns of them, and the line of position [(r, c)]
    is the one at index [1 + r * columns + c], which is where the simulation
    looks it up. *)
Theorem snapshot_line_of_position (b : Board) (p : string) (r c : Z) :
  inGrid b r c →
  length (lookLines b p) = Z.to_nat (1 + rows b * columns b)
  ∧ lookLines b p !! Z.to_nat (compactIndex (columns b) r c)
    = Some (cellLine b p r c).
Proof. apply lookLines_position. Qed.

(** ** The header of a snapshot *)

Module HeaderFacts.
Import Parse ParseFacts.

Lemma pretty_N_char_digit (d : N) :
  (d < 10)%N →
  isDigit (pretty_N_char d) = true ∧ digitValue (pretty_N_char d) = Z.of_N d.
Proof.
  intros Hd.
  assert (d = 0 ∨ d = 1 ∨ d = 2 ∨ d = 3 ∨ d = 4 ∨ d = 5 ∨ d = 6 ∨ d = 7
          ∨ d = 8 ∨ d = 9)%N as Hcases by lia.
  destruct_or?; subst d; by vm_compute.
Qed.

Lemma pretty_N_go_decimal (x : N) (s : string) :
  Forall (λ a, isDigit a = true) (String.list_ascii_of_string s) →
  Forall (λ a, isDigit a = true) (String.list_ascii_of_string (pretty_N_go x s))
  ∧ decimalValue (pretty_N_go x s)
    = (Z.of_N x * 10 ^ Z.of_nat (String.length s) + decimalValue s)%Z
  ∧ (s ≠ EmptyString ∨ (0 < x)%N → pretty_N_go x s ≠ EmptyString).
Proof.
  revert s. induction (N.lt_wf_0 x) as [x _ IH]. intros s Hs.
  assert (x = 0 ∨ 0 < x)%N as [->|Hx] by lia.
  - rewrite pretty_N_go_0. split; [done|]. split; [lia|]. intros [?|?]; [done|lia].
  - rewrite pretty_N_go_step by done.
    destruct (pretty_N_char_digit (x `mod` 10)) as [Hdigit Hvalue].
    { by apply N.mod_lt. }
    destruct (IH (x `div` 10)%N) with (s := String (pretty_N_char (x `mod` 10)) s)
      as (Hall & Hval & Hne).
    { by apply N.div_lt. }
    { simpl. by constructor. }
    split; [done|]. split; [|intros _; apply Hne; by left].
    rewrite Hval. cbn [decimalValue String.length]. rewrite Hvalue.
    rewrite Nat2Z.inj_succ, Z.pow_succ_r by lia.
    pose proof (N.div_mod x 10 ltac:(done)) as Hdm.
    assert (Z.of_N x = 10 * Z.of_N (x `div` 10) + Z.of_N (x `mod` 10))%Z as ->
      by lia.
    lia.
Qed.

Lemma pretty_decimal (z : Z) :
  (0 ≤ z)%Z → isDecimal (pretty z) ∧ decimalValue (pretty z) = z.
Proof.
  intros Hz. destruct z as [|q|q]; [|  |lia].
  { split; [split; [done|]|done]. by apply Forall_singleton. }
  change (pretty (Z.pos q)) with (pretty_N_go (N.pos q) "").
  destruct (pretty_N_go_decimal (N.pos q) "") as (Hall & Hval & Hne); [done|].
  split; [split; [apply Hne; right; lia|done]|]. rewrite Hval. simpl. lia.
Qed.

End HeaderFacts.


(** ** Line ends of a board file *)

Module LineEnds.
Import Parse ParseFacts.

Lemma trimEnd_snoc_white s w :
  isWhite w = true → trimEnd (s +:+ String w EmptyString) = trimEnd s.
Proof.
  intros Hw. induction s as [|a s IH].
  - simpl. by rewrite Hw.
  - change (String a s +:+ String w "") with (String a (s +:+ String w "")).
    cbn [trimEnd]. by rewrite IH.
Qed.

Lemma trim_snoc_white s w :
  isWhite w = true → trim (s +:+ String w EmptyString) = trim s.
Proof.
  intros Hw. unfold trim. induction s as [|a s IH].
  - simpl. by rewrite Hw.
  - change (String a s +:+ String w "") with (String a (s +:+ String w "")).
    cbn [trimStart]. destruct (isWhite a); [done|].
    change (String a (s +:+ String w "")) with (String a s +:+ String w "").
    by apply trimEnd_snoc_white.
Qed.

Lemma sameLine_trim l' l : sameLine l' l → trim l' = trim l.
Proof. intros [->| ->]; [done|]. by apply trim_snoc_white. Qed.

Lemma sameLine_consHead a ls' ls :
  Forall2 sameLine ls' ls → Forall2 sameLine (consHead a ls') (consHead a ls).
Proof.
  intros [|l' l ls0' ls0 Hl Hls]; simpl.
  - constructor; [by left|constructor].
  - constructor; [|done]. destruct Hl as [->| ->]; [by left|by right].
Qed.

Lemma splitLines_unfold a rest :
  splitLines (String a rest)
  = if bool_decide (a = NL) then EmptyString :: splitLines rest
    else match rest with
         | String b rest' =>
             if bool_decide (a = CR) && bool_decide (b = NL)
             then EmptyString :: splitLines rest'
             else consHead a (splitLines rest)
         | EmptyString => consHead a (splitLines rest)
         end.
Proof. by destruct rest. Qed.

Lemma splitLines_withCarriageReturns_bounded (n : nat) (t : string) :
  String.length t ≤ n →
  Forall2 sameLine (splitLines (withCarriageReturns t)) (splitLines t).
Proof.
  revert t. induction n as [|n IH]; intros t Hn.
  { destruct t; [|simpl in Hn; lia]. constructor; [by left|constructor]. }
  destruct t as [|a rest]; [constructor; [by left|constructor]|].
  simpl in Hn. pose proof (IH rest ltac:(lia)) as IHrest.
  cbn [withCarriageReturns]. destruct (bool_decide (a = NL)) eqn:Ha.
  - (* a line feed: it becomes a carriage return and a line feed *)
    apply bool_decide_eq_true in Ha as ->.
    rewrite (splitLines_unfold CR), (splitLines_unfold NL).
    rewrite (bool_decide_eq_false_2 (CR = NL)) by done.
    rewrite !bool_decide_eq_true_2 by done. cbn [andb].
    constructor; [by left|done].
  - apply bool_decide_eq_false in Ha.
    rewrite (splitLines_unfold a (withCarriageReturns rest)), (splitLines_unfold a rest).
    rewrite !(bool_decide_eq_false_2 (a = NL)) by done.
    destruct rest as [|b rest']; [constructor; [by left|constructor]|].
    pose proof (IH rest' ltac:(simpl in Hn; lia)) as IHrest'.
    cbn [withCarriageReturns] in *. destruct (bool_decide (b = NL)) eqn:Hb.
    + (* the line ends here; it keeps a carriage return that it had *)
      apply bool_decide_eq_true in Hb as ->.
      rewrite (bool_decide_eq_false_2 (CR = NL)) by done. rewrite andb_false_r.
      rewrite (splitLines_unfold CR).
      rewrite (bool_decide_eq_false_2 (CR = NL)) by done.
      rewrite !bool_decide_eq_true_2 by done. cbn [andb consHead].
      destruct (bool_decide (a = CR)) eqn:Hcr; cbn [andb consHead].
      * apply bool_decide_eq_true in Hcr as ->. constructor; [by right|done].
      * rewrite (splitLines_unfold NL). rewrite bool_decide_eq_true_2 by done.
        constructor; [by left|done].
    + rewrite andb_false_r. cbv beta iota. rewrite Hb, andb_false_r.
      by apply sameLine_consHead.
Qed.

Lemma sameLine_filter ls' ls :
  Forall2 sameLine ls' ls →
  Forall2 sameLine (filter nonBlank ls') (filter nonBlank ls).
Proof.
  induction 1 as [|l' l ls' ls Hl Hls IH]; [constructor|].
  rewrite !filter_cons. pose proof (sameLine_trim _ _ Hl) as Htrim.
  destruct (decide (nonBlank l')) as [Hyes|Hno], (decide (nonBlank l)) as [Hyes'|Hno'];
    unfold nonBlank in *.
  - by constructor.
  - destruct Hno'. by rewrite <- Htrim.
  - destruct Hno. by rewrite Htrim.
  - done.
Qed.

End LineEnds.

(** X16.  Line ends do not matter.  A board file parses to the same result,
    be it a board or an error, when every line feed in it is preceded by a
    carriage return: the lines are split at "\n" or "\r\n", and a carriage
    return left at the end of a line is trimmed away with the other white
    space. *)
Theorem parseFromFile_ignores_carriage_returns (text : string) :
  Parse.parseFromFile (withCarriageReturns text) = Parse.parseFromFile text.
Proof.
  unfold Parse.parseFromFile.
  pose proof (LineEnds.sameLine_filter _ _
                (LineEnds.splitLines_withCarriageReturns_bounded _ text (le_n _)))
    as Hlines.
  destruct Hlines as [|first' first cards' cards Hfirst Hcards]; [done|].
  rewrite (LineEnds.sameLine_trim _ _ Hfirst).
  assert (length cards' = length cards) as -> by by eapply Forall2_length.
  assert (Parse.trim <$> cards' = Parse.trim <$> cards) as ->; [|done].
  induction Hcards as [|l' l ls' ls Hl Hls IH]; [done|].
  cbn [fmap list_fmap]. by rewrite (LineEnds.sameLine_trim _ _ Hl), IH.
Qed.

(** ** AsyncLock *)

Module LockFacts.
Import Lock.

Lemma Fair_start : Fair start.
Proof.
  split; simpl.
  - intros i j pi pj Hi. by rewrite lookup_nil in Hi.
  - split; [done|]. intros (i & pc & Hi & _). by rewrite lookup_nil in Hi.
  - intros j. split; [by intros ?%elem_of_nil|].
    intros (body & Hj). by rewrite lookup_nil in Hj.
  - intros i j a b Hi. by rewrite lookup_nil in Hi.
  - done.
Qed.

Lemma Fair_enter s body : Fair s → Fair (step s (Enter body)).
Proof.
  intros [Hone Hlocked Hqueue Horder Hempty]. unfold step, acquire.
  destruct (locked (lock s)) eqn:Hl; cbn [negb].
  - (* the lock is taken: the call joins the queue *)
    split; cbn [lock calls queue locked].
    + intros i j pi pj Hi Hj Hpi Hpj.
      apply lookup_app_Some in Hi as [Hi|[_ Hi]];
        [|apply list_lookup_singleton_Some in Hi as [_ <-]; destruct Hpi].
      apply lookup_app_Some in Hj as [Hj|[_ Hj]];
        [|apply list_lookup_singleton_Some in Hj as [_ <-]; destruct Hpj].
      by apply (Hone i j pi pj).
    + split; [|done]. intros _.
      destruct (proj1 Hlocked eq_refl) as (i & pc & Hi & Hpc).
      exists i, pc. split; [|done]. apply lookup_app_Some. by left.
    + intros j. rewrite elem_of_app, list_elem_of_singleton, Hqueue. split.
      * intros [(b & Hj)| ->].
        -- exists b. apply lookup_app_Some. by left.
        -- exists body. apply lookup_app_Some. right. split; [done|].
           by rewrite Nat.sub_diag.
      * intros (b & Hj). apply lookup_app_Some in Hj as [Hj|[Hge Hj]].
        -- left. by exists b.
        -- right. apply list_lookup_singleton_Some in Hj as [Hj _]. lia.
    + intros i j a b Hi Hj Hlt.
      apply lookup_app_Some in Hj as [Hj|[Hge Hj]].
      * apply lookup_app_Some in Hi as [Hi|[Hge' _]]; [by apply (Horder i j)|].
        apply lookup_lt_Some in Hj. lia.
      * apply list_lookup_singleton_Some in Hj as [Hj0 <-].
        apply lookup_app_Some in Hi as [Hi|[Hge' _]]; [|lia].
        destruct (proj1 (Hqueue a)) as (body' & Ha); [by eapply list_elem_of_lookup_2|].
        by apply lookup_lt_Some in Ha.
    + done.
  - (* the lock is free: the call takes it *)
    assert (∀ i pc, calls s !! i = Some pc → ¬ holds pc) as Hnone.
    { intros i pc Hi Hpc.
      assert (false = true) by (apply Hlocked; by exists i, pc). done. }
    split; cbn [lock calls queue locked].
    + intros i j pi pj Hi Hj Hpi Hpj.
      apply lookup_app_Some in Hi as [Hi|[Hgei Hi]]; [by destruct (Hnone i pi)|].
      apply lookup_app_Some in Hj as [Hj|[Hgej Hj]]; [by destruct (Hnone j pj)|].
      apply list_lookup_singleton_Some in Hi as [Hi _].
      apply list_lookup_singleton_Some in Hj as [Hj _]. lia.
    + split; [|done]. intros _. exists (length (calls s)), (Granted body).
      split; [|done]. apply lookup_app_Some. right. split; [done|].
      by rewrite Nat.sub_diag.
    + intros j. rewrite Hqueue. split.
      * intros (b & Hj). exists b. apply lookup_app_Some. by left.
      * intros (b & Hj). apply lookup_app_Some in Hj as [Hj|[_ Hj]]; [by exists b|].
        by apply list_lookup_singleton_Some in Hj as [_ ?].
    + done.
    + done.
Qed.

(** A call that keeps the lock, or that neither has it nor waits for it,
    takes a step that the lock does not see. *)
Lemma Fair_pass s i pc pc' :
  Fair s → calls s !! i = Some pc →
  (holds pc ↔ holds pc') →
  (∀ body, pc ≠ Queued body) → (∀ body, pc' ≠ Queued body) →
  Fair (mkState (lock s) (<[i := pc']> (calls s))).
Proof.
  intros [Hone Hlocked Hqueue Horder Hempty] Hi Hsame Hpc Hpc'.
  pose proof (lookup_lt_Some _ _ _ Hi) as Hlt.
  assert (∀ j pj, <[i := pc']> (calls s) !! j = Some pj →
            ∃ pj0, calls s !! j = Some pj0 ∧ (holds pj0 ↔ holds pj)
                   ∧ ∀ body, pj = Queued body ↔ pj0 = Queued body) as Hback.
  { intros j pj Hj. destruct (decide (i = j)) as [<-|Hne].
    - rewrite list_lookup_insert_eq in Hj by done. injection Hj as <-.
      exists pc. split; [done|]. split; [done|]. intros body.
      split; intros ->; [by destruct (Hpc' body)|by destruct (Hpc body)].
    - rewrite list_lookup_insert_ne in Hj by done. by exists pj. }
  split; cbn [lock calls].
  - intros a b pa pb Ha Hb Hpa Hpb.
    destruct (Hback a pa Ha) as (pa0 & Ha0 & Hsa & _).
    destruct (Hback b pb Hb) as (pb0 & Hb0 & Hsb & _).
    apply (Hone a b pa0 pb0); tauto.
  - rewrite Hlocked. split.
    + intros (j & pj & Hj & Hpj). destruct (decide (i = j)) as [<-|Hne].
      * exists i, pc'. rewrite list_lookup_insert_eq by done.
        split; [done|]. apply Hsame. congruence.
      * exists j, pj. by rewrite list_lookup_insert_ne.
    + intros (j & pj & Hj & Hpj). destruct (Hback j pj Hj) as (pj0 & Hj0 & Hs & _).
      exists j, pj0. tauto.
  - intros j. rewrite Hqueue. split.
    + intros (body & Hj). exists body. rewrite list_lookup_insert_ne; [done|].
      intros <-. rewrite Hi in Hj. injection Hj as ->. by destruct (Hpc body).
    + intros (body & Hj). destruct (Hback j _ Hj) as (pj0 & Hj0 & _ & Hq).
      exists body. by rewrite Hj0, (proj1 (Hq body) eq_refl).
  - done.
  - done.
Qed.

Lemma Fair_release s i :
  Fair s → calls s !! i = Some (Inside 0) → Fair (step s (Resume i)).
Proof.
  intros HF Hi. pose proof HF as [Hone Hlocked Hqueue Horder Hempty].
  pose proof (lookup_lt_Some _ _ _ Hi) as Hlt.
  assert (∀ j pj, calls s !! j = Some pj → holds pj → j = i) as Honly.
  { intros j pj Hj Hpj. by apply (Hone j i pj (Inside 0)). }
  unfold step. rewrite Hi. unfold release.
  destruct (queue (lock s)) as [|next rest] eqn:Hq.
  - (* nobody waits: the lock becomes free *)
    assert (∀ j pj, <[i := Finished]> (calls s) !! j = Some pj → ¬ holds pj) as Hnone.
    { intros j pj Hj Hpj. destruct (decide (i = j)) as [<-|Hne].
      - rewrite list_lookup_insert_eq in Hj by done. by injection Hj as <-.
      - rewrite list_lookup_insert_ne in Hj by done.
        destruct Hne. symmetry. by apply (Honly j pj). }
    split; cbn [lock calls queue locked].
    + intros a b pa pb Ha _ Hpa. by destruct (Hnone a pa).
    + split; [done|]. intros (j & pj & Hj & Hpj). by destruct (Hnone j pj).
    + intros j. split; [by intros ?%elem_of_nil|]. intros (body & Hj).
      destruct (decide (i = j)) as [<-|Hne].
      * rewrite list_lookup_insert_eq in Hj by done. done.
      * rewrite list_lookup_insert_ne in Hj by done.
        assert (j ∈ @nil nat) as Hin by (apply Hqueue; by exists body).
        by apply elem_of_nil in Hin.
    + intros a b x y Ha. by rewrite lookup_nil in Ha.
    + done.
  - (* the first in the queue is handed the lock *)
    destruct (proj1 (Hqueue next)) as (body & Hnext); [by left|].
    assert (next ≠ i) as Hne by (intros ->; congruence).
    assert (∀ x, x ∈ rest → x ≠ next) as Hrest.
    { intros x Hx ->. apply list_elem_of_lookup_1 in Hx as [k Hk].
      assert (next < next); [|lia].
      apply (Horder 0 (S k)); [done|done|lia]. }
    assert (alter grant next (<[i := Finished]> (calls s)) !! next
            = Some (Granted body)) as Hgranted.
    { rewrite list_lookup_alter_eq, list_lookup_insert_ne by done. by rewrite Hnext. }
    assert (∀ j, j ≠ next → j ≠ i →
              alter grant next (<[i := Finished]> (calls s)) !! j = calls s !! j)
      as Hother.
    { intros j Hj1 Hj2. rewrite list_lookup_alter_ne by done.
      by rewrite list_lookup_insert_ne. }
    assert (alter grant next (<[i := Finished]> (calls s)) !! i = Some Finished)
      as Hdone.
    { rewrite list_lookup_alter_ne by done. by rewrite list_lookup_insert_eq. }
    assert (∀ j pj, alter grant next (<[i := Finished]> (calls s)) !! j = Some pj →
              holds pj → j = next) as Honly'.
    { intros j pj Hj Hpj. destruct (decide (j = next)) as [|Hj1]; [done|].
      destruct (decide (j = i)) as [->|Hj2].
      - rewrite Hdone in Hj. by injection Hj as <-.
      - rewrite Hother in Hj by done. destruct Hj2. by apply (Honly j pj). }
    split; cbn [lock calls queue locked].
    + intros a b pa pb Ha Hb Hpa Hpb.
      rewrite (Honly' a pa Ha Hpa). symmetry. by apply (Honly' b pb Hb).
    + split; [intros _; by exists next, (Granted body)|]. intros _.
      apply Hlocked. by exists i, (Inside 0).
    + intros j. split.
      * intros Hj. pose proof (Hrest j Hj) as Hj1.
        destruct (proj1 (Hqueue j)) as (bj & Hbj); [by right|].
        exists bj. rewrite Hother; [done..|]. intros ->. congruence.
      * intros (bj & Hj). destruct (decide (j = next)) as [->|Hj1]; [congruence|].
        destruct (decide (j = i)) as [->|Hj2]; [congruence|].
        rewrite Hother in Hj by done.
        assert (j ∈ next :: rest) as Hin by (apply Hqueue; by exists bj).
        apply elem_of_cons in Hin as [?|?]; done.
    + intros a b x y Ha Hb Hlt'. apply (Horder (S a) (S b)); [done|done|lia].
    + intros Hfree.
      assert (locked (lock s) = true) by (apply Hlocked; by exists i, (Inside 0)).
      congruence.
Qed.

Lemma Fair_step s m : Fair s → Fair (step s m).
Proof.
  intros HF. destruct m as [body|i]; [by apply Fair_enter|].
  destruct (calls s !! i) as [[body|body|[|body]|]|] eqn:Hi.
  - unfold step. by rewrite Hi.
  - unfold step. rewrite Hi. by apply (Fair_pass s i (Granted body)).
  - by apply Fair_release.
  - unfold step. rewrite Hi. by apply (Fair_pass s i (Inside (S body))).
  - unfold step. by rewrite Hi.
  - unfold step. by rewrite Hi.
Qed.

Lemma Fair_steps ms : Fair (steps ms start).
Proof.
  unfold steps. generalize Fair_start. generalize start.
  induction ms as [|m ms IH]; intros s HF; [done|].
  simpl. by apply IH, Fair_step.
Qed.

End LockFacts.

(** X17.  Mutual exclusion.  However calls of [run] arrive and however
    their segments interleave, at most one call has the lock: two calls that
    were granted the lock or that are running their body are the same
    call. *)
Theorem lock_is_held_by_one_call (ms : list Lock.Step) (i j : nat) (pi pj : Lock.RunPc) :
  Lock.calls (Lock.steps ms Lock.start) !! i = Some pi →
  Lock.calls (Lock.steps ms Lock.start) !! j = Some pj →
  Lock.holds pi → Lock.holds pj →
  i = j.
Proof. apply (Lock.fair_one _ (LockFacts.Fair_steps ms)). Qed.

(** X18.  Nobody waits for a free lock.  At any moment the lock is locked
    exactly when some call holds it; every call that waits stands in the
    queue, which is empty when the lock is free; and the queue lists the
    waiting calls in the order in which they were made, so that [release]
    hands the lock to the call that has waited longest. *)
Theorem lock_queue_is_fair (ms : list Lock.Step) :
  let s := Lock.steps ms Lock.start in
  (Lock.locked (Lock.lock s) = true
   ↔ ∃ i pc, Lock.calls s !! i = Some pc ∧ Lock.holds pc)
  ∧ (∀ j, j ∈ Lock.queue (Lock.lock s)
          ↔ ∃ body, Lock.calls s !! j = Some (Lock.Queued body))
  ∧ (Lock.locked (Lock.lock s) = false → Lock.queue (Lock.lock s) = [])
  ∧ (∀ i j a b, Lock.queue (Lock.lock s) !! i = Some a →
                Lock.queue (Lock.lock s) !! j = Some b → i < j → a < b).
Proof.
  intros s. destruct (LockFacts.Fair_steps ms) as [_ Hlocked Hqueue Horder Hempty].
  split; [exact Hlocked|]. split; [exact Hqueue|]. split; [exact Hempty|exact Horder].
Qed.

(** ** The second card never waits *)

(** X19.  A player who holds one card never waits for a second one.
    Whatever position of the board the player flips next, the call settles
    within its four segments: it is rejected with "no card at location"
    exactly when the position is empty, with "target controlled by a player"
    exactly when somebody controls the card, whoever that is, and in every
    other case it is fulfilled with a snapshot. *)
Theorem flip_second_card_never_waits
    (p : string) (r c r0 c0 : Z) (w : World) :
  Tidy (board w) →
  players (board w) !! p = Some [(r0, c0)] →
  controllerAt (board w) r0 c0 = Some p →
  inGrid (board w) r c →
  ∃ s, (flip p r c w).1 = FlipDone s
       ∧ (cardAt (board w) r c = None → s = Rejected NoCardHere)
       ∧ (cardAt (board w) r c ≠ None → controllerAt (board w) r c ≠ None →
          s = Rejected TargetControlled)
       ∧ (cardAt (board w) r c ≠ None → controllerAt (board w) r c = None →
          s = Fulfilled (snapshot (board (flip p r c w).2) p)).
Proof.
  intros HT Hrec Hheld Hin.
  pose proof (tidy_inv _ HT) as HI.
  destruct (tidy_records _ HT p _ Hrec) as (Hp & _).
  pose proof (Tidy_flip_locked p r c w Hp HT) as HT'.
  unfold flip. cbn [flip_run flip_step].
  rewrite (flip_entry_inGrid p r c w _ Hrec Hin). cbn [flip_run flip_step].
  rewrite (finishPrevious_one_controlled p r0 c0 p w Hrec Hheld).
  revert HT'. unfold flip_locked. rewrite (Tidy_checkRep _ HT), Hrec. cbn [negb].
  destruct (cardAt (board w) r c) as [label|] eqn:Hcard.
  - destruct (controllerAt (board w) r c) as [q|] eqn:Hown.
    + destruct (held_card_present _ _ _ _ HI Hown) as [_ Hup].
      pose proof (tidy_owners _ HT _ _ _ Hown) as Hq.
      rewrite Hup. cbn [truthy andb]. rewrite bool_decide_eq_false_2 by done.
      cbn [negb]. intros _. eexists. split; [reflexivity|]. by repeat split.
    + cbn [truthy]. rewrite andb_false_r.
      destruct (_ && _ && _); cbn [snd]; intros HT';
        cbn [flip_run flip_step fst snd]; rewrite look_locked_Tidy by done;
        (eexists; split; [reflexivity|]; by repeat split).
  - intros _. eexists. split; [reflexivity|]. by repeat split.
Qed.

(** ** What every reachable board looks like *)

Section Reachable.

Lemma sameTable_reachable s s' :
  rtc sys_step s s' → sameTable (board s.1) (board s'.1).
Proof.
  induction 1 as [|s1 s2 s3 Hstep _ IH]; [apply sameTable_refl|].
  eapply sameTable_trans; [|exact IH].
  destruct Hstep as [w ts t Hstart|w ts i t Ht]; simpl.
  - apply sameTable_refl.
  - apply sameTable_task_step.
Qed.

Lemma newBoard_dims R C init b : newBoard R C init = inr b → rows b = R ∧ columns b = C.
Proof.
  unfold newBoard. destruct init as [l|].
  - case_bool_decide; [done|]. destruct (checkRep _); [|done]. by intros [= <-].
  - destruct (checkRep _); [|done]. by intros [= <-].
Qed.

End Reachable.

(** X20.  What every reachable board looks like.  However calls are made
    and interleaved on a new board, the dimensions stay those given to the
    constructor and the four grids keep them; a card that somebody controls
    is on the board, present and face up; and every position on a player's
    record and every position with a waiter is a position of the board. *)
Theorem reachable_boards_are_well_formed
    (R C : Z) (init : option (list string)) (b0 : Board) (rng : nat → nat)
    (s : World * list Task) :
  newBoard R C init = inr b0 →
  rtc sys_step (initial b0 rng, []) s →
  let b := board s.1 in
  rows b = R ∧ columns b = C ∧ Shape b
  ∧ (∀ r c p, controllerAt b r c = Some p →
       inGrid b r c ∧ cardAt b r c ≠ None ∧ faceUpAt b r c = true)
  ∧ (∀ p l q, players b !! p = Some l → q ∈ l → inGrid b q.1 q.2)
  ∧ (∀ r c, waitersAt b r c ≠ [] → inGrid b r c).
Proof.
  intros Hnew Hrun b.
  pose proof (Inv_reachable _ _ Hrun (Inv_newBoard R C init b0 Hnew)) as HI.
  pose proof (inv_shape _ HI) as Hs.
  destruct (sameTable_reachable _ _ Hrun) as (HR & HC & _).
  destruct (newBoard_dims R C init b0 Hnew) as [HR0 HC0]. simpl in HR, HC.
  unfold b. split; [by rewrite HR|]. split; [by rewrite HC|]. split; [done|]. split.
  - intros r c p Hheld. destruct (held_card_present _ _ _ _ HI Hheld) as [Hcard Hup].
    split; [by apply card_inGrid|done].
  - split; [intros p l q; by apply recorded_inGrid|].
    intros r c. by apply waiters_inGrid.
Qed.

(** ** The simulation reads a snapshot *)

Module SnapshotLines.
Import Parse ParseFacts.

Lemma string_app_cons a s t : String a s +:+ t = String a (s +:+ t).
Proof. reflexivity. Qed.

Lemma oneLine_app s t : oneLine s → oneLine t → oneLine (s +:+ t).
Proof.
  intros Hs Ht. induction s as [|a s IH]; [done|].
  destruct Hs as [Ha Hs]. rewrite string_app_cons. split; [done|by apply IH].
Qed.

Lemma trimEnd_app s t :
  trimEnd t ≠ EmptyString → trimEnd (s +:+ t) = s +:+ trimEnd t.
Proof.
  intros Ht. induction s as [|a s IH]; [done|].
  rewrite !string_app_cons. cbn [trimEnd]. rewrite IH.
  destruct (s +:+ trimEnd t) eqn:Hst; [|done].
  destruct s; [|done]. simpl in Hst. by destruct Ht.
Qed.

Lemma plain_app s t : oneLine s → plain t → plain (s +:+ t).
Proof.
  intros Hs (Hne & Hline & Htrim). split; [|split].
  - destruct s; [done|]. by rewrite string_app_cons.
  - by apply oneLine_app.
  - rewrite trimEnd_app by (by rewrite Htrim). by rewrite Htrim.
Qed.

(** A string all of whose code units are digits or the letter x. *)
Lemma plain_solid s :
  s ≠ EmptyString →
  Forall (λ a, isWhite a = false) (String.list_ascii_of_string s) → plain s.
Proof.
  intros Hne Hs. split; [done|]. clear Hne. induction s as [|a s IH]; [done|].
  simpl in Hs. apply Forall_cons in Hs as [Ha Hs]. destruct (IH Hs) as [Hline Htrim].
  split.
  - split; [|done]. intros ->. done.
  - cbn [trimEnd]. rewrite Htrim, Ha. by destruct s.
Qed.

Lemma digit_not_white a : isDigit a = true → isWhite a = false.
Proof.
  unfold isDigit, isWhite. rewrite bool_decide_eq_true, bool_decide_eq_false. lia.
Qed.

Lemma list_ascii_app s t :
  String.list_ascii_of_string (s +:+ t)
  = String.list_ascii_of_string s ++ String.list_ascii_of_string t.
Proof. induction s as [|a s IH]; [done|]. simpl. by rewrite IH. Qed.

Lemma plain_header (R C : Z) :
  (0 ≤ R)%Z → (0 ≤ C)%Z → plain (pretty R +:+ "x" +:+ pretty C).
Proof.
  intros HR HC.
  destruct (HeaderFacts.pretty_decimal R HR) as [[Hne1 Hd1] _].
  destruct (HeaderFacts.pretty_decimal C HC) as [[Hne2 Hd2] _].
  apply plain_solid.
  - destruct (pretty R); [done|]. done.
  - rewrite list_ascii_app. apply Forall_app_2.
    + eapply Forall_impl; [exact Hd1|]. apply digit_not_white.
    + simpl. apply Forall_cons_2; [done|].
      eapply Forall_impl; [exact Hd2|]. apply digit_not_white.
Qed.

Lemma plain_words : plain "down" ∧ plain "none" ∧ oneLine "my " ∧ oneLine "up ".
Proof.
  unfold plain. repeat split; try discriminate; try (vm_compute; reflexivity);
    vm_compute; discriminate.
Qed.

Lemma plain_cellLine b p r c :
  (∀ label, cardAt b r c = Some label → plain label) → plain (cellLine b p r c).
Proof.
  intros Hlabel. destruct plain_words as (Hdown & Hnone & Hmy & Hup).
  unfold cellLine. destruct (cardAt b r c) as [card|]; [|done].
  specialize (Hlabel card eq_refl). destruct (negb _); [done|].
  case_bool_decide; by apply plain_app.
Qed.

Lemma trimEnd_tail a l :
  trimEnd (String a l) = String a l →
  trimEnd l = l ∧ (l = EmptyString → isWhite a = false).
Proof.
  cbn [trimEnd]. destruct (trimEnd l) as [|b kept] eqn:Hl.
  - destruct (isWhite a) eqn:Ha; [done|]. by intros [= <-].
  - intros [= <-]. split; [done|]. intros Hnil. by rewrite Hnil in Hl.
Qed.

Lemma splitLines_line l rest :
  oneLine l → trimEnd l = l →
  splitLines (l +:+ String NL rest) = l :: splitLines rest.
Proof.
  induction l as [|a l IH]; intros Hline Htrim.
  - change (EmptyString +:+ String NL rest) with (String NL rest).
    rewrite LineEnds.splitLines_unfold. by rewrite bool_decide_eq_true_2.
  - destruct Hline as [Ha Hline]. apply trimEnd_tail in Htrim as [Htrim Hlast].
    rewrite string_app_cons, LineEnds.splitLines_unfold.
    rewrite bool_decide_eq_false_2 by done.
    destruct l as [|b l'].
    + change (EmptyString +:+ String NL rest) with (String NL rest).
      assert (a ≠ CR) as Hcr by (intros ->; by specialize (Hlast eq_refl)).
      rewrite (bool_decide_eq_false_2 (a = CR)) by done. cbn [andb].
      rewrite LineEnds.splitLines_unfold. by rewrite bool_decide_eq_true_2.
    + rewrite string_app_cons. destruct Hline as [Hb Hline'].
      rewrite (bool_decide_eq_false_2 (b = NL)) by done. rewrite andb_false_r.
      rewrite <- string_app_cons. rewrite IH; [done| |done]. by split.
Qed.

Lemma splitLines_last l : oneLine l → splitLines l = [l].
Proof.
  induction l as [|a l IH]; intros Hline; [done|].
  destruct Hline as [Ha Hline]. rewrite LineEnds.splitLines_unfold.
  rewrite bool_decide_eq_false_2 by done. destruct l as [|b l']; [done|].
  destruct Hline as [Hb Hline'].
  rewrite (bool_decide_eq_false_2 (b = NL)) by done. rewrite andb_false_r.
  rewrite IH; [done|]. by split.
Qed.

Lemma concat_cons2 (x y : string) (ls : list string) :
  String.concat LF (x :: y :: ls) = x +:+ String NL (String.concat LF (y :: ls)).
Proof. reflexivity. Qed.

Lemma splitLines_concat (lines : list string) :
  lines ≠ [] → Forall plain lines → splitLines (String.concat LF lines) = lines.
Proof.
  induction lines as [|x [|y ls] IH]; intros Hne Hall; [done| |].
  - apply Forall_singleton in Hall as (_ & Hline & _). by apply splitLines_last.
  - apply Forall_cons in Hall as [(_ & Hline & Htrim) Hall].
    rewrite concat_cons2, splitLines_line by done. by rewrite IH.
Qed.

Lemma trimEnd_concat (lines : list string) :
  lines ≠ [] → Forall plain lines →
  String.concat LF lines ≠ EmptyString
  ∧ trimEnd (String.concat LF lines) = String.concat LF lines.
Proof.
  induction lines as [|x [|y ls] IH]; intros Hne Hall; [done| |].
  - apply Forall_singleton in Hall as (Hx & _ & Htrim). done.
  - apply Forall_cons in Hall as [(Hx & _ & _) Hall].
    destruct (IH ltac:(done) Hall) as [Hne' Htrim'].
    rewrite concat_cons2. split; [by destruct x|].
    assert (trimEnd (String NL (String.concat LF (y :: ls)))
            = String NL (String.concat LF (y :: ls))) as Hrest.
    { cbn [trimEnd]. rewrite Htrim'.
      by destruct (String.concat LF (y :: ls)). }
    rewrite trimEnd_app by (by rewrite Hrest). by rewrite Hrest.
Qed.

Lemma trim_snapshot (header : string) (cells : list string) :
  (∃ a h, header = String a h ∧ isWhite a = false) →
  Forall plain (header :: cells) →
  trim (String.concat LF (header :: cells) +:+ LF) = String.concat LF (header :: cells).
Proof.
  intros (a & h & -> & Ha) Hall.
  replace (String.concat LF (String a h :: cells) +:+ LF)
    with (String.concat LF (String a h :: cells) +:+ String NL EmptyString)
    by reflexivity.
  rewrite LineEnds.trim_snoc_white by done.
  destruct (trimEnd_concat (String a h :: cells) ltac:(done) Hall) as [_ Htrim].
  unfold trim.
  assert (trimStart (String.concat LF (String a h :: cells))
          = String.concat LF (String a h :: cells)) as ->; [|done].
  destruct cells as [|y ls]; [simpl; by rewrite Ha|].
  rewrite concat_cons2, string_app_cons. cbn [trimStart]. by rewrite Ha.
Qed.

End SnapshotLines.

(** X21.  The simulation finds the card it has flipped.  On a board whose
    labels are as [parseFromFile] produces them (not empty, on one line,
    without white space at the end), what compact mode extracts from a
    snapshot for a position of the board is that position's line: trimming
    the snapshot and splitting it gives back the lines that [look] joined,
    the header yields the number of columns, and the index 1 + r × columns
    + c is the position's. *)
Theorem simulation_finds_the_flipped_position
    (b : Board) (p : string) (size r c : Z) :
  (∀ r' c' label, cardAt b r' c' = Some label → plain label) →
  inGrid b r c →
  Parse.splitLines (Parse.trim (snapshot b p)) = lookLines b p
  ∧ posLine (snapshot b p) size r c = cellLine b p r c.
Proof.
  intros Hlabels Hin.
  assert (0 ≤ rows b ∧ 0 ≤ columns b)%Z as [HR HC] by (unfold inGrid in Hin; lia).
  destruct (HeaderFacts.pretty_decimal _ HR) as [Hdec1 Hv1].
  pose proof Hdec1 as [Hne1 Hd1].
  destruct (HeaderFacts.pretty_decimal _ HC) as [Hdec2 Hv2].
  set (header := pretty (rows b) +:+ "x" +:+ pretty (columns b)).
  assert (Forall plain (lookLines b p)) as Hplain.
  { rewrite lookLines_cells by done. apply Forall_cons_2.
    - by apply SnapshotLines.plain_header.
    - apply Forall_fmap, Forall_forall. intros k _. simpl.
      apply SnapshotLines.plain_cellLine. apply Hlabels. }
  assert (Parse.splitLines (Parse.trim (snapshot b p)) = lookLines b p) as Hlines.
  { unfold snapshot. rewrite lookLines_cells in * by done. fold header in Hplain |- *.
    rewrite SnapshotLines.trim_snapshot; [|
      |done].
    - by apply SnapshotLines.splitLines_concat.
    - unfold header. destruct (pretty (rows b)) as [|a h] eqn:Hpretty; [done|].
      exists a, (h +:+ "x" +:+ pretty (columns b)). split; [done|].
      simpl in Hd1. apply Forall_cons in Hd1 as [Ha _].
      by apply SnapshotLines.digit_not_white. }
  split; [exact Hlines|].
  unfold posLine. rewrite Hlines. subst header.
  assert (lookLines b p !! 0
          = Some (pretty (rows b) +:+ "x" +:+ pretty (columns b))) as -> by done.
  assert (Parse.matchHeader (pretty (rows b) +:+ "x" +:+ pretty (columns b))
          = Some (pretty (rows b), pretty (columns b))) as Hheader.
  { by apply ParseFacts.matchHeader_Some. }
  cbn [from_option id]. rewrite Hheader.
  rewrite ParseFacts.parseInt_decimal, Hv2.
  destruct (lookLines_position b p r c Hin) as [_ ->].
  rewrite bool_decide_eq_true_2; [done|].
  unfold compactIndex, inGrid in *. nia.
Qed.

(** ** The labels of a board file *)

Module LabelFacts.
Import Parse ParseFacts.









End LabelFacts.


(** ** The branches of flip on the example boards *)

Lemma Tidy_polite_run R C init b rng ms :
  newBoard R C init = inr b → Forall politeMove ms →
  Tidy (board (schedule ms (initial b rng, [])).1).
Proof.
  intros Hnew Hms.
  apply (Tidy_schedule ms (initial b rng, []) Hms); [|done].
  by apply (Tidy_newBoard R C init).
Qed.

Ltac polite_moves := repeat (apply Forall_cons_2; [by simpl|]); apply Forall_nil_2.

Lemma flip_first_card_takes_free_card_witness :
  let w := initial Waiting.rowABA Examples.rng0 in
  cardAt (board w) 0 0 = Some "A"
  ∧ (flip "alice" 0 0 w).1
    = FlipDone (Fulfilled (snapshot (board (flip "alice" 0 0 w).2) "alice"))
  ∧ cellLine (board (flip "alice" 0 0 w).2) "alice" 0 0 = "my A"
  ∧ players (board (flip "alice" 0 0 w).2) !! "alice" = Some [(0, 0)%Z].
Proof.
  intros w. split; [vm_compute; reflexivity|].
  destruct (flip_first_card_takes_free_card "alice" 0 0 "A" w)
    as (Hres & Hline & _ & _ & Hrec & _).
  - apply (Tidy_newBoard 1 3 (Some ["A"; "B"; "A"])). vm_compute; reflexivity.
  - done.
  - vm_compute; reflexivity.
  - vm_compute; reflexivity.
  - left. vm_compute; reflexivity.
  - split; [exact Hres|]. split; [exact Hline|exact Hrec].
Defined.

Lemma flip_first_card_waits_for_held_card_witness :
  let w := Holding.aliceHolds.1 in
  controllerAt (board w) 0 0 = Some "alice"
  ∧ (flip_run 7 "bob" 0 0 FlipEntry w).1 = FlipAwait (fresh w)
  ∧ waitersAt (board (flip_run 7 "bob" 0 0 FlipEntry w).2) 0 0
    = waitersAt (board w) 0 0 ++ [mkWaiter (fresh w) "bob"].
Proof.
  intros w. split; [vm_compute; reflexivity|].
  destruct (flip_first_card_waits_for_held_card "bob" "alice" 0 0 "A" w 4)
    as (Hres & Hqueue & _).
  - apply (Tidy_polite_run 1 3 (Some ["A"; "B"; "A"])); [vm_compute; reflexivity|].
    polite_moves.
  - done.
  - vm_compute; reflexivity.
  - vm_compute; reflexivity.
  - vm_compute; reflexivity.
  - done.
  - vm_compute; reflexivity.
  - split; [exact Hres|exact Hqueue].
Defined.

Lemma flip_on_empty_position_rejects_witness :
  let w := Examples.aliceMatches.1 in
  cardAt (board w) 0 0 = None
  ∧ players (board w) !! "alice" = Some [(0, 2)%Z]
  ∧ flip "bob" 0 0 w = (FlipDone (Rejected NoCardHere), enrolled "bob" w)
  ∧ (flip "alice" 0 0 w).1 = FlipDone (Rejected NoCardHere)
  ∧ controllerAt (board (flip "alice" 0 0 w).2) 0 2 = None
  ∧ faceUpAt (board (flip "alice" 0 0 w).2) 0 2 = true.
Proof.
  intros w.
  assert (cardAt (board w) 0 0 = None) as Hgone by (vm_compute; reflexivity).
  assert (players (board w) !! "alice" = Some [(0, 2)%Z]) as Hrec
    by (vm_compute; reflexivity).
  assert (Tidy (board w)) as HT.
  { apply (Tidy_polite_run 1 3 (Some ["A"; "A"; "B"])); [vm_compute; reflexivity|].
    polite_moves. }
  split; [exact Hgone|]. split; [exact Hrec|].
  assert (inGrid (board w) 0 0) as Hin by (vm_compute; intuition discriminate).
  split.
  - apply (flip_on_empty_position_rejects "bob" 0 0 w HT); [done|exact Hin|exact Hgone|].
    vm_compute; reflexivity.
  - destruct (flip_on_empty_position_rejects "alice" 0 0 w HT) as [_ Hsecond];
      [done|exact Hin|exact Hgone|].
    destruct (Hsecond 0%Z 2%Z Hrec) as (Hres & Hfree & Hup & _);
      [vm_compute; reflexivity|].
    split; [exact Hres|]. split; [exact Hfree|exact Hup].
Defined.

Lemma flip_second_card_match_keeps_both_witness :
  let w := Matching.aliceHoldsA.1 in
  players (board w) !! "alice" = Some [(0, 0)%Z]
  ∧ cellLine (board (flip "alice" 0 1 w).2) "alice" 0 0 = "my A"
  ∧ cellLine (board (flip "alice" 0 1 w).2) "alice" 0 1 = "my A"
  ∧ players (board (flip "alice" 0 1 w).2) !! "alice" = Some [(0, 0); (0, 1)]%Z.
Proof.
  intros w.
  assert (players (board w) !! "alice" = Some [(0, 0)%Z]) as Hrec
    by (vm_compute; reflexivity).
  split; [exact Hrec|].
  destruct (flip_second_card_match_keeps_both "alice" 0 1 0 0 "A" w)
    as (_ & Hline0 & Hline & _ & _ & Hrec' & _).
  - apply (Tidy_polite_run 1 3 (Some ["A"; "A"; "B"])); [vm_compute; reflexivity|].
    polite_moves.
  - exact Hrec.
  - vm_compute; reflexivity.
  - vm_compute; reflexivity.
  - vm_compute; reflexivity.
  - vm_compute; reflexivity.
  - split; [exact Hline0|]. split; [exact Hline|exact Hrec'].
Defined.

Lemma finishPrevious_removes_matched_pair_witness :
  let w := Matching.aliceMatched.1 in
  let w' := finishPreviousForPlayer_locked "alice" w in
  players (board w) !! "alice" = Some [(0, 0); (0, 1)]%Z
  ∧ cardAt (board w') 0 0 = None ∧ cardAt (board w') 0 1 = None
  ∧ cardAt (board w') 0 2 = cardAt (board w) 0 2
  ∧ players (board w') !! "alice" = Some [].
Proof.
  intros w w'.
  assert (players (board w) !! "alice" = Some [(0, 0); (0, 1)]%Z) as Hrec
    by (vm_compute; reflexivity).
  split; [exact Hrec|].
  destruct (finishPrevious_removes_matched_pair "alice" 0 0 0 1 "A" w)
    as (Hgone & Hkept & Hrec' & _).
  - apply (Inv_reachable (initial Examples.rowAAB Examples.rng0, [])).
    + transitivity Matching.aliceHoldsA; apply schedule_reachable.
    + apply (Inv_newBoard 1 3 (Some ["A"; "A"; "B"])). vm_compute; reflexivity.
  - exact Hrec.
  - vm_compute; reflexivity.
  - vm_compute; reflexivity.
  - destruct (Hgone 0%Z 0%Z) as (Hgone0 & _); [left; split; reflexivity|].
    destruct (Hgone 0%Z 1%Z) as (Hgone1 & _); [right; split; reflexivity|].
    destruct (Hkept 0%Z 2%Z) as (Hkept2 & _); [intros [_ [=]]|intros [_ [=]]|].
    split; [exact Hgone0|]. split; [exact Hgone1|]. split; [exact Hkept2|exact Hrec'].
Defined.

Lemma finishPrevious_turns_down_mismatched_pair_witness :
  let w := Pending.aliceMismatched.1 in
  let w' := finishPreviousForPlayer_locked "alice" w in
  players (board w) !! "alice" = Some [(0, 0); (0, 1)]%Z
  ∧ faceUpAt (board w) 0 0 = true
  ∧ faceUpAt (board w') 0 0 = false ∧ faceUpAt (board w') 0 1 = false
  ∧ players (board w') !! "alice" = Some [].
Proof.
  intros w w'.
  assert (players (board w) !! "alice" = Some [(0, 0); (0, 1)]%Z) as Hrec
    by (vm_compute; reflexivity).
  split; [exact Hrec|]. split; [vm_compute; reflexivity|].
  destruct (finishPrevious_turns_down_mismatched_pair "alice" 0 0 0 1 w)
    as (w4 & _ & Hquiet & _ & Hdown & _ & _ & _ & Hrec' & _).
  - apply (Inv_schedule 1 3 (Some ["A"; "B"; "A"])). vm_compute; reflexivity.
  - exact Hrec.
  - vm_compute. intros [_ [=]].
  - unfold w'. rewrite Hquiet by (vm_compute; reflexivity).
    destruct (Hdown 0%Z 0%Z) as (_ & Hdown0);
      [left; split; reflexivity|left; vm_compute; reflexivity|].
    destruct (Hdown 0%Z 1%Z) as (_ & Hdown1);
      [right; split; reflexivity|left; vm_compute; reflexivity|].
    split; [exact Hdown0|]. split; [exact Hdown1|exact Hrec'].
Defined.

Lemma map_alone_relabels_every_card_witness :
  let w := initial Examples.rowAAB Examples.rng0 in
  let w' := (map_run 7 "admin" Rewrite.aToZ (MapScan 0 0 []) w).2 in
  keepsLabels Rewrite.aToZ
  ∧ (map_run 7 "admin" Rewrite.aToZ (MapScan 0 0 []) w).1
    = MapDone (Fulfilled (snapshot (board w') "admin"))
  ∧ cardAt (board w') 0 0 = Rewrite.aToZ <$> cardAt (board w) 0 0.
Proof.
  intros w w'.
  assert (keepsLabels Rewrite.aToZ) as Hf.
  { intros l Hl. unfold Rewrite.aToZ. by case_bool_decide. }
  split; [exact Hf|].
  destruct (map_alone_relabels_every_card "admin" Rewrite.aToZ w 0)
    as (Hres & Hcards & _).
  - apply (Tidy_newBoard 1 3 (Some ["A"; "A"; "B"])). vm_compute; reflexivity.
  - exact Hf.
  - split; [exact Hres|exact (Hcards 0%Z 0%Z)].
Defined.

Lemma replace_route_renames_one_card_witness :
  let w := initial Examples.rowAAB Examples.rng0 in
  let run := map_run 7 "admin" (replaceCard "A" "Z") (MapScan 0 0 []) w in
  run.1 = MapDone (Fulfilled (snapshot (board run.2) "admin"))
  ∧ cardAt (board run.2) 0 1
    = if decide (cardAt (board w) 0 1 = Some "A")
      then Some "Z" else cardAt (board w) 0 1.
Proof.
  intros w run.
  destruct (replace_route_renames_one_card "admin" "A" "Z" w 0)
    as (_ & Hres & Hcards).
  - apply (Tidy_newBoard 1 3 (Some ["A"; "A"; "B"])). vm_compute; reflexivity.
  - discriminate.
  - split; [exact Hres|exact (Hcards 0%Z 1%Z)].
Defined.


Lemma new_board_shows_every_card_face_down_witness :
  lookLines Examples.rowAAB "alice"
  = (pretty 1%Z +:+ "x" +:+ pretty 3%Z) :: replicate (Z.to_nat (1 * 3)) "down".
Proof.
  apply (new_board_shows_every_card_face_down 1 3 (Some ["A"; "A"; "B"])).
  vm_compute; reflexivity.
Defined.

Lemma snapshot_line_of_position_witness :
  let b := board Holding.aliceHolds.1 in
  inGrid b 0 0
  ∧ lookLines b "alice" !! Z.to_nat (compactIndex (columns b) 0 0)
    = Some (cellLine b "alice" 0 0).
Proof.
  intros b.
  assert (inGrid b 0 0) as Hin by (vm_compute; intuition discriminate).
  split; [exact Hin|].
  destruct (snapshot_line_of_position b "alice" 0 0 Hin) as [_ Hline]. exact Hline.
Defined.


Lemma lock_is_held_by_one_call_witness :
  let ms := [Lock.Enter 1; Lock.Enter 0; Lock.Resume 0] in
  Lock.calls (Lock.steps ms Lock.start) !! 0 = Some (Lock.Inside 1)
  ∧ Lock.calls (Lock.steps ms Lock.start) !! 1 = Some (Lock.Queued 0)
  ∧ 0 = 0.
Proof.
  intros ms. split; [reflexivity|]. split; [reflexivity|].
  apply (lock_is_held_by_one_call ms 0 0 (Lock.Inside 1) (Lock.Inside 1));
    [reflexivity|reflexivity|exact I|exact I].
Defined.

Lemma flip_second_card_never_waits_witness :
  let w := Holding.aliceHolds.1 in
  players (board w) !! "alice" = Some [(0, 0)%Z]
  ∧ ∃ s, (flip "alice" 0 0 w).1 = FlipDone s
         ∧ (cardAt (board w) 0 0 ≠ None → controllerAt (board w) 0 0 ≠ None →
            s = Rejected TargetControlled).
Proof.
  intros w.
  assert (players (board w) !! "alice" = Some [(0, 0)%Z]) as Hrec
    by (vm_compute; reflexivity).
  split; [exact Hrec|].
  destruct (flip_second_card_never_waits "alice" 0 0 0 0 w)
    as (s & Hres & _ & Hheld & _).
  - apply (Tidy_polite_run 1 3 (Some ["A"; "B"; "A"])); [vm_compute; reflexivity|].
    polite_moves.
  - exact Hrec.
  - vm_compute; reflexivity.
  - vm_compute; intuition discriminate.
  - exists s. split; [exact Hres|exact Hheld].
Defined.

Lemma reachable_boards_are_well_formed_witness :
  let b := board Holding.aliceHolds.1 in
  controllerAt b 0 0 = Some "alice"
  ∧ rows b = 1%Z ∧ columns b = 3%Z
  ∧ inGrid b 0 0 ∧ cardAt b 0 0 ≠ None ∧ faceUpAt b 0 0 = true.
Proof.
  intros b.
  assert (controllerAt b 0 0 = Some "alice") as Hheld by (vm_compute; reflexivity).
  split; [exact Hheld|].
  destruct (reachable_boards_are_well_formed 1 3 (Some ["A"; "B"; "A"])
              Waiting.rowABA Examples.rng0 Holding.aliceHolds)
    as (HR & HC & _ & Hup & _).
  - vm_compute; reflexivity.
  - apply schedule_reachable.
  - split; [exact HR|]. split; [exact HC|]. exact (Hup 0%Z 0%Z "alice" Hheld).
Defined.

Lemma cardAt_elem b r c label :
  cardAt b r c = Some label → ∃ line, line ∈ cards b ∧ Some label ∈ line.
Proof.
  unfold cardAt, at2. case_bool_decide; [|done].
  destruct (cards b !! Z.to_nat r) as [line|] eqn:Hline; [|done]. simpl.
  destruct (line !! Z.to_nat c) as [x|] eqn:Hx; [|done]. simpl. intros ->.
  exists line. split; by eapply list_elem_of_lookup_2.
Qed.

Lemma simulation_finds_the_flipped_position_witness :
  let b := board Holding.aliceHolds.1 in
  inGrid b 0 0
  ∧ posLine (snapshot b "alice") 5 0 0 = cellLine b "alice" 0 0.
Proof.
  intros b.
  assert (inGrid b 0 0) as Hin by (vm_compute; intuition discriminate).
  split; [exact Hin|].
  refine (proj2 (simulation_finds_the_flipped_position b "alice" 5 0 0 _ Hin)).
  intros r' c' label Hcard.
  destruct (cardAt_elem _ _ _ _ Hcard) as (line & Hline & Hlabel).
  assert (cards b = [[Some "A"; Some "B"; Some "A"]]) as Hcards
    by (vm_compute; reflexivity).
  rewrite Hcards in Hline. apply list_elem_of_singleton in Hline as ->.
  assert (label = "A" ∨ label = "B") as [-> | ->].
  { clear Hcard.
    apply elem_of_cons in Hlabel as [[= ->]|Hlabel]; [left; reflexivity|].
    apply elem_of_cons in Hlabel as [[= ->]|Hlabel]; [right; reflexivity|].
    apply elem_of_cons in Hlabel as [[= ->]|Hlabel]; [left; reflexivity|].
    destruct (proj1 (elem_of_nil _) Hlabel). }
  - unfold plain. split; [discriminate|]. split; [|vm_compute; reflexivity].
    vm_compute. split; [discriminate|exact I].
  - unfold plain. split; [discriminate|]. split; [|vm_compute; reflexivity].
    vm_compute. split; [discriminate|exact I].
Defined.

